(** * TSAR: DVMH directive writers, shallow embedding

    The development follows three source files of the repository:
    - [ASTImportInfo.h]       (merged redeclaration locations),
    - [DVMHWriter.cpp]        (the data-parallel writer and its insertion ledger,
                               in its two revisions),
    - [DVMHSMAutoPar.cpp]     (the shared-memory parallelization engine).

    Conventions.  A C++ function that can leave defined behaviour (falling off
    the end of a value-returning function, dereferencing an empty [Optional],
    indexing a vector out of range) is embedded in [option]: [None] stands for
    "no defined result".  [assert]s are compiled out (the build defines
    [NDEBUG] outside the Debug configuration); where an assertion matters it is
    kept as a predicate of its own. *)

From Stdlib Require Import ZArith NArith Ascii String DecimalString Lia.
From stdpp Require Import base option list gmap strings sorting.

Local Open Scope N_scope.

(** ** Source locations (clang::SourceLocation) *)

(** The raw encoding is a 32-bit unsigned value; bit 31 marks a location that
    lies in a macro expansion, the value 0 is the invalid location. *)
Abbreviation SourceLocation := N (only parsing).
Abbreviation FileID := Z (only parsing).

Module Loc.
Definition MacroIDBit : N := N.shiftl 1 31.
Definition isValid (L : SourceLocation) : bool := negb (L =? 0).
Definition isInvalid (L : SourceLocation) : bool := L =? 0.
Definition isFileID (L : SourceLocation) : bool :=
  N.land L MacroIDBit =? 0.
Definition isMacroID (L : SourceLocation) : bool :=
  negb (N.land L MacroIDBit =? 0).
(** [getLocWithOffset]: ID + Offset on 32 bits. *)
Definition getLocWithOffset (L : SourceLocation) (Offset : N) : SourceLocation :=
  (L + Offset) mod 2 ^ 32.
Definition invalid : SourceLocation := 0.
End Loc.

(** ** Strings (llvm::StringRef) *)

Module Str.
(** The default character set of [StringRef::trim]: " \t\n\v\f\r". *)
Definition isTrimChar (c : ascii) : bool :=
  let n := nat_of_ascii c in
  (n =? 32)%nat || (n =? 9)%nat || (n =? 10)%nat ||
  (n =? 11)%nat || (n =? 12)%nat || (n =? 13)%nat.

Fixpoint ltrim (s : string) : string :=
  match s with
  | EmptyString => EmptyString
  | String c r => if isTrimChar c then ltrim r else s
  end.

Fixpoint rtrim (s : string) : string :=
  match s with
  | EmptyString => EmptyString
  | String c r =>
      match rtrim r with
      | EmptyString => if isTrimChar c then EmptyString else String c EmptyString
      | r' => String c r'
      end
  end.

Definition trim (s : string) : string := rtrim (ltrim s).

(** [SmallString::pop_back]. *)
Fixpoint pop_back (s : string) : string :=
  match s with
  | EmptyString => EmptyString
  | String c EmptyString => EmptyString
  | String c r => String c (pop_back r)
  end.

Definition nl : string := String (ascii_of_nat 10) EmptyString.
End Str.

(** ** Diagnostics *)

Inductive DiagKind :=
| err_apc_insert_dvm_directive
| note_apc_insert_macro_prevent
| note_apc_not_single_decl_stmt
| note_apc_insert_multiple_directives
| note_apc_no_proper_definition
| note_apc_insert_include_prevent
| err_apc_insert_template
| warn_parallel_loop
| note_parallel_across_direction_unknown.

(** One call of [toDiag(Diags, Loc, Kind) << Arg]; the location is optional,
    as in the overload of [toDiag] without a location. *)
Record Diagnostic := Diag {
  diag_kind : DiagKind;
  diag_loc : option SourceLocation;
  diag_arg : option string
}.

(** ** ASTImportInfo.h *)

Module MergedLocations.
Definition RedeclLocList := list SourceLocation.

(** [mRedeclLocs]. *)
Definition t := list RedeclLocList.

(** The constructor: one list of length one per location of [ToLocs]. *)
Definition make (ToLocs : list SourceLocation) : t :=
  map (fun Loc => [Loc]) ToLocs.

(** [find]: the first stored list whose element 0 is [Loc].  The loop has
    no [return] after it: when no list matches, control reaches the end of
    the function ([None]).  [Locs[0]] of an empty list is out of range
    ([None] as well). *)
Fixpoint find (m : t) (Loc : SourceLocation) : option RedeclLocList :=
  match m with
  | [] => None
  | Locs :: rest =>
      match Locs with
      | [] => None
      | L0 :: _ => if L0 =? Loc then Some Locs else find rest Loc
      end
  end.

(** [push_back]: [mRedeclLocs[I].push_back(MergedLocs[I])] for every index
    of [MergedLocs]; an index past the end of [mRedeclLocs] is out of
    range. *)
Fixpoint push_back (m : t) (MergedLocs : list SourceLocation) : option t :=
  match MergedLocs, m with
  | [], _ => Some m
  | L :: Ls, Locs :: rest =>
      rest' ← push_back rest Ls; Some ((Locs ++ [L]) :: rest')
  | _ :: _, [] => None
  end.

(** Every stored list has its original location at index 0. *)
Definition wf (m : t) : Prop := Forall (fun Locs => Locs <> []) m.

(** The original locations: element 0 of each stored list. *)
Definition originals (m : t) : list SourceLocation :=
  omap (fun Locs => head Locs) m.
End MergedLocations.

Module ASTImportInfo.
(** [RedeclLocMap]: declarations are identified by a number. *)
Record t := {
  RedeclLocs : gmap N MergedLocations.t;
  WasImport : bool
}.
Definition stub : t := {| RedeclLocs := ∅; WasImport := false |}.
End ASTImportInfo.

(** ** The collaborators of the writer: clang's SourceManager and Rewriter *)

(** The queries the writer makes of [clang::SourceManager], of
    [Lexer::ComputePreamble] and of [getStartOfLine]. *)
Record SourceManager := {
  getFilename : SourceLocation -> string;
  getFileID : SourceLocation -> FileID;
  (** [getDecomposedLoc(Loc)]: the file and the offset in it. *)
  getDecomposedLoc : SourceLocation -> FileID * N;
  getLocForStartOfFile : FileID -> SourceLocation;
  getStartOfLine : SourceLocation -> SourceLocation;
  (** [getDecomposedIncludedLoc(FID).first.isValid()]. *)
  isIncludeFile : FileID -> bool;
  (** [Lexer::ComputePreamble(getBufferData(FID), LangOpts).Size]. *)
  preambleSize : FileID -> N
}.

(** A location is the start of its file moved by its offset. *)
Definition decomposes (SM : SourceManager) (L : SourceLocation) : Prop :=
  Loc.getLocWithOffset (getLocForStartOfFile SM (getFileID SM L))
                       (getDecomposedLoc SM L).2 = L.

(** [clang::Rewriter], as the sequence of insertions made, in call order.  A
    location in a macro is not rewritable: the call changes nothing.  In the
    rewritten buffer [InsertTextBefore] puts the new text before what was
    inserted at the point earlier, [InsertTextAfter] after it. *)
Record Edit := {
  edit_loc : SourceLocation;
  edit_text : string;
  edit_after : bool
}.

Module Rewriter.
Abbreviation t := (list Edit).

Definition InsertText (L : SourceLocation) (Str : string)
    (InsertAfter : bool) (R : t) : t :=
  if Loc.isFileID L then R ++ [Build_Edit L Str InsertAfter] else R.

Definition InsertTextBefore L Str R := InsertText L Str false R.
Definition InsertTextAfter L Str R := InsertText L Str true R.

Definition applyEdit (L : SourceLocation) (acc : string) (e : Edit) :
    string :=
  if edit_loc e =? L then
    if edit_after e then acc +:+ edit_text e else edit_text e +:+ acc
  else acc.

(** The text that the rewritten buffer has at the point [L], in front of
    the original character there. *)
Definition textAt (R : t) (L : SourceLocation) : string :=
  fold_left (applyEdit L) R EmptyString.

(** The texts inserted at [L], in call order. *)
Definition insertedAt (R : t) (L : SourceLocation) : list string :=
  map edit_text (filter (fun e => edit_loc e = L) R).
End Rewriter.

(** [DenseMap::try_emplace] and [StringMap::try_emplace]: an existing entry
    is kept. *)
Definition try_emplace `{Countable K} {V} (k : K) (v : V) (m : gmap K V) :
    gmap K V :=
  match m !! k with
  | Some _ => m
  | None => <[k := v]> m
  end.

(** ** DVMHWriter.cpp: the state of [APCDVMHWriter] *)

Record WriterState := {
  mTransformedFiles : gmap string FileID;
  mInsertedDirs : gmap N string;
  mRewriter : Rewriter.t;
  mDiags : list Diagnostic
}.

Definition toDiag (K : DiagKind) (L : option SourceLocation)
    (Arg : option string) (s : WriterState) : WriterState :=
  {| mTransformedFiles := mTransformedFiles s;
     mInsertedDirs := mInsertedDirs s;
     mRewriter := mRewriter s;
     mDiags := mDiags s ++ [Diag K L Arg] |}.

Definition rewrite (f : Rewriter.t -> Rewriter.t) (s : WriterState) :
    WriterState :=
  {| mTransformedFiles := mTransformedFiles s;
     mInsertedDirs := mInsertedDirs s;
     mRewriter := f (mRewriter s);
     mDiags := mDiags s |}.

Definition recordFile (Name : string) (FID : FileID) (s : WriterState) :
    WriterState :=
  {| mTransformedFiles := try_emplace Name FID (mTransformedFiles s);
     mInsertedDirs := mInsertedDirs s;
     mRewriter := mRewriter s;
     mDiags := mDiags s |}.

Definition recordDir (L : SourceLocation) (DirStr : string) (s : WriterState) :
    WriterState :=
  {| mTransformedFiles := mTransformedFiles s;
     mInsertedDirs := try_emplace L DirStr (mInsertedDirs s);
     mRewriter := mRewriter s;
     mDiags := mDiags s |}.

(** The state after [releaseMemory]. *)
Definition releaseMemory : WriterState :=
  {| mTransformedFiles := ∅; mInsertedDirs := ∅;
     mRewriter := []; mDiags := [] |}.

Section Ledger.
Variable SM : SourceManager.

(** [getLocationToTransform]. *)
Definition getLocationToTransform (s : WriterState) (L : SourceLocation) :
    SourceLocation :=
  let Filename := getFilename SM L in
  match mTransformedFiles s !! Filename with
  | None => L
  | Some FID =>
      let DecLoc := getDecomposedLoc SM L in
      let FileStartLoc := getLocForStartOfFile SM FID in
      Loc.getLocWithOffset FileStartLoc DecLoc.2
  end.

(** The tail shared by both revisions of [insertDirective]: the insertion
    itself and the two ledger entries. *)
Definition performInsertion (Where : SourceLocation) (DirStr : string)
    (s : WriterState) : WriterState :=
  let s := rewrite (Rewriter.InsertTextBefore Where DirStr) s in
  let s := if negb (Where =? getStartOfLine SM Where)
           then rewrite (Rewriter.InsertTextBefore Where Str.nl) s else s in
  let s := recordFile (getFilename SM Where) (getFileID SM Where) s in
  recordDir Where DirStr s.

Definition diagnoseMultiple (Where : SourceLocation) (DirStr : string)
    (s : WriterState) : WriterState :=
  let s := toDiag err_apc_insert_dvm_directive (Some Where)
                  (Some (Str.trim DirStr)) s in
  toDiag note_apc_insert_multiple_directives (Some Where) None s.
End Ledger.

(** [insertDirective] of lib/APC/DVMHWriter.cpp. *)
Module DVMHWriter.
Definition insertDirective (SM : SourceManager) (Where : SourceLocation)
    (DirStr : string) (s : WriterState) : WriterState :=
  let Where := getLocationToTransform SM s Where in
  match mInsertedDirs s !! Where with
  | Some Prev =>
      if String.eqb Prev DirStr then s
      else diagnoseMultiple Where DirStr s
  | None => performInsertion SM Where DirStr s
  end.
End DVMHWriter.

(** [insertDirective] of the second copy of DVMHWriter.cpp in the repository,
    an earlier revision, where the test is
    [Itr != end() && Itr->second != DirStr]. *)
Module DVMHWriterRev0.
Definition insertDirective (SM : SourceManager) (Where : SourceLocation)
    (DirStr : string) (s : WriterState) : WriterState :=
  let Where := getLocationToTransform SM s Where in
  if match mInsertedDirs s !! Where with
     | Some Prev => negb (String.eqb Prev DirStr)
     | None => false
     end
  then diagnoseMultiple Where DirStr s
  else performInsertion SM Where DirStr s.
End DVMHWriterRev0.

(** A small source manager used in the examples: file 1 is the main file
    "a.c" (locations 2..999), file 2 is the include file "b.h" (locations
    1000..1999), file 3 is a second main file "c.c" (locations from 2000 on);
    every line is ten characters long and every preamble twenty. *)
Module Demo.
Definition fileOf (L : SourceLocation) : FileID :=
  if L <? 1000 then 1%Z else if L <? 2000 then 2%Z else 3%Z.
Definition startOf (FID : FileID) : SourceLocation :=
  if (FID =? 1)%Z then 2 else if (FID =? 2)%Z then 1000 else 2000.
Definition nameOf (FID : FileID) : string :=
  if (FID =? 1)%Z then "a.c" else if (FID =? 2)%Z then "b.h" else "c.c".
Definition SM : SourceManager := {|
  getFilename L := nameOf (fileOf L);
  getFileID := fileOf;
  getDecomposedLoc L := (fileOf L, L - startOf (fileOf L));
  getLocForStartOfFile := startOf;
  getStartOfLine L :=
    startOf (fileOf L) + ((L - startOf (fileOf L)) / 10) * 10;
  isIncludeFile FID := (FID =? 2)%Z;
  preambleSize FID := 20
|}.
End Demo.

(** ** DVMHWriter.cpp: the alignment and distribution planner *)

(** [DeclarationInfoMap]: the flag [IsSingleDeclStmt] by raw location. *)
Abbreviation DeclarationInfoMap := (gmap N bool).

(** The three answers of [VarDecl::isThisDeclarationADefinition]. *)
Inductive DefinitionKind := DeclarationOnly | TentativeDefinition | Definition_.

(** One redeclaration of a variable, as far as the writer looks at it. *)
Record VarDecl := {
  declID : N;
  getLocation : SourceLocation;
  getLocStart : SourceLocation;
  isThisDeclarationADefinition : DefinitionKind
}.

(** A variable: the declaration [VD] handed to the writer, its name and the
    chain [VD->getFirstDecl()->redecls()] in iteration order. *)
Record Variable_ := {
  VD : VarDecl;
  getName : string;
  redecls : list VarDecl
}.

(** [VarDecl::getDefinition]: the first redeclaration that is a definition. *)
Definition getDefinition (V : Variable_) : option VarDecl :=
  List.find (fun D => match isThisDeclarationADefinition D with
                      | Definition_ => true
                      | _ => false
                      end) (redecls V).

(** [apc::Array], for a template: identity, short name and the bounds of each
    dimension. *)
Record Array := {
  arrayID : N;
  GetShortName : string;
  GetDimSize : nat;
  GetSizes : list (Z * Z)
}.

Record AlignRule := {
  alignRule : list (Z * Z);
  alignNames : list string;
  alignWith : Array;
  alignRuleWith : list (Z * (Z * Z))
}.

(** [enum dist] of a distribution rule. *)
Inductive dist := BLOCK | NONE.

Record DistrVariant := { distRule : list dist }.

Record DataDirective := {
  (** A template with all its distribution variants. *)
  distrRules : list (Array * list DistrVariant);
  alignRules : list AlignRule
}.

Inductive PragmaId := DvmTemplate | DvmArray | DvmAlign | DvmInherit.

(** [TemplateInFileUsage]: the files in the iteration order of the outer map,
    each with the flag [HasDefinition] of the templates used in it. *)
Abbreviation TemplateInFileUsage := (list (FileID * gmap N bool)).

Definition decimal (z : Z) : string :=
  DecimalString.NilZero.string_of_int (Z.to_int z).

Definition concat_strings (l : list string) : string :=
  fold_right String.append EmptyString l.

Section Planner.
Variable SM : SourceManager.
(** Helpers of other files of the project: the text of a pragma
    (tsar_pragma.h) and the two functions of DistributionUtils.h. *)
Variable getPragmaText : PragmaId -> string.
Variable extractTplDimsAlignmentIndexes : AlignRule -> list nat.
Variable genStringExpr : string -> Z * Z -> string.

Definition diagnoseInsert (K : DiagKind) (Where DeclLoc : SourceLocation)
    (DirStr : string) (s : WriterState) : WriterState :=
  let s := toDiag err_apc_insert_dvm_directive (Some Where)
                  (Some (Str.trim DirStr)) s in
  toDiag K (Some DeclLoc) None s.

(** [insertDataDirective] of lib/APC/DVMHWriter.cpp. *)
Definition insertDataDirective (DeclLoc : SourceLocation)
    (Decls : DeclarationInfoMap) (Where : SourceLocation) (DirStr : string)
    (s : WriterState) : WriterState :=
  if Loc.isMacroID Where then
    diagnoseInsert note_apc_insert_macro_prevent Where DeclLoc DirStr s
  else
    match Decls !! DeclLoc with
    | None | Some true => DVMHWriter.insertDirective SM Where DirStr s
    | Some false =>
        diagnoseInsert note_apc_not_single_decl_stmt Where DeclLoc DirStr s
    end.

(** The text of the [align] directive of a rule. *)
Definition alignDim (AR : AlignRule) (I : nat) (R : Z * Z) : option string :=
  if ((R.1 =? 1) && (R.2 =? 0))%Z
  then Name ← alignNames AR !! I; Some ("[" +:+ Name +:+ "]")
  else Some "[]"%string.

Definition alignWithDim (AR : AlignRule) (Size : nat) (DimARIdx : nat) :
    option string :=
  if (DimARIdx <? Size)%nat then
    RW ← alignRuleWith AR !! DimARIdx;
    Name ← (if (RW.1 <? 0)%Z then None else alignNames AR !! Z.to_nat RW.1);
    Some ("[" +:+ genStringExpr Name RW.2 +:+ "]")
  else Some "[]"%string.

Definition alignText (AR : AlignRule) : option string :=
  Dims ← mapM (fun IR : nat * (Z * Z) => alignDim AR IR.1 IR.2)
              (imap (fun Idx R => (Idx, R)) (alignRule AR));
  let TplDimAR := extractTplDimsAlignmentIndexes AR in
  With ← mapM (alignWithDim AR (length TplDimAR)) TplDimAR;
  Some (Str.pop_back (getPragmaText DvmAlign) +:+ "(" +:+
        concat_strings Dims +:+ " with " +:+ GetShortName (alignWith AR) +:+
        concat_strings With +:+ ")" +:+ Str.nl).

(** The loop over the location aliases of a merged redeclaration. *)
Fixpoint insertForAliases (Decls : DeclarationInfoMap) (Array : string)
    (RedeclLoc : SourceLocation) (I : nat)
    (Locs StartLocs : list SourceLocation) (s : WriterState) :
    option WriterState :=
  match Locs with
  | [] => Some s
  | LocI :: Locs' =>
      if LocI =? RedeclLoc then
        insertForAliases Decls Array RedeclLoc (S I) Locs' StartLocs s
      else
        StartI ← StartLocs !! I;
        insertForAliases Decls Array RedeclLoc (S I) Locs' StartLocs
          (insertDataDirective LocI Decls StartI Array s)
  end.

(** The body of the loop over the redeclarations. *)
Definition insertForRedecl (Import : ASTImportInfo.t)
    (Decls : DeclarationInfoMap) (Align Array : string) (Redecl : VarDecl)
    (st : SourceLocation * WriterState) :
    option (SourceLocation * WriterState) :=
  let StartOfDecl := getLocStart Redecl in
  let RedeclLoc := getLocation Redecl in
  let '(DefinitionLoc, s) := st in
  let '(DefinitionLoc, s) :=
    match isThisDeclarationADefinition Redecl with
    | Definition_ => (DefinitionLoc, s)
    | DeclarationOnly =>
        (DefinitionLoc,
         insertDataDirective RedeclLoc Decls StartOfDecl Array s)
    | TentativeDefinition =>
        if Loc.isInvalid DefinitionLoc then
          if isIncludeFile SM (getFileID SM StartOfDecl) then
            (DefinitionLoc,
             insertDataDirective RedeclLoc Decls StartOfDecl Array s)
          else
            (RedeclLoc,
             insertDataDirective RedeclLoc Decls StartOfDecl Align s)
        else
          (RedeclLoc,
           insertDataDirective RedeclLoc Decls StartOfDecl Align s)
    end in
  match ASTImportInfo.RedeclLocs Import !! declID Redecl with
  | None => Some (DefinitionLoc, s)
  | Some Merged =>
      Locs ← MergedLocations.find Merged RedeclLoc;
      StartLocs ← MergedLocations.find Merged StartOfDecl;
      s ← insertForAliases Decls Array RedeclLoc 0 Locs StartLocs s;
      Some (DefinitionLoc, s)
  end.

Fixpoint insertForRedecls (Import : ASTImportInfo.t)
    (Decls : DeclarationInfoMap) (Align Array : string)
    (Redecls : list VarDecl) (st : SourceLocation * WriterState) :
    option (SourceLocation * WriterState) :=
  match Redecls with
  | [] => Some st
  | Redecl :: Redecls' =>
      st ← insertForRedecl Import Decls Align Array Redecl st;
      insertForRedecls Import Decls Align Array Redecls' st
  end.

(** [insertAlignment]. *)
Definition insertAlignment (Import : ASTImportInfo.t)
    (Decls : DeclarationInfoMap) (AR : AlignRule) (V : Variable_)
    (s : WriterState) : option (SourceLocation * WriterState) :=
  Align ← alignText AR;
  let st :=
    match getDefinition V with
    | Some VarDef =>
        (getLocation VarDef,
         insertDataDirective (getLocation VarDef) Decls (getLocStart VarDef)
                             Align s)
    | None => (Loc.invalid, s)
    end in
  let Array := getPragmaText DvmArray in
  '(DefinitionLoc, s) ← insertForRedecls Import Decls Align Array
                                         (redecls V) st;
  if Loc.isInvalid DefinitionLoc then
    let s := toDiag err_apc_insert_dvm_directive (Some (getLocation (VD V)))
                    (Some (Str.trim Align)) s in
    Some (DefinitionLoc,
          toDiag note_apc_no_proper_definition None (Some (getName V)) s)
  else Some (DefinitionLoc, s).

(** [Templates.try_emplace(FID).first->second.try_emplace(Tpl)]: the entry of
    the file and, in it, the entry of the template are created when they are
    missing, the latter with [HasDefinition] false.  (The iteration order of
    the outer [DenseMap] is not specified; a new file goes to the end of the
    list.) *)
Fixpoint useTemplate (FID : FileID) (Tpl : N)
    (Templates : TemplateInFileUsage) : TemplateInFileUsage :=
  match Templates with
  | [] => [(FID, try_emplace Tpl false ∅)]
  | (F, Usage) :: Templates' =>
      if (F =? FID)%Z then (F, try_emplace Tpl false Usage) :: Templates'
      else (F, Usage) :: useTemplate FID Tpl Templates'
  end.

(** The lambda [insertAlignAndCollectTpl] of [runOnModule]. *)
Definition insertAlignAndCollectTpl (Import : ASTImportInfo.t)
    (Decls : DeclarationInfoMap) (V : Variable_) (AR : AlignRule)
    (st : TemplateInFileUsage * WriterState) :
    option (TemplateInFileUsage * WriterState) :=
  '(DefLoc, s) ← insertAlignment Import Decls AR V st.2;
  if Loc.isValid DefLoc then
    Some (useTemplate (getFileID SM DefLoc) (arrayID (alignWith AR)) st.1, s)
  else Some (st.1, s).
End Planner.

Section Distribution.
Variable SM : SourceManager.
Variable getPragmaText : PragmaId -> string.

(** "[Size]" for each dimension of a template. *)
Definition sizesText (Tpl : Array) : option string :=
  Dims ← mapM (fun DimIdx =>
                 Sz ← GetSizes Tpl !! DimIdx;
                 Some ("[" +:+ decimal Sz.2 +:+ "]"))
              (seq 0 (GetDimSize Tpl));
  Some (concat_strings Dims).

Definition distText (DR : DistrVariant) : string :=
  concat_strings
    (map (fun Kind => match Kind with
                      | BLOCK => "[block]"
                      | NONE => "[]"
                      end) (distRule DR)).

(** The body of the inner loop of [insertDistibution] for the file [FID]
    with the usage map [Usage] and the rule of index [DistrRuleIdx]. *)
Definition insertTemplate (CurrentVariant : list nat) (FID : FileID)
    (DistrRuleIdx : nat) (AllTplDistrRules : Array * list DistrVariant)
    (st : gmap N bool * gset N * WriterState) :
    option (gmap N bool * gset N * WriterState) :=
  let Usage : gmap N bool := st.1.1 in
  let InsertedTemplates : gset N := st.1.2 in
  let s : WriterState := st.2 in
  let Tpl := AllTplDistrRules.1 in
  match Usage !! arrayID Tpl with
  | None => Some st
  | Some HasDefinition =>
      Sizes ← sizesText Tpl;
      Variant ← CurrentVariant !! DistrRuleIdx;
      DR ← AllTplDistrRules.2 !! Variant;
      let Distribute :=
        Str.pop_back (getPragmaText DvmTemplate) +:+ " " +:+ Sizes +:+
        " distribute " +:+ distText DR +:+ Str.nl in
      let Where := Loc.getLocWithOffset (getLocForStartOfFile SM FID)
                                        (preambleSize SM FID) in
      let s :=
        if isIncludeFile SM FID
        then diagnoseInsert note_apc_insert_include_prevent Where Where
                            Distribute s
        else s in
      let Distribute :=
        Distribute +:+ (if HasDefinition : bool then "extern" else "")%string +:+
        "void *" +:+ GetShortName Tpl +:+ ";" +:+ Str.nl +:+ Str.nl in
      let Usage := <[arrayID Tpl := true]> Usage in
      let Where := getLocationToTransform SM s Where in
      let s := rewrite (Rewriter.InsertTextBefore Where Distribute) s in
      let s := recordFile (getFilename SM Where) FID s in
      Some (Usage, {[arrayID Tpl]} ∪ InsertedTemplates, s)
  end.

Fixpoint insertTemplates (CurrentVariant : list nat) (FID : FileID)
    (DistrRuleIdx : nat) (Rules : list (Array * list DistrVariant))
    (st : gmap N bool * gset N * WriterState) :
    option (gmap N bool * gset N * WriterState) :=
  match Rules with
  | [] => Some st
  | R :: Rules' =>
      st ← insertTemplate CurrentVariant FID DistrRuleIdx R st;
      insertTemplates CurrentVariant FID (S DistrRuleIdx) Rules' st
  end.

Fixpoint insertInFiles (CurrentVariant : list nat)
    (Rules : list (Array * list DistrVariant))
    (Templates : TemplateInFileUsage) (acc : gset N * WriterState) :
    option (TemplateInFileUsage * gset N * WriterState) :=
  match Templates with
  | [] => Some ([], acc.1, acc.2)
  | (FID, Usage) :: Templates' =>
      '(Usage, Inserted, s) ←
        insertTemplates CurrentVariant FID 0 Rules (Usage, acc.1, acc.2);
      '(Templates', Inserted, s) ←
        insertInFiles CurrentVariant Rules Templates' (Inserted, s);
      Some ((FID, Usage) :: Templates', Inserted, s)
  end.

(** The report of the templates that were placed nowhere. *)
Definition diagnoseMissing (Rules : list (Array * list DistrVariant))
    (Inserted : gset N) (s : WriterState) : WriterState :=
  if decide (length Rules = size Inserted) then s
  else
    fold_left (fun s (TplInfo : Array * list DistrVariant) =>
                 if decide (arrayID TplInfo.1 ∈ Inserted) then s
                 else toDiag err_apc_insert_template None
                             (Some (GetShortName TplInfo.1)) s)
              Rules s.

(** [insertDistibution]; [CurrentVariant] is [Region.GetCurrentVariant()]. *)
Definition insertDistibution (CurrentVariant : list nat)
    (DataDirs : DataDirective) (Templates : TemplateInFileUsage)
    (s : WriterState) : option (TemplateInFileUsage * WriterState) :=
  '(Templates, Inserted, s) ←
    insertInFiles CurrentVariant (distrRules DataDirs) Templates (∅, s);
  Some (Templates, diagnoseMissing (distrRules DataDirs) Inserted s).
End Distribution.

Module DemoPragma.
(** Modelled from the spec: [getPragmaText] of tsar_pragma.h is not among
    the sources; the texts are the literal directive forms that the
    specification lists, each closed by a line break. *)
Definition getPragmaText (Id : PragmaId) : string :=
  match Id with
  | DvmTemplate => "#pragma dvm template" +:+ Str.nl
  | DvmArray => "#pragma dvm array" +:+ Str.nl
  | DvmAlign => "#pragma dvm align" +:+ Str.nl
  | DvmInherit => "#pragma dvm inherit" +:+ Str.nl
  end.

Definition T : Array :=
  {| arrayID := 7; GetShortName := "T"; GetDimSize := 1;
     GetSizes := [(0%Z, 100%Z)] |}.

Definition DataDirs : DataDirective :=
  {| distrRules := [(T, [{| distRule := [BLOCK] |}])]; alignRules := [] |}.

(** "#pragma dvm template [100] distribute [block]", the declaration
    "void *T;" on the next line, and an empty line. *)
Definition definitionOfT : string :=
  "#pragma dvm template [100] distribute [block]" +:+ Str.nl +:+
  "void *T;" +:+ Str.nl +:+ Str.nl.
End DemoPragma.

(** ** The vocabulary of the statements about [insertAlignment] *)

(** [s'] has the insertions of [s] followed by insertions whose texts all
    satisfy [P]. *)
Definition extends_by (P : string -> Prop) (s s' : WriterState) : Prop :=
  exists new, mRewriter s' = mRewriter s ++ new /\
              Forall (fun e => P (edit_text e)) new.

(** The text is the directive or the line break put in front of one. *)
Definition directive_or_break (DirStr : string) (t : string) : Prop :=
  t = DirStr \/ t = Str.nl.

Definition noDefinition (V : Variable_) : Prop :=
  Forall (fun D => isThisDeclarationADefinition D = DeclarationOnly)
         (redecls V).

(** The variable has no proper definition: every redeclaration is a
    declaration only, or a tentative definition in an include file. *)
Definition noProperDefinition (SM : SourceManager) (V : Variable_) : Prop :=
  Forall (fun D =>
            isThisDeclarationADefinition D = DeclarationOnly \/
            (isThisDeclarationADefinition D = TentativeDefinition /\
             isIncludeFile SM (getFileID SM (getLocStart D)) = true))
         (redecls V).

(** The diagnostic [d] is among those reported between [s] and [s']. *)
Definition reportedSince (s s' : WriterState) (d : Diagnostic) : Prop :=
  exists new, mDiags s' = mDiags s ++ new /\ d ∈ new.

(** [W] is the point [Where] as the ledger of [s] addresses it: the location
    itself, or the same offset in the representation of its file that the
    ledger has recorded. *)
Definition pointOf (SM : SourceManager) (s : WriterState)
    (Where W : SourceLocation) : Prop :=
  W = Where \/
  exists FID,
    mTransformedFiles s !! getFilename SM Where = Some FID /\
    W = Loc.getLocWithOffset (getLocForStartOfFile SM FID)
                             (getDecomposedLoc SM Where).2.

(** How the request for the directive [DirStr] before the statement that
    starts at [Where], made between [s] and [s'] for the declaration at
    [DeclLoc], was settled.  A statement that starts in a macro, and a
    statement marked as one of several declarations, are diagnosed.
    Otherwise the ledger of [s'] binds the point of [Where]: to the
    directive, or to another text with the request diagnosed as a multiple
    insertion. *)
Definition requestSettled (SM : SourceManager) (Decls : DeclarationInfoMap)
    (DeclLoc Where : SourceLocation) (DirStr : string)
    (s s' : WriterState) : Prop :=
  if Loc.isMacroID Where then
    reportedSince s s' (Diag err_apc_insert_dvm_directive (Some Where)
                             (Some (Str.trim DirStr))) /\
    reportedSince s s' (Diag note_apc_insert_macro_prevent (Some DeclLoc)
                             None)
  else
    match Decls !! DeclLoc with
    | Some false =>
        reportedSince s s' (Diag err_apc_insert_dvm_directive (Some Where)
                                 (Some (Str.trim DirStr))) /\
        reportedSince s s' (Diag note_apc_not_single_decl_stmt (Some DeclLoc)
                                 None)
    | _ =>
        exists W, pointOf SM s' Where W /\
          (mInsertedDirs s' !! W = Some DirStr \/
           exists Prev,
             mInsertedDirs s' !! W = Some Prev /\ Prev <> DirStr /\
             reportedSince s s' (Diag err_apc_insert_dvm_directive (Some W)
                                      (Some (Str.trim DirStr))) /\
             reportedSince s s' (Diag note_apc_insert_multiple_directives
                                      (Some W) None))
    end.

(** Every binding that the ledger of [s'] has at a rewritable point and the
    ledger of [s] has not stands for an insertion made since [s]: its text
    is among the new texts at that point. *)
Definition bindingsInserted (s s' : WriterState) : Prop :=
  forall W T,
    mInsertedDirs s !! W = None -> mInsertedDirs s' !! W = Some T ->
    Loc.isFileID W = true ->
    exists new, mRewriter s' = mRewriter s ++ new /\
                T ∈ Rewriter.insertedAt new W.

Module DemoAlign.
(** Stand-ins for the two helpers of DistributionUtils.h, which is not
    among the sources; no statement below depends on what they return. *)
Definition extractTplDimsAlignmentIndexes (AR : AlignRule) : list nat :=
  seq 0 (length (alignRuleWith AR)).
Definition genStringExpr (N : string) (R : Z * Z) : string := N.

(** The rule "A[i] with T[i]". *)
Definition AR : AlignRule :=
  {| alignRule := [(1%Z, 0%Z)]; alignNames := ["i"%string];
     alignWith := DemoPragma.T; alignRuleWith := [(0%Z, (1%Z, 0%Z))] |}.

(** A variable A whose only declaration is "extern double A[100];" on a
    line of its own in "a.c". *)
Definition externA : VarDecl :=
  {| declID := 1; getLocation := 56; getLocStart := 42;
     isThisDeclarationADefinition := DeclarationOnly |}.
Definition A : Variable_ :=
  {| VD := externA; getName := "A"; redecls := [externA] |}.

Definition insertAlignment :=
  insertAlignment Demo.SM DemoPragma.getPragmaText
                  extractTplDimsAlignmentIndexes genStringExpr.

(** A variable E without a proper definition: declared by
    "extern double E[100];" on a line of its own in "a.c", tentatively
    defined by "double E[100];" on a line of its own in the include file
    "b.h", and declared once more in the expansion of a macro. *)
Definition externE : VarDecl :=
  {| declID := 4; getLocation := 96; getLocStart := 82;
     isThisDeclarationADefinition := DeclarationOnly |}.
Definition tentativeE : VarDecl :=
  {| declID := 5; getLocation := 1047; getLocStart := 1040;
     isThisDeclarationADefinition := TentativeDefinition |}.
Definition macroE : VarDecl :=
  {| declID := 6; getLocation := Loc.MacroIDBit + 16;
     getLocStart := Loc.MacroIDBit + 2;
     isThisDeclarationADefinition := DeclarationOnly |}.
Definition E : Variable_ :=
  {| VD := externE; getName := "E";
     redecls := [externE; tentativeE; macroE] |}.

(** Two variables, each defined on a line of its own: B in "a.c" and C in
    "c.c". *)
Definition defB : VarDecl :=
  {| declID := 2; getLocation := 69; getLocStart := 62;
     isThisDeclarationADefinition := Definition_ |}.
Definition B : Variable_ := {| VD := defB; getName := "B"; redecls := [defB] |}.
Definition defC : VarDecl :=
  {| declID := 3; getLocation := 2067; getLocStart := 2060;
     isThisDeclarationADefinition := Definition_ |}.
Definition C : Variable_ := {| VD := defC; getName := "C"; redecls := [defC] |}.

Definition insertAlignAndCollectTpl :=
  insertAlignAndCollectTpl Demo.SM DemoPragma.getPragmaText
                           extractTplDimsAlignmentIndexes genStringExpr
                           ASTImportInfo.stub ∅.
End DemoAlign.

(** ** DVMHSMAutoPar.cpp: the data of the parallelization engine *)

Abbreviation ObjectID := N (only parsing).

(** [SortedVarListT] is a [std::set<std::string>]: a set, iterated in the
    order of [std::less<std::string>]. *)
Abbreviation SortedVarListT := (gset string).

Definition sortedVars (Vars : SortedVarListT) : list string :=
  merge_sort (fun x y => String.leb x y) (elements Vars).

(** Modelled from the spec: the declaration of [trait::Reduction::Kind] is not
    among the sources.  The kinds are the seven operators of the
    specification, in the order in which the [switch] of
    [addReductionIfNeed] lists them, numbered from [RK_First] = 0 to
    [RK_NumberOf] = 7 (exclusive). *)
Inductive ReductionKind :=
  RK_Add | RK_Mult | RK_Or | RK_And | RK_Xor | RK_Max | RK_Min.

Definition RK_First : nat := 0.
Definition RK_NumberOf : nat := 7.

(** [static_cast<trait::Reduction::Kind>(I)]. *)
Definition kindOfIndex (I : nat) : option ReductionKind :=
  match I with
  | 0 => Some RK_Add | 1 => Some RK_Mult | 2 => Some RK_Or | 3 => Some RK_And
  | 4 => Some RK_Xor | 5 => Some RK_Max | 6 => Some RK_Min | _ => None
  end%nat.

(** The token that the specification gives to each kind. *)
Definition kindToken (K : ReductionKind) : string :=
  match K with
  | RK_Add => "sum" | RK_Mult => "product" | RK_Or => "or" | RK_And => "and"
  | RK_Xor => "xor" | RK_Max => "max" | RK_Min => "min"
  end.

(** [ReductionVarListT]: an array of [RK_NumberOf] sets, indexed by kind. *)
Abbreviation ReductionVarListT := (list SortedVarListT).

Module Pragma.
(** The [switch] of [addReductionIfNeed].  For [RK_Xor] the statement is
    [RedKind + "xor ";]: it builds a value and drops it, [RedKind] stays
    empty.  [None] is the [default] case ([llvm_unreachable]). *)
Definition RedKind (I : nat) : option string :=
  K ← kindOfIndex I;
  Some match K with
       | RK_Add => "sum" | RK_Mult => "product" | RK_Or => "or"
       | RK_And => "and" | RK_Xor => "" | RK_Max => "max" | RK_Min => "min"
       end%string.

(** "reduction(" Kind "(" v1 ")" { "," Kind "(" v ")" } ")". *)
Definition reductionGroup (Kind : string) (Vars : list string) : string :=
  match Vars with
  | [] => EmptyString
  | V :: Vars' =>
      "reduction(" +:+ Kind +:+ "(" +:+ V +:+ ")" +:+
      concat_strings (map (fun V => "," +:+ Kind +:+ "(" +:+ V +:+ ")") Vars')
      +:+ ")"
  end.

(** [addReductionIfNeed]: the loop from [I] over the remaining kinds. *)
Fixpoint addReductionFrom (VarInfoList : ReductionVarListT) (I : nat)
    (Count : nat) (ParallelFor : string) : option string :=
  match Count with
  | O => Some ParallelFor
  | S Count' =>
      let Vars := VarInfoList !!! I in
      if decide (Vars = ∅) then
        addReductionFrom VarInfoList (S I) Count' ParallelFor
      else
        Kind ← RedKind I;
        addReductionFrom VarInfoList (S I) Count'
          (ParallelFor +:+ reductionGroup Kind (sortedVars Vars))
  end.

Definition addReductionIfNeed (VarInfoList : ReductionVarListT)
    (ParallelFor : string) : option string :=
  addReductionFrom VarInfoList RK_First (RK_NumberOf - RK_First) ParallelFor.

(** [addVarList] and [addClauseIfNeed]. *)
Definition addVarList (VarInfoList : SortedVarListT) (Clause : string) :
    option string :=
  match sortedVars VarInfoList with
  | [] => None
  | V :: Vars =>
      Some (Clause +:+ "(" +:+ V +:+
            concat_strings (map (fun V => ", " +:+ V) Vars) +:+ ")")
  end.

Definition addClauseIfNeed (Name : string) (Vars : SortedVarListT)
    (PragmaStr : string) : option string :=
  if decide (Vars = ∅) then Some PragmaStr
  else addVarList Vars (PragmaStr +:+ Name).
End Pragma.

(** ** DVMHSMAutoPar.cpp: the inputs of the engine *)

(** [trait::DIDependence::Distance] is an [Optional<APSInt>]; a distance range
    is a [std::pair] of two distances, written [(first, second)] here.  The
    engine calls the [first] member of the front range [MinDepth]: [first] is
    the lower and [second] the upper bound of the range. *)
Abbreviation Distance := (option Z).
Abbreviation DistanceRange := (Distance * Distance)%type.
Abbreviation DistanceVector := (list DistanceRange).

(** [ClangDependenceAnalyzer::DistanceInfo]: the distance vectors of the flow
    and of the anti dependence, one range per nest level. *)
Record DistanceInfo := {
  Flow : DistanceVector;
  Anti : DistanceVector
}.

(** The dependence information of a loop ([getDependenceInfo()]); the two
    def-use sets are the ones left by [evaluateDefUse()].  [D_Dependence] is
    a [std::map], listed in the order of its iteration. *)
Record DependenceInfo := {
  D_Private : SortedVarListT;
  D_FirstPrivate : SortedVarListT;
  D_LastPrivate : SortedVarListT;
  D_ReadOccurred : SortedVarListT;
  D_WriteOccurred : SortedVarListT;
  D_Reduction : ReductionVarListT;
  D_Induction : string;
  D_Dependence : list (string * DistanceInfo)
}.

(** Array accesses ([DIArrayAccessInfo]). *)
Record Monom := { Column : ObjectID; Value : Z }.

Inductive DISubscript :=
| DIAffineSubscript (Dimension : nat) (Monoms : list Monom)
| DIOtherSubscript (Dimension : nat).

(** A memory location; [estimateVar] is the name of the variable when the
    location is a [DIEstimateMemory]. *)
Record DIMemory := { memID : N; estimateVar : option string }.

(** An access: the array and one subscript per dimension, [None] for a null
    pointer. *)
Record ArrayAccess := {
  getArray : DIMemory;
  Subscripts : list (option DISubscript)
}.

Record DIArrayAccessInfo := {
  scope_accesses : ObjectID -> list ArrayAccess;
  array_accesses : DIMemory -> ObjectID -> list ArrayAccess
}.

(** What the engine asks about one loop [IR]/[AST] and its analyses. *)
Record LoopFacts := {
  LoopID : ObjectID;
  Header : N;
  ExitingBlock : N;
  RegionBeginLoc : SourceLocation;
  ASTDepInfo : DependenceInfo;
  (** The result of [ASTRegionAnalysis.evaluateDefUse()]. *)
  Localized : bool;
  (** [PL[IR.getLoop()].isHostOnly()]. *)
  HostOnly : bool;
  (** [PerfectInfo.count(&IR)] and [IR.getNumRegions()]. *)
  Perfect : bool;
  NumRegions : nat;
  (** [CL.find_as(&DFL)]: [None] when the loop is not in the set of canonical
      loops; otherwise the step when it is a [SCEVConstant]. *)
  Canonical : option (option Z)
}.

(** ** DVMHSMAutoPar.cpp: the parallel items *)

(** [PragmaParallel] with the [finalized] flag of [ParallelItem].  The clause
    [trait::DirectAccess] is written by [optimizeLevel] only and is left
    out. *)
Record PragmaParallel := {
  P_Private : SortedVarListT;
  P_Reduction : ReductionVarListT;
  P_Dependence : gmap string DistanceVector;
  P_Induction : list ObjectID;
  PossibleAcrossDepth : N;
  isFinal : bool
}.

Record PragmaRegion := {
  R_Private : SortedVarListT;
  R_ReadOccurred : SortedVarListT;
  R_WriteOccurred : SortedVarListT;
  R_HostOnly : bool
}.

(** The items of a parallel block.  The [PragmaParallel] of a location is
    held by pointer and is updated while the nest grows: the block records
    its place, the engine carries its value. *)
Inductive ParallelItem :=
| ItemActual (Memory : SortedVarListT)
| ItemRegion (Region : PragmaRegion)
| ItemParallel
| ItemGetActual (Memory : SortedVarListT)
| ItemMarker.

Record ParallelLocation := {
  Anchor : ObjectID;
  Entry : list ParallelItem;
  Exit : list ParallelItem
}.

(** [Parallelization]: the locations attached to each basic block. *)
Abbreviation Parallelization := (gmap N (list ParallelLocation)).

Definition finalize (P : PragmaParallel) : PragmaParallel :=
  {| P_Private := P_Private P; P_Reduction := P_Reduction P;
     P_Dependence := P_Dependence P; P_Induction := P_Induction P;
     PossibleAcrossDepth := PossibleAcrossDepth P; isFinal := true |}.

Definition setPrivate (X : SortedVarListT) (P : PragmaParallel) :=
  {| P_Private := X; P_Reduction := P_Reduction P;
     P_Dependence := P_Dependence P; P_Induction := P_Induction P;
     PossibleAcrossDepth := PossibleAcrossDepth P; isFinal := isFinal P |}.

Definition setDependence (X : gmap string DistanceVector) (P : PragmaParallel) :=
  {| P_Private := P_Private P; P_Reduction := P_Reduction P;
     P_Dependence := X; P_Induction := P_Induction P;
     PossibleAcrossDepth := PossibleAcrossDepth P; isFinal := isFinal P |}.

Definition setPossibleAcrossDepth (Depth : N) (P : PragmaParallel) :=
  {| P_Private := P_Private P; P_Reduction := P_Reduction P;
     P_Dependence := P_Dependence P; P_Induction := P_Induction P;
     PossibleAcrossDepth := Depth; isFinal := isFinal P |}.

Definition addInduction (ID : ObjectID) (P : PragmaParallel) :=
  {| P_Private := P_Private P; P_Reduction := P_Reduction P;
     P_Dependence := P_Dependence P; P_Induction := P_Induction P ++ [ID];
     PossibleAcrossDepth := PossibleAcrossDepth P; isFinal := isFinal P |}.

(** An [unsigned] value. *)
Definition u32 (n : N) : N := n mod 2 ^ 32.

(** [size()] of a vector, and the same assigned to an [unsigned]. *)
Definition size_ {A} (l : list A) : N := N.of_nat (length l).
Definition usize {A} (l : list A) : N := u32 (size_ l).

(** ** DVMHSMAutoPar.cpp: [processRegularDependenceis] *)

Section Engine.
(** The bit width of the distances ([APSInt]). *)
Variable BitWidth : N.
(** [getAnalysis<DIArrayAccessWrapper>().getAccessInfo()], null or not. *)
Variable AccessInfo : option DIArrayAccessInfo.

(** [Revert = -X; Revert.setIsUnsigned(true); Revert >= MinDepth]: the
    comparison of the two bit patterns as unsigned numbers. *)
Definition revertCovers (X MinDepth : Z) : bool :=
  ((MinDepth mod 2 ^ Z.of_N BitWidth) <=? ((- X) mod 2 ^ Z.of_N BitWidth))%Z.

(** The inner loop of [updatePAD], from the second range on. *)
Fixpoint countDepth (MinDepth : Z) (Inner : DistanceVector) (PAD : N) :
    option N :=
  match Inner with
  | [] => Some PAD
  | Range :: Inner' =>
      X ← Range.1;
      if (X <? 0)%Z && revertCovers X MinDepth then Some PAD
      else countDepth MinDepth Inner' (u32 (PAD + 1))
  end.

(** [updatePAD(Dep, T)] for the distance vector of the kind [T]. *)
Definition updatePAD (Distances : DistanceVector) (PossibleAcrossDepth : N) :
    option N :=
  match Distances with
  | [] => Some PossibleAcrossDepth
  | Front :: Inner =>
      MinDepth ← Front.1;
      PAD ← countDepth MinDepth Inner 1;
      Some (N.min PossibleAcrossDepth PAD)
  end.

(** [getDistance(T)]. *)
Definition getDistance (Distances : DistanceVector) : Distance :=
  match Distances with
  | [] => None
  | Front :: _ => Front.2
  end.

(** The loop over the monoms of an affine subscript; [None] is
    [return false]. *)
Fixpoint scanMonoms (ID : ObjectID) (Dimension : nat) (Monoms : list Monom)
    (AnotherColumn : ObjectID) (DependentDim : option nat) :
    option (option nat) :=
  match Monoms with
  | [] => Some DependentDim
  | M :: Monoms' =>
      if Column M =? ID then
        if negb (AnotherColumn =? 0) ||
           match DependentDim with
           | Some D => negb (D =? Dimension)%nat
           | None => false
           end
        then None
        else scanMonoms ID Dimension Monoms' AnotherColumn (Some Dimension)
      else
        if match DependentDim with
           | Some D => (D =? Dimension)%nat
           | None => false
           end
        then None
        else scanMonoms ID Dimension Monoms' (Column M) DependentDim
  end.

Fixpoint scanSubscripts (ID : ObjectID) (Subs : list (option DISubscript))
    (DependentDim : option nat) : option (option nat) :=
  match Subs with
  | [] => Some DependentDim
  | Some (DIAffineSubscript Dimension Monoms) :: Subs' =>
      DependentDim ← scanMonoms ID Dimension Monoms 0 DependentDim;
      scanSubscripts ID Subs' DependentDim
  | _ :: _ => None
  end.

Fixpoint scanAccesses (ID : ObjectID) (Accesses : list ArrayAccess)
    (DependentDim : option nat) (NumberOfDims : nat) :
    option (option nat * nat) :=
  match Accesses with
  | [] => Some (DependentDim, NumberOfDims)
  | Access :: Accesses' =>
      let NumberOfDims := Nat.max NumberOfDims (length (Subscripts Access)) in
      DependentDim ← scanSubscripts ID (Subscripts Access) DependentDim;
      scanAccesses ID Accesses' DependentDim NumberOfDims
  end.

(** The pair stored for the dependent dimension. *)
Definition acrossPair (Step : Z) (Info : DistanceInfo) : DistanceRange :=
  if (Step <? 0)%Z
  then (getDistance (Anti Info), getDistance (Flow Info))
  else (getDistance (Flow Info), getDistance (Anti Info)).

(** The body of the loop over the dependences.  The outer [None] is
    undefined behaviour, the inner [None] is [return false]. *)
Definition processDependence (AI : DIArrayAccessInfo) (ID : ObjectID)
    (Step : Z) (Dep : string * DistanceInfo)
    (st : PragmaParallel * N) : option (option (PragmaParallel * N)) :=
  match List.find (fun Access =>
                     bool_decide (estimateVar (getArray Access) = Some Dep.1))
                  (scope_accesses AI ID) with
  | None => Some None
  | Some AccessItr =>
      match scanAccesses ID (array_accesses AI (getArray AccessItr) ID)
                         None 0 with
      | None => Some None
      | Some (None, _) => Some None
      | Some (Some DependentDim, NumberOfDims) =>
          PAD ← updatePAD (Flow Dep.2) st.2;
          PAD ← updatePAD (Anti Dep.2) PAD;
          let Ranges :=
            resize NumberOfDims (None, None)
                   (default [] (P_Dependence st.1 !! Dep.1)) in
          if (DependentDim <? NumberOfDims)%nat then
            Some (Some
              (setDependence
                 (<[Dep.1 := <[DependentDim := acrossPair Step Dep.2]> Ranges]>
                    (P_Dependence st.1)) st.1,
               PAD))
          else None
      end
  end.

Fixpoint processDependences (AI : DIArrayAccessInfo) (ID : ObjectID)
    (Step : Z) (Deps : list (string * DistanceInfo))
    (st : PragmaParallel * N) : option (bool * (PragmaParallel * N)) :=
  match Deps with
  | [] => Some (true, st)
  | Dep :: Deps' =>
      r ← processDependence AI ID Step Dep st;
      match r with
      | None => Some (false, st)
      | Some st => processDependences AI ID Step Deps' st
      end
  end.

(** The start value of the local [PossibleAcrossDepth]. *)
Definition initialDepth (Deps : list (string * DistanceInfo)) : N :=
  match Deps with
  | [] => 0
  | Dep :: _ =>
      match Flow Dep.2 with
      | [] => usize (Anti Dep.2)
      | _ :: _ => usize (Flow Dep.2)
      end
  end.

(** The condition of the [assert] at the head of the function. *)
Definition depthNotExceeded (P : PragmaParallel) : bool :=
  (PossibleAcrossDepth P =? 0) ||
  (size_ (P_Induction P) <? PossibleAcrossDepth P).

(** [processRegularDependenceis]: the result, the item and the
    diagnostics. *)
Definition processRegularDependenceis (L : LoopFacts) (P : PragmaParallel)
    (Diags : list Diagnostic) :
    option (bool * PragmaParallel * list Diagnostic) :=
  let Deps := D_Dependence (ASTDepInfo L) in
  match Deps with
  | [] => Some (true, P, Diags)
  | _ :: _ =>
      ConstStep ← Canonical L;
      match ConstStep with
      | None =>
          Some (false, P,
                Diags ++
                [Diag warn_parallel_loop (Some (RegionBeginLoc L)) None;
                 Diag note_parallel_across_direction_unknown
                      (Some (RegionBeginLoc L)) None])
      | Some Step =>
          match AccessInfo with
          | None => Some (false, P, Diags)
          | Some AI =>
              '(ok, (P, PAD)) ←
                processDependences AI (LoopID L) Step Deps
                                   (P, initialDepth Deps);
              if ok : bool then
                let PAD := u32 (PAD + size_ (P_Induction P)) in
                Some (true,
                      if PossibleAcrossDepth P =? 0
                      then setPossibleAcrossDepth PAD P
                      else setPossibleAcrossDepth
                             (N.min (PossibleAcrossDepth P) PAD) P,
                      Diags)
              else Some (false, P, Diags)
          end
      end
  end.

(** ** DVMHSMAutoPar.cpp: [exploitParallelism] *)

Record EngineState := {
  mParallelizationInfo : Parallelization;
  eDiags : list Diagnostic
}.

(** The end of [exploitParallelism]: the loop joins the nest, and the item
    is finalized when the nest cannot grow. *)
Definition joinNest (L : LoopFacts) (P : PragmaParallel) : PragmaParallel :=
  let P := addInduction (LoopID L) P in
  if negb (isFinal P) &&
     (negb (Perfect L) || (NumRegions L =? 0)%nat ||
      (negb (PossibleAcrossDepth P =? 0) &&
       (size_ (P_Induction P) =? PossibleAcrossDepth P)))
  then finalize P else P.

(** The branch for an existing item. *)
Definition extendItem (L : LoopFacts) (DVMHParallel : PragmaParallel)
    (E : EngineState) : option (option PragmaParallel * EngineState) :=
  let D := ASTDepInfo L in
  let P := setPrivate (P_Private DVMHParallel ∖ {[D_Induction D]})
                      DVMHParallel in
  if HostOnly L || bool_decide (D_Private D <> P_Private P)
     || bool_decide (D_Reduction D <> P_Reduction P)
  then
    Some (Some (finalize (setPrivate ({[D_Induction D]} ∪ P_Private P) P)), E)
  else
    '(ok, P, Diags) ← processRegularDependenceis L P (eDiags E);
    let E := {| mParallelizationInfo := mParallelizationInfo E;
                eDiags := Diags |} in
    if ok : bool then Some (Some (joinNest L P), E)
    else Some (Some (finalize P), E).

(** The parallel blocks of a new item. *)
Definition attachNewItem (L : LoopFacts) (HasRegion : option PragmaRegion)
    (Actual GetActual : option ParallelItem) (Info : Parallelization) :
    Parallelization :=
  let EntryItems :=
    option_list Actual ++ option_list (ItemRegion <$> HasRegion) ++
    [ItemParallel] in
  let ExitItems :=
    option_list ((fun _ => ItemMarker) <$> HasRegion) ++
    option_list GetActual in
  if ExitingBlock L =? Header L then
    <[Header L :=
        default [] (Info !! Header L) ++
        [{| Anchor := LoopID L; Entry := EntryItems; Exit := ExitItems |}]]>
      Info
  else
    let Info :=
      <[Header L :=
          default [] (Info !! Header L) ++
          [{| Anchor := LoopID L; Entry := EntryItems; Exit := [] |}]]>
        Info in
    <[ExitingBlock L :=
        default [] (Info !! ExitingBlock L) ++
        [{| Anchor := LoopID L; Entry := []; Exit := ExitItems |}]]>
      Info.

(** The branch that creates an item. *)
Definition createItem (L : LoopFacts) (E : EngineState) :
    option (option PragmaParallel * EngineState) :=
  let D := ASTDepInfo L in
  let DVMHParallel :=
    {| P_Private := ∅ ∪ D_Private D;
       P_Reduction := (fun Vars => ∅ ∪ Vars) <$> D_Reduction D;
       P_Dependence := ∅; P_Induction := [];
       PossibleAcrossDepth := 0; isFinal := false |} in
  '(ok, P, Diags) ← processRegularDependenceis L DVMHParallel (eDiags E);
  if negb ok then
    Some (None, {| mParallelizationInfo := mParallelizationInfo E;
                   eDiags := Diags |})
  else
    let NoDeps := bool_decide (D_Dependence D = []) in
    let offload := negb (HostOnly L) && Localized L in
    let Actual :=
      if offload && negb (bool_decide (D_ReadOccurred D = ∅))
      then Some (ItemActual (∅ ∪ D_ReadOccurred D)) else None in
    let GetActual :=
      if offload && negb (bool_decide (D_WriteOccurred D = ∅))
      then Some (ItemGetActual (∅ ∪ D_WriteOccurred D)) else None in
    let Region :=
      if Localized L then
        Some (if offload
              then {| R_Private := ∅ ∪ D_Private D;
                      R_ReadOccurred := ∅ ∪ D_ReadOccurred D;
                      R_WriteOccurred := ∅ ∪ D_WriteOccurred D;
                      R_HostOnly := false |}
              else {| R_Private := ∅; R_ReadOccurred := ∅;
                      R_WriteOccurred := ∅; R_HostOnly := true |})
      else None in
    let P := if negb offload && NoDeps then finalize P else P in
    Some (Some (joinNest L P),
          {| mParallelizationInfo :=
               attachNewItem L Region Actual GetActual
                             (mParallelizationInfo E);
             eDiags := Diags |}).

Definition exploitParallelism (L : LoopFacts) (PI : option PragmaParallel)
    (E : EngineState) : option (option PragmaParallel * EngineState) :=
  let D := ASTDepInfo L in
  if negb (bool_decide (D_FirstPrivate D = ∅)) ||
     negb (bool_decide (D_LastPrivate D = ∅)) ||
     bool_decide (D_Induction D = EmptyString)
  then Some (finalize <$> PI, E)
  else
    match PI with
    | Some DVMHParallel => extendItem L DVMHParallel E
    | None => createItem L E
    end.
End Engine.

(** ** The vocabulary of the statements about the across pair *)

(** The lower and the upper bound of the front (outermost) range of a
    distance vector. *)
Definition lowerDistance (Distances : DistanceVector) : Distance :=
  head Distances ≫= fst.
Definition upperDistance (Distances : DistanceVector) : Distance :=
  head Distances ≫= snd.

(** The item has, for the array [Name], a range vector whose dimension [Dim]
    holds [Pair]. *)
Definition recordsAcross (P : PragmaParallel) (Name : string) (Dim : nat)
    (Pair : DistanceRange) : Prop :=
  exists Ranges,
    P_Dependence P !! Name = Some Ranges /\ Ranges !! Dim = Some Pair.

(** The array of the dependence [Name] in the loop [ID]: the array of the
    first access of the scope whose variable has this name. *)
Definition accessedArray (AI : DIArrayAccessInfo) (ID : ObjectID)
    (Name : string) : option DIMemory :=
  getArray <$>
    List.find (fun Access =>
                 bool_decide (estimateVar (getArray Access) = Some Name))
              (scope_accesses AI ID).

(** Some access to the array [Name] in the loop [ID] has, in the dimension
    [Dim], an affine subscript with a monom over the induction variable of
    the loop. *)
Definition subscriptOverLoop (AI : DIArrayAccessInfo) (ID : ObjectID)
    (Name : string) (Dim : nat) : Prop :=
  exists M Access Monoms Mo,
    accessedArray AI ID Name = Some M /\
    Access ∈ array_accesses AI M ID /\
    Some (DIAffineSubscript Dim Monoms) ∈ Subscripts Access /\
    Mo ∈ Monoms /\ Column Mo = ID.

(** [Dim] is the dependent dimension of the array [Name] in the loop [ID]:
    the one dimension whose subscripts run over the induction variable of
    the loop. *)
Definition dependentDimension (AI : DIArrayAccessInfo) (ID : ObjectID)
    (Name : string) (Dim : nat) : Prop :=
  subscriptOverLoop AI ID Name Dim /\
  forall Dim', subscriptOverLoop AI ID Name Dim' -> Dim' = Dim.

(** Loops used in the examples: the nest
    "for (i...) for (j...) ... A[i][j] ...", the loop over i with the
    identifier 10 and the loop over j with the identifier 20. *)
Module DemoLoops.
Definition A : DIMemory := {| memID := 1; estimateVar := Some "A"%string |}.

Definition accessA : ArrayAccess :=
  {| getArray := A;
     Subscripts :=
       [ Some (DIAffineSubscript 0 [{| Column := 10; Value := 1 |}]);
         Some (DIAffineSubscript 1 [{| Column := 20; Value := 1 |}]) ] |}.

Definition AccessInfo : DIArrayAccessInfo :=
  {| scope_accesses ID := [accessA];
     array_accesses M ID := [accessA] |}.

Definition noReductions : ReductionVarListT := replicate RK_NumberOf ∅.

Definition depInfo (Induction : string) (Private : SortedVarListT)
    (Deps : list (string * DistanceInfo)) : DependenceInfo :=
  {| D_Private := Private; D_FirstPrivate := ∅; D_LastPrivate := ∅;
     D_ReadOccurred := {["A"%string]}; D_WriteOccurred := {["A"%string]};
     D_Reduction := noReductions; D_Induction := Induction;
     D_Dependence := Deps |}.

(** A loop of a perfect nest with a loop inside, localized, not host-only,
    with the constant step [Step]. *)
Definition loop (ID : ObjectID) (Step : Z) (D : DependenceInfo) : LoopFacts :=
  {| LoopID := ID; Header := ID + 1; ExitingBlock := ID + 1;
     RegionBeginLoc := 100 + ID; ASTDepInfo := D; Localized := true;
     HostOnly := false; Perfect := true; NumRegions := 1;
     Canonical := Some (Some Step) |}.

Definition newItem : PragmaParallel :=
  {| P_Private := ∅; P_Reduction := noReductions; P_Dependence := ∅;
     P_Induction := []; PossibleAcrossDepth := 0; isFinal := false |}.

Definition start : EngineState :=
  {| mParallelizationInfo := ∅; eDiags := [] |}.

Definition exploitParallelism := exploitParallelism 64 (Some AccessInfo).
Definition processRegularDependenceis :=
  processRegularDependenceis 64 (Some AccessInfo).

(** A flow dependence with the distances 1..3 and an anti dependence with
    the distances 2..5 on A. *)
Definition ranges : list (string * DistanceInfo) :=
  [("A"%string, {| Flow := [(Some 1%Z, Some 3%Z)];
                   Anti := [(Some 2%Z, Some 5%Z)] |})].

(** Scenario C: a flow dependence of distance 1 and an anti dependence of
    distance 2. *)
Definition scenarioC : list (string * DistanceInfo) :=
  [("A"%string, {| Flow := [(Some 1%Z, Some 1%Z)];
                   Anti := [(Some 2%Z, Some 2%Z)] |})].
End DemoLoops.

(** ** The vocabulary of the statements about the extension of a nest *)

(** The loop may start or continue a nest at all. *)
Definition qualifies (L : LoopFacts) : Prop :=
  D_FirstPrivate (ASTDepInfo L) = ∅ /\
  D_LastPrivate (ASTDepInfo L) = ∅ /\
  D_Induction (ASTDepInfo L) <> EmptyString.

(** The loop is not host-only, and its private and reduction sets are those
    of the item once the induction variable of the loop is taken out of the
    private clause of the item. *)
Definition matchesItem (L : LoopFacts) (P : PragmaParallel) : Prop :=
  HostOnly L = false /\
  D_Private (ASTDepInfo L) =
    P_Private P ∖ {[D_Induction (ASTDepInfo L)]} /\
  D_Reduction (ASTDepInfo L) = P_Reduction P.


Module DemoNest.
Import DemoLoops.

(** The item after the loop over i, whose only private variable is j. *)
Definition P1 : PragmaParallel :=
  {| P_Private := {["j"%string]}; P_Reduction := noReductions;
     P_Dependence := ∅; P_Induction := [10]; PossibleAcrossDepth := 0;
     isFinal := false |}.

Definition outer : LoopFacts := loop 10 1 (depInfo "i" {["j"%string]} []).
Definition inner : LoopFacts := loop 20 1 (depInfo "j" ∅ []).


(** The loop over j with a dependence on A that has no distance at all. *)
Definition innerNoDistance : LoopFacts :=
  loop 20 1 (depInfo "j" ∅ [("A"%string, {| Flow := []; Anti := [] |})]).
End DemoNest.

(** ** The vocabulary of the statements about the depth ceiling *)

(** The induction sequence is not longer than a non-zero ceiling. *)
Definition withinCeiling (P : PragmaParallel) : Prop :=
  PossibleAcrossDepth P = 0 \/
  N.of_nat (length (P_Induction P)) <= PossibleAcrossDepth P.

(** The ceiling holds when every dependence record has a distance.  The
    counters are [unsigned]: the statements carry the bound under which they
    do not wrap around. *)

(** The record has a flow or an anti distance. *)
Definition hasDistance (Info : DistanceInfo) : Prop :=
  Flow Info <> [] \/ Anti Info <> [].

Definition vectorsFit (Info : DistanceInfo) : Prop :=
  N.of_nat (length (Flow Info)) < 2 ^ 32 /\
  N.of_nat (length (Anti Info)) < 2 ^ 32.

(** The dependences of a loop: the first record (the one that gives the start
    value of the depth) has a distance, and no vector is too long for an
    [unsigned] counter. *)
Definition distancesKnown (L : LoopFacts) : Prop :=
  Forall (fun Dep : string * DistanceInfo => vectorsFit Dep.2)
         (D_Dependence (ASTDepInfo L)) /\
  match D_Dependence (ASTDepInfo L) with
  | [] => True
  | Dep :: _ => hasDistance Dep.2
  end.

(** An open item can take one more loop. *)
Definition belowCeiling (P : PragmaParallel) : Prop :=
  PossibleAcrossDepth P = 0 \/
  N.of_nat (length (P_Induction P)) < PossibleAcrossDepth P.

(** ** DVMHWriter.cpp: the shape of declarations *)

(** A declaration as the two passes over declarations look at it: whether it
    is a [VarDecl], its location and its canonical declaration. *)
Record SomeDecl := {
  isVarDecl : bool;
  declLocation : SourceLocation;
  canonicalDecl : N
}.

(** A [DeclStmt] with its declarations; [isSingleDecl()] holds when the
    statement declares exactly one of them. *)
Record DeclStmt := { DS_decls : list SomeDecl }.

Definition isSingleDecl (DS : DeclStmt) : bool :=
  (length (DS_decls DS) =? 1)%nat.

(** [DeclarationInfoExtractor::VisitDeclStmt], in both revisions: the entry of
    every [VarDecl] of the statement is created or overwritten. *)
Definition VisitDeclStmt (DS : DeclStmt) (Decls : DeclarationInfoMap) :
    DeclarationInfoMap :=
  fold_left (fun Decls D =>
               if isVarDecl D
               then <[declLocation D := isSingleDecl DS]> Decls
               else Decls)
            (DS_decls DS) Decls.

(** A declaration of the translation unit: a function with the declarations
    of its context, a variable with its canonical declaration, or something
    else. *)
Inductive TopDecl :=
| TopFunction (hasBody : bool) (decls : list SomeDecl)
| TopVar (D : VarDecl) (Canonical : N)
| TopOther.

(** The lambda [checkSingleDecl]: [FirstGlobalAtLoc.try_emplace] and the
    writes to [Decls]. *)
Definition checkSingleDecl (StartLoc Loc : SourceLocation)
    (st : gmap N N * DeclarationInfoMap) : gmap N N * DeclarationInfoMap :=
  match st.1 !! StartLoc with
  | Some FirstLoc => (st.1, <[Loc := false]> (<[FirstLoc := false]> st.2))
  | None => (<[StartLoc := Loc]> st.1, <[Loc := true]> st.2)
  end.

(** The loop over the merged locations of a global variable. *)
Fixpoint checkMergedDecls (I : nat) (Locs StartLocs : list SourceLocation)
    (st : gmap N N * DeclarationInfoMap) :
    option (gmap N N * DeclarationInfoMap) :=
  match Locs with
  | [] => Some st
  | LocI :: Locs' =>
      StartI ← StartLocs !! I;
      checkMergedDecls (S I) Locs' StartLocs (checkSingleDecl StartI LocI st)
  end.

(** The branch of both passes for a global variable. *)
Definition checkGlobal (ImportInfo : ASTImportInfo.t) (D : VarDecl)
    (st : gmap N N * DeclarationInfoMap) :
    option (gmap N N * DeclarationInfoMap) :=
  match ASTImportInfo.RedeclLocs ImportInfo !! declID D with
  | None => Some (checkSingleDecl (getLocStart D) (getLocation D) st)
  | Some Merged =>
      StartLocs ← MergedLocations.find Merged (getLocStart D);
      Locs ← MergedLocations.find Merged (getLocation D);
      checkMergedDecls 0 Locs StartLocs st
  end.

(** The state of [initializeDeclInfo]: [FirstGlobalAtLoc], [Decls] and
    [CanonicalDecls]. *)
Record DeclInfoState := {
  FirstGlobalAtLoc : gmap N N;
  Decls_ : DeclarationInfoMap;
  CanonicalDecls : gset N
}.

(** The declarations of a function with a body: every variable is recorded as
    canonical and its flag is set to false. *)
Definition markLocals (decls : list SomeDecl) (st : DeclInfoState) :
    DeclInfoState :=
  fold_left (fun st D =>
               if isVarDecl D then
                 {| FirstGlobalAtLoc := FirstGlobalAtLoc st;
                    Decls_ := <[declLocation D := false]> (Decls_ st);
                    CanonicalDecls := {[canonicalDecl D]} ∪ CanonicalDecls st |}
               else st)
            decls st.

(** The body of the loop of [initializeDeclInfo] of
    lib/APC/DVMHWriter.cpp. *)
Definition initializeDecl (ImportInfo : ASTImportInfo.t) (D : TopDecl)
    (st : DeclInfoState) : option DeclInfoState :=
  match D with
  | TopFunction hasBody decls =>
      Some (if hasBody then markLocals decls st else st)
  | TopVar VD Canonical =>
      '(First, Decls) ← checkGlobal ImportInfo VD
                                    (FirstGlobalAtLoc st, Decls_ st);
      Some {| FirstGlobalAtLoc := First; Decls_ := Decls;
              CanonicalDecls := {[Canonical]} ∪ CanonicalDecls st |}
  | TopOther => Some st
  end.

Fixpoint initializeDecls (ImportInfo : ASTImportInfo.t) (Unit : list TopDecl)
    (st : DeclInfoState) : option DeclInfoState :=
  match Unit with
  | [] => Some st
  | D :: Unit' =>
      st ← initializeDecl ImportInfo D st;
      initializeDecls ImportInfo Unit' st
  end.

(** [initializeDeclInfo]: [FirstGlobalAtLoc] starts empty. *)
Definition initializeDeclInfo (ImportInfo : ASTImportInfo.t)
    (Unit : list TopDecl) (Decls : DeclarationInfoMap)
    (Canonical : gset N) : option (DeclarationInfoMap * gset N) :=
  st ← initializeDecls ImportInfo Unit
        {| FirstGlobalAtLoc := ∅; Decls_ := Decls;
           CanonicalDecls := Canonical |};
  Some (Decls_ st, CanonicalDecls st).

(** [isGlobalSingleDeclStmt] of the earlier revision: the global variables
    only. *)
Fixpoint checkGlobals (ImportInfo : ASTImportInfo.t) (Unit : list TopDecl)
    (st : gmap N N * DeclarationInfoMap) :
    option (gmap N N * DeclarationInfoMap) :=
  match Unit with
  | [] => Some st
  | TopVar VD _ :: Unit' =>
      st ← checkGlobal ImportInfo VD st;
      checkGlobals ImportInfo Unit' st
  | _ :: Unit' => checkGlobals ImportInfo Unit' st
  end.

Definition isGlobalSingleDeclStmt (ImportInfo : ASTImportInfo.t)
    (Unit : list TopDecl) (Decls : DeclarationInfoMap) :
    option DeclarationInfoMap :=
  st ← checkGlobals ImportInfo Unit (∅, Decls);
  Some st.2.

(** ** The vocabulary of the statements about the shape of declarations *)

(** What the pass over the unit does for one declaration, when no location is
    merged: a global variable with the start of its statement and its
    location, or a variable of a function with a body. *)
Inductive DeclEvent :=
| EvGlobal (StartLoc Loc : SourceLocation)
| EvLocal (Loc : SourceLocation).

Definition eventLoc (ev : DeclEvent) : SourceLocation :=
  match ev with
  | EvGlobal _ L => L
  | EvLocal L => L
  end.

Definition eventsOf (Unit : list TopDecl) : list DeclEvent :=
  Unit ≫= fun D =>
    match D with
    | TopVar VD _ => [EvGlobal (getLocStart VD) (getLocation VD)]
    | TopFunction true decls =>
        (fun D => EvLocal (declLocation D)) <$>
          filter (fun D => isVarDecl D = true) decls
    | _ => []
    end.

(** The locations of the variables that the pass writes an entry for, in the
    order of the unit. *)
Definition declaredLocations (Unit : list TopDecl) : list SourceLocation :=
  eventLoc <$> eventsOf Unit.

Definition applyEvent (st : gmap N N * DeclarationInfoMap) (ev : DeclEvent) :
    gmap N N * DeclarationInfoMap :=
  match ev with
  | EvGlobal StartLoc L => checkSingleDecl StartLoc L st
  | EvLocal L => (st.1, <[L := false]> st.2)
  end.

(** What the flags say after the events of a unit have been applied. *)
Definition flagsOf (evs : list DeclEvent)
    (st : gmap N N * DeclarationInfoMap) : Prop :=
  (forall S Lf, st.1 !! S = Some Lf -> EvGlobal S Lf ∈ evs) /\
  (forall S, st.1 !! S = None -> forall L, EvGlobal S L ∉ evs) /\
  (forall S L, EvGlobal S L ∈ evs ->
     exists b, st.2 !! L = Some b /\
       (b = true <-> forall L', EvGlobal S L' ∈ evs -> L' = L)) /\
  (forall L, EvLocal L ∈ evs -> st.2 !! L = Some false).

(** The locations of the variables of the functions with a body. *)
Definition localLocations (Unit : list TopDecl) : list SourceLocation :=
  Unit ≫= fun D =>
    match D with
    | TopFunction true decls =>
        declLocation <$> filter (fun D => isVarDecl D = true) decls
    | _ => []
    end.

(** Two maps of flags agree at every location outside [S]. *)
Definition agreeOff (S : list SourceLocation) (D D' : DeclarationInfoMap) :
    Prop :=
  forall L, L ∉ S -> D !! L = D' !! L.

(** A unit used in the examples: [int X, Y; int Z; void f() { int W; ... }],
    with X at 14, Y at 17 (their statement starts at 10), Z at 24 (statement
    at 20) and W at 35. *)
Module DemoUnit.
Definition X : VarDecl :=
  {| declID := 1; getLocation := 14; getLocStart := 10;
     isThisDeclarationADefinition := Definition_ |}.
Definition Y : VarDecl :=
  {| declID := 2; getLocation := 17; getLocStart := 10;
     isThisDeclarationADefinition := Definition_ |}.
Definition Z : VarDecl :=
  {| declID := 3; getLocation := 24; getLocStart := 20;
     isThisDeclarationADefinition := Definition_ |}.
Definition W : SomeDecl :=
  {| isVarDecl := true; declLocation := 35; canonicalDecl := 4 |}.
Definition Unit : list TopDecl :=
  [TopVar X 1; TopVar Y 2; TopVar Z 3; TopFunction true [W]; TopOther].
Definition Decls : DeclarationInfoMap :=
  default ∅ (fst <$> initializeDeclInfo ASTImportInfo.stub Unit ∅ ∅).
End DemoUnit.

(** ** DVMHWriter.cpp: [checkNotDistributedDecls] *)

Section NotDistributed.
Variable SM : SourceManager.

(** The body of the inner loop for one redeclaration: the location at which
    [err_apc_not_distr_decl_directive] is reported, if it is. *)
Definition checkNotDistributedDecl (s : WriterState) (Redecl : VarDecl) :
    option SourceLocation :=
  let StartOfDecl := getLocStart Redecl in
  if Loc.isMacroID StartOfDecl then None
  else
    match mTransformedFiles s !! getFilename SM StartOfDecl with
    | None => None
    | Some FID =>
        let DecLoc := getDecomposedLoc SM StartOfDecl in
        let StartOfDecl :=
          Loc.getLocWithOffset (getLocForStartOfFile SM FID) DecLoc.2 in
        if bool_decide (is_Some (mInsertedDirs s !! StartOfDecl))
        then Some StartOfDecl else None
    end.

(** [checkNotDistributedDecls]: the function only reports; the result lists
    the locations of its reports, in order. *)
Definition checkNotDistributedDecls (s : WriterState)
    (NotDistrCanonicalDecls : list Variable_) : list SourceLocation :=
  NotDistrCanonicalDecls ≫= fun V =>
    omap (checkNotDistributedDecl s) (redecls V).
End NotDistributed.

(** ** DVMHWriter.cpp: [insertInherit] *)

(** A parameter of a redeclaration of a function: its name (empty when the
    parameter is not named) and its location. *)
Record ParmVarDecl := {
  parmName : string;
  parmLocation : SourceLocation
}.

(** A redeclaration of a function. *)
Record FunctionDecl := {
  F_getLocation : SourceLocation;
  F_getLocStart : SourceLocation;
  parameters : list ParmVarDecl
}.

(** A [DILocalVariable] that is a parameter: [getArg()] counts from 1. *)
Record DIArg := {
  getArg : nat;
  argName : string
}.

(** The state of the loop body for one redeclaration: the text [Inherit],
    the list [UnnamedArgsInMacro] and the writer. *)
Record InheritState := {
  Inherit : string;
  UnnamedArgsInMacro : list (SourceLocation * string);
  inheritWriter : WriterState
}.

Section Inherit.
Variable SM : SourceManager.
Variable getPragmaText : PragmaId -> string.

(** [getParamDecl(DIArg->getArg() - 1)]: an index out of range is the
    undefined case. *)
Definition getParamDecl (Redecl : FunctionDecl) (A : DIArg) :
    option ParmVarDecl :=
  if (getArg A =? 0)%nat then None
  else parameters Redecl !! (getArg A - 1)%nat.

(** The lambda [insert]. *)
Definition insertArg (Redecl : FunctionDecl) (A : DIArg)
    (st : InheritState) : option InheritState :=
  Param ← getParamDecl Redecl A;
  if String.eqb (parmName Param) EmptyString then
    let Loc := parmLocation Param in
    if Loc.isMacroID Loc then
      Some {| Inherit := Inherit st +:+ argName A;
              UnnamedArgsInMacro :=
                UnnamedArgsInMacro st ++ [(Loc, argName A)];
              inheritWriter := inheritWriter st |}
    else
      Some {| Inherit := Inherit st +:+ argName A;
              UnnamedArgsInMacro := UnnamedArgsInMacro st;
              inheritWriter :=
                rewrite (Rewriter.InsertTextBefore Loc
                           ("(" +:+ argName A +:+ ")"))
                        (inheritWriter st) |}
  else
    Some {| Inherit := Inherit st +:+ parmName Param;
            UnnamedArgsInMacro := UnnamedArgsInMacro st;
            inheritWriter := inheritWriter st |}.

(** The loop over the arguments after the first one. *)
Fixpoint insertMoreArgs (Redecl : FunctionDecl) (Args : list DIArg)
    (st : InheritState) : option InheritState :=
  match Args with
  | [] => Some st
  | A :: Args' =>
      st ← insertArg Redecl A
             {| Inherit := Inherit st +:+ ",";
                UnnamedArgsInMacro := UnnamedArgsInMacro st;
                inheritWriter := inheritWriter st |};
      insertMoreArgs Redecl Args' st
  end.

(** The body of the loop over the redeclarations.  The diagnostic
    [note_decl_insert_macro_prevent] is reported once for each element of
    [UnnamedArgsInMacro], after the error; these notes are returned as a list
    of their own, in the order of their report, and [mDiags] holds the other
    diagnostics. *)
Definition inheritRedecl (Decls : DeclarationInfoMap)
    (Front : DIArg) (Rest : list DIArg) (Redecl : FunctionDecl)
    (st : WriterState * list (SourceLocation * string)) :
    option (WriterState * list (SourceLocation * string)) :=
  st1 ← insertArg Redecl Front
          {| Inherit := Str.pop_back (getPragmaText DvmInherit) +:+ "(";
             UnnamedArgsInMacro := [];
             inheritWriter := st.1 |};
  st2 ← insertMoreArgs Redecl Rest st1;
  let Text := Inherit st2 +:+ ")" +:+ Str.nl in
  let s :=
    match UnnamedArgsInMacro st2 with
    | [] => inheritWriter st2
    | _ :: _ =>
        toDiag err_apc_insert_dvm_directive (Some (F_getLocStart Redecl))
               (Some (Str.trim Text)) (inheritWriter st2)
    end in
  Some (insertDataDirective SM (F_getLocation Redecl) Decls
                            (F_getLocStart Redecl) Text s,
        st.2 ++ UnnamedArgsInMacro st2).

Fixpoint inheritRedecls (Decls : DeclarationInfoMap)
    (Front : DIArg) (Rest : list DIArg) (Redecls : list FunctionDecl)
    (st : WriterState * list (SourceLocation * string)) :
    option (WriterState * list (SourceLocation * string)) :=
  match Redecls with
  | [] => Some st
  | Redecl :: Redecls' =>
      st ← inheritRedecl Decls Front Rest Redecl st;
      inheritRedecls Decls Front Rest Redecls' st
  end.

(** [insertInherit]; [FD] is given by the chain
    [FD->getFirstDecl()->redecls()]. *)
Definition insertInherit (FD : list FunctionDecl)
    (Decls : DeclarationInfoMap) (InheritArgs : list DIArg)
    (s : WriterState) :
    option (WriterState * list (SourceLocation * string)) :=
  match InheritArgs with
  | [] => Some (s, [])
  | Front :: Rest => inheritRedecls Decls Front Rest FD (s, [])
  end.
End Inherit.

(** The names of a list with [Sep] between them. *)
Definition separatedBy (Sep : string) (Names : list string) : string :=
  match Names with
  | [] => EmptyString
  | Name :: Names' =>
      Name +:+ concat_strings (map (fun N => Sep +:+ N) Names')
  end.

(** The names under which a redeclaration lists the inherited arguments. *)
Definition parameterNames (Redecl : FunctionDecl) (Args : list DIArg) :
    list string :=
  omap (fun A => parmName <$> getParamDecl Redecl A) Args.

(** The argument refers to a parameter of the redeclaration that has a
    name. *)
Definition namedIn (Redecl : FunctionDecl) (A : DIArg) : Prop :=
  exists Param, getParamDecl Redecl A = Some Param /\
                parmName Param <> EmptyString.

(** A function with two pointer parameters declared at 62 in "a.c": the
    first parameter, at 70, is named A and the second, at 80, has no name.
    Both are inherited arguments. *)
Module DemoInherit.
Definition foo : FunctionDecl :=
  {| F_getLocation := 67; F_getLocStart := 62;
     parameters := [ {| parmName := "A"; parmLocation := 70 |};
                     {| parmName := EmptyString; parmLocation := 80 |} ] |}.
End DemoInherit.

(** ** The vocabulary of the statements about the ledger *)

(** Nothing that [s] holds is lost in [s']: every binding of a point to a
    directive and every transformed file is kept, and the insertions and the
    diagnostics of [s] are a prefix of those of [s']. *)
Definition ledgerGrows (s s' : WriterState) : Prop :=
  (forall W T, mInsertedDirs s !! W = Some T -> mInsertedDirs s' !! W = Some T) /\
  (forall F FID, mTransformedFiles s !! F = Some FID ->
                 mTransformedFiles s' !! F = Some FID) /\
  (exists new, mRewriter s' = mRewriter s ++ new) /\
  (exists new, mDiags s' = mDiags s ++ new).

(** Nothing is lost, and what the ledger gains was inserted. *)
Definition soundStep (s s' : WriterState) : Prop :=
  ledgerGrows s s' /\ bindingsInserted s s'.

(** Every binding of the ledger stands for an insertion: its file is recorded
    as transformed, and when the point is rewritable its text is among the
    texts inserted there. *)
Definition ledgerConsistent (SM : SourceManager) (s : WriterState) : Prop :=
  forall W T, mInsertedDirs s !! W = Some T ->
    is_Some (mTransformedFiles s !! getFilename SM W) /\
    (Loc.isFileID W = true -> T ∈ Rewriter.insertedAt (mRewriter s) W).


(** The ledger is left alone between [s] and [s']: the bindings of points to
    directives are the same, the transformed files are kept, the insertions
    and the diagnostics of [s] are a prefix of those of [s'], and none of the
    new diagnostics is [err_apc_insert_template]. *)
Definition ledgerUntouched (s s' : WriterState) : Prop :=
  mInsertedDirs s' = mInsertedDirs s /\
  (forall F FID, mTransformedFiles s !! F = Some FID ->
                 mTransformedFiles s' !! F = Some FID) /\
  (exists new, mRewriter s' = mRewriter s ++ new) /\
  (exists new, mDiags s' = mDiags s ++ new /\
     forall d, d ∈ new -> diag_kind d <> err_apc_insert_template).

(** The template of a rule is used in one of the files. *)
Definition usedInFiles (Templates : TemplateInFileUsage) (Tpl : N) : Prop :=
  exists FID Usage, (FID, Usage) ∈ Templates /\ is_Some (Usage !! Tpl).

(** A source manager with two representations of one file: the file "a.h" is
    loaded twice, as file 1 (locations 2..999) and as file 2 (locations from
    1000 on). *)
Module DemoTwice.
Definition fileOf (L : SourceLocation) : FileID :=
  if L <? 1000 then 1%Z else 2%Z.
Definition startOf (FID : FileID) : SourceLocation :=
  if (FID =? 1)%Z then 2 else 1000.
Definition SM : SourceManager := {|
  getFilename L := "a.h"%string;
  getFileID := fileOf;
  getDecomposedLoc L := (fileOf L, L - startOf (fileOf L));
  getLocForStartOfFile := startOf;
  getStartOfLine L :=
    startOf (fileOf L) + ((L - startOf (fileOf L)) / 10) * 10;
  isIncludeFile FID := true;
  preambleSize FID := 20
|}.
End DemoTwice.

(** ** The vocabulary of the statements about the diagnostics of the engine *)

(** The loop is one whose dependences the engine looks at, it has
    dependences, and its step is not a constant: the direction of the
    dependences is unknown. *)
Definition directionUnknown (L : LoopFacts) (PI : option PragmaParallel) :
    Prop :=
  qualifies L /\
  (forall P, PI = Some P -> matchesItem L P) /\
  D_Dependence (ASTDepInfo L) <> [] /\
  Canonical L = Some None.

(** The loop over j of the examples with the dependence of scenario C and a
    step that is not a constant. *)
Module DemoSteps.
Definition innerUnknownStep : LoopFacts :=
  {| LoopID := 20; Header := 21; ExitingBlock := 21; RegionBeginLoc := 120;
     ASTDepInfo := DemoLoops.depInfo "j" ∅ DemoLoops.scenarioC;
     Localized := true; HostOnly := false; Perfect := true; NumRegions := 1;
     Canonical := Some None |}.
End DemoSteps.

(** ** tsar_dbg_output.cpp: [printLoops] *)

(** A loop of [LoopInfo]: the text that [DebugLoc::print] gives for its start
    location, and its sub-loops in the order of the reverse iteration, from
    [rbegin()] to [rend()]. *)
#[warnings="-register-all"]
Inductive Loop := mkLoop (StartLoc : string) (SubLoops : list Loop).

Definition tab : string := String (ascii_of_nat 9) EmptyString.

(** The loop [for (; ReverseI != ReverseEI; --ReverseEI)] of the static
    [printLoops]: [ReverseI] stays where it is and [ReverseEI] steps towards
    it, so the body runs once for each position between them, each time on
    [*ReverseI]; [Body] is what one run writes and [Distance] the number of
    positions. *)
Fixpoint printRange (Body : string) (Distance : nat) : string :=
  match Distance with
  | O => EmptyString
  | S Distance' => Body +:+ printRange Body Distance'
  end.

(** What one run of the body writes for [*ReverseI]: the line of the loop and
    the text of the recursive call on its sub-loops. *)
Fixpoint printLoop (Offset : string) (L : Loop) {struct L} : string :=
  match L with
  | mkLoop StartLoc SubLoops =>
      (Offset +:+ "- ") +:+ StartLoc +:+ Str.nl +:+
      match SubLoops with
      | [] => EmptyString
      | ReverseI :: _ =>
          printRange (printLoop (Offset +:+ tab) ReverseI) (length SubLoops)
      end
  end.

(** The static [printLoops] on a range of loops, and [printLoops(o, LI)]. *)
Definition printLoopsFrom (Offset : string) (Loops : list Loop) : string :=
  match Loops with
  | [] => EmptyString
  | ReverseI :: _ => printRange (printLoop Offset ReverseI) (length Loops)
  end.

Definition printLoops (LI : list Loop) : string := printLoopsFrom EmptyString LI.

(** Two loops agree on what is first: they start at the same place, have the
    same number of sub-loops, and their first sub-loops agree in the same
    way. *)
Inductive sameFirst : Loop -> Loop -> Prop :=
| sameFirst_leaf StartLoc :
    sameFirst (mkLoop StartLoc []) (mkLoop StartLoc [])
| sameFirst_node StartLoc First First' Rest Rest' :
    sameFirst First First' -> length Rest = length Rest' ->
    sameFirst (mkLoop StartLoc (First :: Rest))
              (mkLoop StartLoc (First' :: Rest')).

(** ** DVMHSMAutoPar.cpp: [optimizeLevelImpl] *)

(** The clause [trait::DirectAccess]: for each array (by its metadata node)
    one pair per dimension, the loop that the dimension is tied to (0 for a
    null pointer) and whether the coefficient is not negative. *)
Abbreviation DirectAccessMap := (gmap N (list (ObjectID * bool))).

Definition subscriptDimension (Sub : DISubscript) : nat :=
  match Sub with
  | DIAffineSubscript Dimension _ => Dimension
  | DIOtherSubscript Dimension => Dimension
  end.

(** The loop over the monoms of an affine subscript. *)
Fixpoint mapMonoms (Induction : list ObjectID) (Dimension : nat)
    (Monoms : list Monom) (Mapping : list (ObjectID * bool)) :
    list (ObjectID * bool) :=
  match Monoms with
  | [] => Mapping
  | M :: Monoms' =>
      if (Value M =? 0)%Z then mapMonoms Induction Dimension Monoms' Mapping
      else if bool_decide (Column M ∈ Induction) then
        mapMonoms Induction Dimension Monoms'
                  (<[Dimension := (Column M, negb (Value M <? 0)%Z)]> Mapping)
      else mapMonoms Induction Dimension Monoms' Mapping
  end.

(** The body of the loop over the subscripts of an access; reading
    [MappingItr->second[Dimension]] past the end of the vector is the
    undefined case. *)
Definition mapSubscript (Induction : list ObjectID)
    (Subscript : option DISubscript) (Mapping : list (ObjectID * bool)) :
    option (list (ObjectID * bool)) :=
  match Subscript with
  | None => Some Mapping
  | Some Sub =>
      Tie ← Mapping !! subscriptDimension Sub;
      if negb (Tie.1 =? 0) then Some Mapping
      else
        match Sub with
        | DIAffineSubscript Dimension Monoms =>
            Some (mapMonoms Induction Dimension Monoms Mapping)
        | DIOtherSubscript _ => Some Mapping
        end
  end.

Fixpoint mapSubscripts (Induction : list ObjectID)
    (Subs : list (option DISubscript)) (Mapping : list (ObjectID * bool)) :
    option (list (ObjectID * bool)) :=
  match Subs with
  | [] => Some Mapping
  | Sub :: Subs' =>
      Mapping ← mapSubscript Induction Sub Mapping;
      mapSubscripts Induction Subs' Mapping
  end.

(** The body of the loop over the accesses of the scope of the loop. *)
Definition mapAccess (Induction : list ObjectID) (Access : ArrayAccess)
    (DirectAccess : DirectAccessMap) : option DirectAccessMap :=
  match estimateVar (getArray Access) with
  | None => Some DirectAccess
  | Some _ =>
      let Key := memID (getArray Access) in
      let DirectAccess :=
        try_emplace Key (replicate (length (Subscripts Access)) (0, true))
                    DirectAccess in
      Mapping ← DirectAccess !! Key;
      Mapping ← mapSubscripts Induction (Subscripts Access) Mapping;
      Some (<[Key := Mapping]> DirectAccess)
  end.

Fixpoint mapAccesses (Induction : list ObjectID)
    (Accesses : list ArrayAccess) (DirectAccess : DirectAccessMap) :
    option DirectAccessMap :=
  match Accesses with
  | [] => Some DirectAccess
  | Access :: Accesses' =>
      DirectAccess ← mapAccess Induction Access DirectAccess;
      mapAccesses Induction Accesses' DirectAccess
  end.

(** The body of the loop of [optimizeLevelImpl] for the loop [ID] with the
    header [Header], once its parallel item has been found: the item has the
    induction sequence [Induction] and the clause [DirectAccess].  The three
    [continue] of the search leave the clause as it is. *)
Definition optimizeLoop (AI : DIArrayAccessInfo) (Info : Parallelization)
    (ID : ObjectID) (Header : N) (Induction : list ObjectID)
    (DirectAccess : DirectAccessMap) : option DirectAccessMap :=
  if ID =? 0 then Some DirectAccess
  else
    match Info !! Header with
    | None => Some DirectAccess
    | Some PLocs =>
        match List.find (fun PL => Anchor PL =? ID) PLocs with
        | None => Some DirectAccess
        | Some PL =>
            if existsb (fun PI => match PI with
                                  | ItemParallel => true
                                  | _ => false
                                  end) (Entry PL)
            then mapAccesses Induction (scope_accesses AI ID) DirectAccess
            else Some DirectAccess
        end
    end.

(** The ties of a clause name loops of the induction sequence only. *)
Definition tiesWithin (Induction : list ObjectID)
    (DirectAccess : DirectAccessMap) : Prop :=
  forall Array Mapping Dim Tie,
    DirectAccess !! Array = Some Mapping -> Mapping !! Dim = Some Tie ->
    Tie.1 <> 0 -> Tie.1 ∈ Induction.

(** Every tie of [DA] is a tie of [DA'], and the vectors keep their
    lengths. *)
Definition tiesKept (DA DA' : DirectAccessMap) : Prop :=
  forall Array Mapping,
    DA !! Array = Some Mapping ->
    exists Mapping',
      DA' !! Array = Some Mapping' /\ length Mapping' = length Mapping /\
      forall Dim Tie, Mapping !! Dim = Some Tie -> Tie.1 <> 0 ->
                      Mapping' !! Dim = Some Tie.

(** ** The vocabulary of the statements about a nest *)

(** The number of loops of an item, 0 when there is none. *)
Definition inductionCount (PI : option PragmaParallel) : N :=
  match PI with
  | Some P => N.of_nat (length (P_Induction P))
  | None => 0
  end.

(** A run of the engine along the loops of a nest, from the outermost loop
    in: every call receives the item that the call before returned, and an
    item is handed on only while it is open. *)
Inductive nestSteps (BitWidth : N) (AccessInfo : option DIArrayAccessInfo) :
    option PragmaParallel -> EngineState -> list LoopFacts ->
    option PragmaParallel -> EngineState -> Prop :=
| nestSteps_nil PI E : nestSteps BitWidth AccessInfo PI E [] PI E
| nestSteps_cons PI E L PI1 E1 Ls PI2 E2 :
    (forall P, PI = Some P -> isFinal P = false) ->
    exploitParallelism BitWidth AccessInfo L PI E = Some (PI1, E1) ->
    nestSteps BitWidth AccessInfo PI1 E1 Ls PI2 E2 ->
    nestSteps BitWidth AccessInfo PI E (L :: Ls) PI2 E2.

(** A nest with dependences of known distances: the loop over i carries a
    flow dependence on A with the distance 1 in its own level and 0 in the
    level below, the loop over j a flow dependence of distance 1 and an anti
    dependence of distance 2. *)
Module DemoAcrossNest.
Import DemoLoops.

Definition outer : LoopFacts :=
  loop 10 1
    (depInfo "i" {["j"%string]}
       [("A"%string, {| Flow := [(Some 1%Z, Some 1%Z); (Some 0%Z, Some 0%Z)];
                        Anti := [] |})]).
Definition inner : LoopFacts := loop 20 1 (depInfo "j" ∅ scenarioC).
End DemoAcrossNest.

(** ** DVMHSMAutoPar.cpp: [addParallelMapping] *)

Section Mapping.
(** The name of the variable of the estimate memory that the alias tree has
    for a metadata node; [None] when the node is not found or is not an
    estimate memory (the [cast] fails). *)
Variable arrayName : N -> option string.

(** "[" ["-"] name "]" for one dimension; [find_if(...)->second] on a loop
    that is not among [Inductions] is the undefined case. *)
Definition tieText (Inductions : list (ObjectID * string))
    (Map : ObjectID * bool) : option string :=
  if Map.1 =? 0 then Some "[]"%string
  else
    LToI ← List.find (fun LToI : ObjectID * string => LToI.1 =? Map.1)
                     Inductions;
    Some ("[" +:+ (if Map.2 then EmptyString else "-") +:+ LToI.2 +:+ "]").

(** The text of one array of the clause. *)
Definition mappingText (Inductions : list (ObjectID * string))
    (Mapping : N * list (ObjectID * bool)) : option string :=
  Name ← arrayName Mapping.1;
  Dims ← mapM (tieText Inductions) Mapping.2;
  Some (Name +:+ concat_strings Dims).

(** [addParallelMapping]; [Inductions] is the result of
    [getBaseInductionsForNest].  The texts of the arrays go to a sorted set,
    so the order in which the clause is iterated does not matter. *)
Definition addParallelMapping (Inductions : list (ObjectID * string))
    (DirectAccess : DirectAccessMap) (PragmaStr : string) : option string :=
  let PragmaStr :=
    PragmaStr +:+ "(" +:+
    concat_strings (map (fun LToI : ObjectID * string =>
                           "[" +:+ LToI.2 +:+ "]") Inductions) +:+ ")" in
  MappingStr ← mapM (mappingText Inductions) (map_to_list DirectAccess);
  Pragma.addVarList (list_to_set MappingStr) (PragmaStr +:+ " tie").
End Mapping.

(** ** ServerUtils.cpp: the search for compile units *)

(** An operand of a metadata node: a null pointer, a metadata node, or a
    metadata that is not a node. *)
Inductive Operand := OpNull | OpNode (MD : N) | OpOther.

(** The metadata of a module: the operands of every node and which nodes are
    [DICompileUnit]s. *)
Record MDGraph := {
  md_operands : N -> list Operand;
  isCompileUnit : N -> bool
}.

(** [DICompileUnitSearch]. *)
Record DICompileUnitSearch := {
  MDNodes : gset N;
  CUs : list N
}.

Section Search.
Variable G : MDGraph.

(** The loop over the operands in [visitMDNode]; [visit] is the recursive
    call. *)
Definition visitOperands
    (visit : N -> DICompileUnitSearch -> option DICompileUnitSearch) :
    list Operand -> DICompileUnitSearch -> option DICompileUnitSearch :=
  fix go (Ops : list Operand) (St : DICompileUnitSearch) :=
    match Ops with
    | [] => Some St
    | OpNode Op :: Ops' =>
        let St :=
          if isCompileUnit G Op
          then {| MDNodes := MDNodes St; CUs := CUs St ++ [Op] |}
          else St in
        St ← visit Op St;
        go Ops' St
    | _ :: Ops' => go Ops' St
    end.

(** [visitMDNode]; [fuel] bounds the depth of the recursion. *)
Fixpoint visitMDNode (fuel : nat) (MD : N) (St : DICompileUnitSearch) :
    option DICompileUnitSearch :=
  match fuel with
  | O => None
  | S fuel' =>
      if decide (MD ∈ MDNodes St) then Some St
      else visitOperands (visitMDNode fuel') (md_operands G MD)
             {| MDNodes := {[MD]} ∪ MDNodes St; CUs := CUs St |}
  end.

(** The loop of [initializeServer] over the metadata attached to the
    functions of the server module. *)
Fixpoint visitRoots (fuel : nat) (Roots : list N)
    (St : DICompileUnitSearch) : option DICompileUnitSearch :=
  match Roots with
  | [] => Some St
  | MD :: Roots' =>
      St ← visitMDNode fuel MD St;
      visitRoots fuel Roots' St
  end.

(** The loop over [Search.CUs]: a compile unit is added to the operands of
    "llvm.dbg.cu" when [Visited.insert] finds it new. *)
Fixpoint addCompileUnits (Found : list N) (Visited : gset N)
    (Operands : list N) : list N :=
  match Found with
  | [] => Operands
  | CU :: Found' =>
      if decide (CU ∈ Visited) then addCompileUnits Found' Visited Operands
      else addCompileUnits Found' ({[CU]} ∪ Visited) (Operands ++ [CU])
  end.

(** The first part of [initializeServer]: the operands of "llvm.dbg.cu"
    after the call, with the nodes the search has visited. *)
Definition initializeServerCUs (fuel : nat) (Roots : list N)
    (ServerCUs : list N) : option (gset N * list N) :=
  Search ← visitRoots fuel Roots {| MDNodes := ∅; CUs := [] |};
  Some (MDNodes Search,
        addCompileUnits (CUs Search) (list_to_set ServerCUs) ServerCUs).

(** What a part of the search does between two of its states, inside the
    nodes [U]: the visited nodes and the compile units found only grow, the
    new nodes are nodes of [U], what is found is a compile unit, and every
    node visited in between has all its operands visited and its compile
    units found. *)
Definition searchStep (U : gset N) (St St' : DICompileUnitSearch) : Prop :=
  MDNodes St ⊆ MDNodes St' /\
  MDNodes St' ⊆ U ∪ MDNodes St /\
  (exists new, CUs St' = CUs St ++ new /\
     forall CU, CU ∈ new -> isCompileUnit G CU = true) /\
  forall MD, MD ∈ MDNodes St' -> MD ∉ MDNodes St ->
    forall Op, OpNode Op ∈ md_operands G MD ->
      Op ∈ MDNodes St' /\ (isCompileUnit G Op = true -> Op ∈ CUs St').
End Search.

(** * Properties *)

(** ** Properties of [MergedLocations] *)

Section MergedLocationsFacts.
Import MergedLocations.

Lemma make_wf ToLocs : wf (make ToLocs).
Proof.
  unfold wf, make.
  induction ToLocs as [|L Ls IH]; simpl; constructor; try discriminate; auto.
Qed.

Lemma push_back_wf m Ls m' : wf m -> push_back m Ls = Some m' -> wf m'.
Proof.
  unfold wf. revert m m'. induction Ls as [|L Ls IH]; intros m m' Hwf H.
  - destruct m; simpl in H; inversion H; subst; auto.
  - destruct m as [|Locs rest]; simpl in H; [discriminate|].
    destruct (push_back rest Ls) as [rest'|] eqn:E; simpl in H; [|discriminate].
    inversion H; subst. inversion Hwf; subst. constructor.
    + destruct Locs; discriminate.
    + eapply IH; eauto.
Qed.

Lemma originals_cons L0 X rest :
  originals ((L0 :: X) :: rest) = L0 :: originals rest.
Proof. reflexivity. Qed.

Lemma make_originals ToLocs : originals (make ToLocs) = ToLocs.
Proof.
  induction ToLocs as [|L Ls IH]; [done|].
  change (make (L :: Ls)) with ([L] :: make Ls).
  by rewrite originals_cons, IH.
Qed.

Lemma push_back_originals m Ls m' :
  wf m -> push_back m Ls = Some m' -> originals m' = originals m.
Proof.
  unfold wf. revert m m'.
  induction Ls as [|L Ls IH]; intros m m' Hwf H.
  - destruct m; simpl in H; inversion H; subst; auto.
  - destruct m as [|Locs rest]; simpl in H; [discriminate|].
    destruct (push_back rest Ls) as [rest'|] eqn:E; simpl in H; [|discriminate].
    inversion H; subst. inversion Hwf; subst.
    destruct Locs as [|L0 X]; [done|].
    change ((L0 :: X) ++ [L]) with (L0 :: (X ++ [L])).
    rewrite !originals_cons. f_equal. by apply IH.
Qed.

Lemma find_Some m Loc Locs :
  find m Loc = Some Locs -> Locs ∈ m /\ head Locs = Some Loc.
Proof.
  induction m as [|X rest IH]; simpl; [discriminate|].
  destruct X as [|L0 X']; [discriminate|].
  destruct (N.eqb_spec L0 Loc) as [->|Hne]; intros H.
  - inversion H; subst. split; [left|reflexivity].
  - destruct (IH H) as [Hin Hh]. split; [by right|done].
Qed.

Lemma find_None m Loc :
  wf m -> find m Loc = None <-> Loc ∉ originals m.
Proof.
  unfold wf. induction m as [|X rest IH]; intros Hwf.
  - split; [intros _; apply not_elem_of_nil|done].
  - inversion Hwf as [|? ? HX Hrest]; subst.
    destruct X as [|L0 X']; [done|].
    rewrite originals_cons, not_elem_of_cons. simpl.
    destruct (N.eqb_spec L0 Loc) as [->|Hne].
    + split; [discriminate|]. intros [H _]. by exfalso.
    + rewrite IH by done. split; [by split|by intros [_ ?]].
Qed.
End MergedLocationsFacts.

(** C10.  [find] produces a list exactly when [Loc] is the original (index 0)
    location of a stored list, and then it is such a list; for every other
    location the body ends without a [return], the undefined case. *)
Theorem MergedLocations_find_defined_iff_original
    (m : MergedLocations.t) (Loc : SourceLocation) :
  MergedLocations.wf m ->
  (is_Some (MergedLocations.find m Loc) <-> Loc ∈ MergedLocations.originals m) /\
  (Loc ∉ MergedLocations.originals m -> MergedLocations.find m Loc = None) /\
  (forall Locs, MergedLocations.find m Loc = Some Locs ->
     Locs ∈ m /\ head Locs = Some Loc).
Proof.
  intros Hwf. split; [|split].
  - rewrite <- not_eq_None_Some, find_None by done.
    split; [|tauto]. intros H.
    destruct (decide (Loc ∈ MergedLocations.originals m)); tauto.
  - by intros H; apply find_None.
  - intros Locs. apply find_Some.
Qed.

Lemma MergedLocations_find_defined_iff_original_witness :
  (is_Some (MergedLocations.find [[5; 9]; [7; 11]] 7) <->
     7 ∈ MergedLocations.originals [[5; 9]; [7; 11]]) /\
  (9 ∉ MergedLocations.originals [[5; 9]; [7; 11]] ->
     MergedLocations.find [[5; 9]; [7; 11]] 9 = None).
Proof.
  split.
  - apply (MergedLocations_find_defined_iff_original [[5; 9]; [7; 11]] 7).
    repeat constructor; discriminate.
  - apply (MergedLocations_find_defined_iff_original [[5; 9]; [7; 11]] 9).
    repeat constructor; discriminate.
Defined.

(** ** The insertion ledger *)

Section LedgerFacts.
Variable SM : SourceManager.

Lemma try_emplace_lookup_Some `{Countable K} {V} (m : gmap K V) k v k' v' :
  m !! k = Some v -> try_emplace k' v' m !! k = Some v.
Proof.
  intros Hk. unfold try_emplace. destruct (m !! k') eqn:E; [done|].
  rewrite lookup_insert_ne; [done|]. intros ->. congruence.
Qed.

Lemma try_emplace_lookup_None `{Countable K} {V} (m : gmap K V) k v :
  m !! k = None -> try_emplace k v m !! k = Some v.
Proof.
  intros Hk. unfold try_emplace. rewrite Hk. apply lookup_insert_eq.
Qed.

Lemma try_emplace_id `{Countable K} {V} (m : gmap K V) k v v' :
  m !! k = Some v -> try_emplace k v' m = m.
Proof. intros Hk. unfold try_emplace. by rewrite Hk. Qed.

Lemma performInsertion_files s W DirStr :
  mTransformedFiles (performInsertion SM W DirStr s) =
  try_emplace (getFilename SM W) (getFileID SM W) (mTransformedFiles s).
Proof.
  unfold performInsertion. by destruct (negb (W =? getStartOfLine SM W)).
Qed.

Lemma performInsertion_inserted s W DirStr :
  mInsertedDirs (performInsertion SM W DirStr s) =
  try_emplace W DirStr (mInsertedDirs s).
Proof.
  unfold performInsertion. by destruct (negb (W =? getStartOfLine SM W)).
Qed.

Lemma performInsertion_diags s W DirStr :
  mDiags (performInsertion SM W DirStr s) = mDiags s.
Proof.
  unfold performInsertion. by destruct (negb (W =? getStartOfLine SM W)).
Qed.

(** After an insertion at the resolved point of [L], the point [L] resolves
    to the same place. *)
Lemma resolve_after_insertion s L DirStr :
  decomposes SM L ->
  let W := getLocationToTransform SM s L in
  getLocationToTransform SM (performInsertion SM W DirStr s) L = W.
Proof.
  intros Hdec W. subst W. unfold getLocationToTransform at 1.
  rewrite performInsertion_files. unfold getLocationToTransform.
  destruct (mTransformedFiles s !! getFilename SM L) as [FID|] eqn:E.
  - by rewrite (try_emplace_lookup_Some _ _ FID).
  - by rewrite try_emplace_lookup_None.
Qed.

Lemma performInsertion_dirs s W DirStr :
  mInsertedDirs s !! W = None ->
  mInsertedDirs (performInsertion SM W DirStr s) !! W = Some DirStr.
Proof.
  intros H. rewrite performInsertion_inserted.
  by apply try_emplace_lookup_None.
Qed.

(** The text at the insertion point after [performInsertion]: the directive,
    after a line break unless the point starts a line, before what was
    there. *)
Lemma performInsertion_edits s W DirStr :
  Loc.isFileID W = true ->
  mRewriter (performInsertion SM W DirStr s) =
    mRewriter s ++ Build_Edit W DirStr false ::
      (if negb (W =? getStartOfLine SM W)
       then [Build_Edit W Str.nl false] else []).
Proof.
  intros HW. unfold performInsertion.
  destruct (negb (W =? getStartOfLine SM W));
    cbn [mRewriter rewrite recordFile recordDir];
    unfold Rewriter.InsertTextBefore, Rewriter.InsertText; rewrite HW;
    [by rewrite <- app_assoc | done].
Qed.

(** The text at the insertion point after [performInsertion]: the directive,
    after a line break unless the point starts a line, before what was
    there. *)
Lemma performInsertion_text s W DirStr :
  Loc.isFileID W = true ->
  Rewriter.textAt (mRewriter (performInsertion SM W DirStr s)) W =
    (if negb (W =? getStartOfLine SM W) then Str.nl else EmptyString)
      +:+ DirStr +:+ Rewriter.textAt (mRewriter s) W.
Proof.
  intros HW. rewrite performInsertion_edits by done.
  unfold Rewriter.textAt. rewrite fold_left_app.
  destruct (negb (W =? getStartOfLine SM W)); simpl;
    unfold Rewriter.applyEdit; simpl; rewrite N.eqb_refl; reflexivity.
Qed.

(** lib/APC/DVMHWriter.cpp: a binding with the same text makes the call
    return at once. *)
Lemma insertDirective_same_text s L DirStr :
  mInsertedDirs s !! getLocationToTransform SM s L = Some DirStr ->
  DVMHWriter.insertDirective SM L DirStr s = s.
Proof.
  intros H. unfold DVMHWriter.insertDirective. simpl. rewrite H.
  by rewrite String.eqb_refl.
Qed.

(** lib/APC/DVMHWriter.cpp: the second of two equal calls is a no-op. *)
Lemma insertDirective_idempotent s L DirStr :
  decomposes SM L ->
  mInsertedDirs s !! getLocationToTransform SM s L = None ->
  DVMHWriter.insertDirective SM L DirStr
    (DVMHWriter.insertDirective SM L DirStr s) =
  DVMHWriter.insertDirective SM L DirStr s.
Proof.
  intros Hdec Hnone.
  assert (E : DVMHWriter.insertDirective SM L DirStr s =
              performInsertion SM (getLocationToTransform SM s L) DirStr s).
  { unfold DVMHWriter.insertDirective. simpl. by rewrite Hnone. }
  rewrite E. apply insertDirective_same_text.
  rewrite resolve_after_insertion by done.
  by apply performInsertion_dirs.
Qed.
(** lib/APC/DVMHWriter.cpp: of two different texts inserted at a fresh point
    the first one stays in the buffer, the second one is not applied. *)
Lemma insertDirective_first_text_stays s L T1 T2 :
  decomposes SM L ->
  mInsertedDirs s !! getLocationToTransform SM s L = None ->
  Loc.isFileID (getLocationToTransform SM s L) = true ->
  T1 <> T2 ->
  let W := getLocationToTransform SM s L in
  let s1 := DVMHWriter.insertDirective SM L T1 s in
  let s2 := DVMHWriter.insertDirective SM L T2 s1 in
  mRewriter s2 = mRewriter s1 /\
  Rewriter.textAt (mRewriter s2) W =
    (if negb (W =? getStartOfLine SM W) then Str.nl else EmptyString)
      +:+ T1 +:+ Rewriter.textAt (mRewriter s) W.
Proof.
  intros Hdec Hnone HW Hne W s1 s2.
  assert (E1 : s1 = performInsertion SM W T1 s).
  { subst s1 W. unfold DVMHWriter.insertDirective. simpl. by rewrite Hnone. }
  assert (HW1 : getLocationToTransform SM s1 L = W).
  { rewrite E1. by apply resolve_after_insertion. }
  assert (Hb : mInsertedDirs s1 !! W = Some T1).
  { rewrite E1. by apply performInsertion_dirs. }
  assert (E2 : s2 = diagnoseMultiple W T2 s1).
  { subst s2. unfold DVMHWriter.insertDirective. simpl. rewrite HW1, Hb.
    assert (Hneq : String.eqb T1 T2 = false) by by apply String.eqb_neq.
    by rewrite Hneq. }
  split; [by rewrite E2|].
  rewrite E2. simpl. rewrite E1. by apply performInsertion_text.
Qed.
End LedgerFacts.

(** C1.  In both revisions: when the ledger binds the resolved point of [L] to
    a text [T1], inserting a different text [T2] at [L] leaves the rewritten
    text, the binding and the file list as they were, and reports
    [err_apc_insert_dvm_directive] with the (trimmed) text [T2] followed by
    [note_apc_insert_multiple_directives], both at the resolved point. *)
Theorem insertDirective_conflict_rejected
    (SM : SourceManager) (s s' : WriterState) (L : SourceLocation)
    (T1 T2 : string) :
  mInsertedDirs s !! getLocationToTransform SM s L = Some T1 ->
  T1 <> T2 ->
  s' = DVMHWriter.insertDirective SM L T2 s \/
  s' = DVMHWriterRev0.insertDirective SM L T2 s ->
  mRewriter s' = mRewriter s /\
  mInsertedDirs s' = mInsertedDirs s /\
  mInsertedDirs s' !! getLocationToTransform SM s L = Some T1 /\
  mTransformedFiles s' = mTransformedFiles s /\
  mDiags s' = mDiags s ++
    [Diag err_apc_insert_dvm_directive
          (Some (getLocationToTransform SM s L)) (Some (Str.trim T2));
     Diag note_apc_insert_multiple_directives
          (Some (getLocationToTransform SM s L)) None].
Proof.
  intros Hb Hne Hs'.
  assert (Hneq : String.eqb T1 T2 = false) by by apply String.eqb_neq.
  assert (E : s' = diagnoseMultiple (getLocationToTransform SM s L) T2 s).
  { destruct Hs' as [-> | ->].
    - unfold DVMHWriter.insertDirective. simpl. by rewrite Hb, Hneq.
    - unfold DVMHWriterRev0.insertDirective. simpl. by rewrite Hb, Hneq. }
  subst s'. simpl. rewrite <- app_assoc. done.
Qed.

Lemma insertDirective_conflict_rejected_witness :
  let s := DVMHWriter.insertDirective Demo.SM 45 "#pragma dvm array"
             releaseMemory in
  let s' := DVMHWriter.insertDirective Demo.SM 45 "#pragma dvm align" s in
  mRewriter s' = mRewriter s /\
  mInsertedDirs s' = mInsertedDirs s /\
  mInsertedDirs s' !! getLocationToTransform Demo.SM s 45 =
    Some "#pragma dvm array"%string /\
  mTransformedFiles s' = mTransformedFiles s /\
  mDiags s' = mDiags s ++
    [Diag err_apc_insert_dvm_directive
          (Some (getLocationToTransform Demo.SM s 45))
          (Some (Str.trim "#pragma dvm align"));
     Diag note_apc_insert_multiple_directives
          (Some (getLocationToTransform Demo.SM s 45)) None].
Proof.
  intros s s'.
  apply (insertDirective_conflict_rejected Demo.SM s s' 45
           "#pragma dvm array" "#pragma dvm align").
  - vm_compute. reflexivity.
  - discriminate.
  - left. reflexivity.
Defined.

(** The other revision inserts again when the ledger already binds the point
    to the same text: its test lets that case through to the insertion. *)
Lemma insertDirective_rev0_same_text (SM : SourceManager) s L DirStr :
  mInsertedDirs s !! getLocationToTransform SM s L = Some DirStr ->
  DVMHWriterRev0.insertDirective SM L DirStr s =
  performInsertion SM (getLocationToTransform SM s L) DirStr s.
Proof.
  intros H. unfold DVMHWriterRev0.insertDirective. simpl.
  by rewrite H, String.eqb_refl.
Qed.

(** C2, the other revision of DVMHWriter.cpp at a concrete input: with an
    empty ledger, two calls with the text "#pragma dvm array" at the line
    start 42 of "a.c" make two insertions; the buffer holds the text twice
    and the second call is not a no-op. *)
Theorem insertDirective_rev0_inserts_same_text_twice :
  let T := ("#pragma dvm array" +:+ Str.nl)%string in
  let s1 := DVMHWriterRev0.insertDirective Demo.SM 42 T releaseMemory in
  let s2 := DVMHWriterRev0.insertDirective Demo.SM 42 T s1 in
  Rewriter.insertedAt (mRewriter s1) 42 = [T] /\
  Rewriter.insertedAt (mRewriter s2) 42 = [T; T] /\
  Rewriter.textAt (mRewriter s2) 42 = (T +:+ T)%string /\
  mDiags s2 = [] /\
  s2 <> s1.
Proof.
  vm_compute. repeat split; try reflexivity. discriminate.
Qed.

(** lib/APC/DVMHWriter.cpp on the same input: one insertion, and the second
    call returns the state unchanged. *)
Example insertDirective_same_text_twice_once :
  let T := ("#pragma dvm array" +:+ Str.nl)%string in
  let s1 := DVMHWriter.insertDirective Demo.SM 42 T releaseMemory in
  let s2 := DVMHWriter.insertDirective Demo.SM 42 T s1 in
  Rewriter.insertedAt (mRewriter s2) 42 = [T] /\ s2 = s1.
Proof. vm_compute. split; reflexivity. Qed.

(** ** The placement of templates *)

(** C4, at a concrete input: the arrays B, defined in the main file "a.c",
    and C, defined in the main file "c.c", are aligned with the template T.
    [insertAlignAndCollectTpl] records T as used in both files, with
    [HasDefinition] false in each entry.  The flag that [insertDistibution]
    tests for "extern" is the one of the entry of the current file, so both
    files receive the definition "void *T;" and no file receives an "extern"
    declaration. *)
Theorem insertDistibution_defines_template_in_each_file :
  exists Templates s1 Templates' s2,
    (DemoAlign.insertAlignAndCollectTpl DemoAlign.B DemoAlign.AR
       ([], releaseMemory)
     ≫= DemoAlign.insertAlignAndCollectTpl DemoAlign.C DemoAlign.AR)
    = Some (Templates, s1) /\
    Templates = [(1%Z, {[7 := false]}); (3%Z, {[7 := false]})] /\
    insertDistibution Demo.SM DemoPragma.getPragmaText [0%nat]
      DemoPragma.DataDirs Templates s1 = Some (Templates', s2) /\
    Rewriter.insertedAt (mRewriter s2) 22 = [DemoPragma.definitionOfT] /\
    Rewriter.insertedAt (mRewriter s2) 2020 = [DemoPragma.definitionOfT] /\
    map edit_loc (mRewriter s2) = [62; 2060; 22; 2020] /\
    mDiags s2 = [].
Proof.
  eexists _, _, _, _. split; [vm_compute; reflexivity|].
  split; [vm_compute; reflexivity|].
  split; [vm_compute; reflexivity|].
  repeat split; vm_compute; reflexivity.
Qed.

(** C5, at a concrete input: the template T is used in the include file 2.
    The two diagnostics are reported and the declaration is inserted all the
    same, at the end of the preamble of the include file. *)
Theorem insertDistibution_inserts_into_include_file :
  exists Templates' s',
    insertDistibution Demo.SM DemoPragma.getPragmaText [0%nat]
      DemoPragma.DataDirs [(2%Z, {[7 := false]})] releaseMemory
    = Some (Templates', s') /\
    Demo.SM.(isIncludeFile) 2%Z = true /\
    mDiags s' =
      [ Diag err_apc_insert_dvm_directive (Some 1020)
             (Some "#pragma dvm template [100] distribute [block]"%string);
        Diag note_apc_insert_include_prevent (Some 1020) None ] /\
    mRewriter s' =
      [ {| edit_loc := 1020; edit_text := DemoPragma.definitionOfT;
           edit_after := false |} ].
Proof.
  eexists _, _. split; [vm_compute; reflexivity|]. repeat split; reflexivity.
Qed.

(** ** What [insertAlignment] inserts *)

Arguments insertForRedecl : simpl never.
Arguments insertDataDirective : simpl never.

Section AlignmentFacts.
Variable SM : SourceManager.
Variable getPragmaText : PragmaId -> string.
Variable extractTplDimsAlignmentIndexes : AlignRule -> list nat.
Variable genStringExpr : string -> Z * Z -> string.

Lemma extends_by_same P s s' :
  mRewriter s' = mRewriter s -> extends_by P s s'.
Proof. intros E. exists []. by rewrite app_nil_r. Qed.

Lemma extends_by_refl P s : extends_by P s s.
Proof. by apply extends_by_same. Qed.

Lemma extends_by_trans P s1 s2 s3 :
  extends_by P s1 s2 -> extends_by P s2 s3 -> extends_by P s1 s3.
Proof.
  intros [n1 [E1 F1]] [n2 [E2 F2]]. exists (n1 ++ n2). split.
  - by rewrite E2, E1, app_assoc.
  - by apply Forall_app.
Qed.

Lemma performInsertion_extends s W DirStr :
  extends_by (directive_or_break DirStr) s (performInsertion SM W DirStr s).
Proof.
  unfold performInsertion, extends_by.
  destruct (negb (W =? getStartOfLine SM W));
    cbn [mRewriter rewrite recordFile recordDir];
    unfold Rewriter.InsertTextBefore, Rewriter.InsertText;
    destruct (Loc.isFileID W).
  - eexists [_; _]. rewrite <- app_assoc. split; [reflexivity|].
    constructor; [by left|]. constructor; [by right|]. constructor.
  - exists []. by rewrite app_nil_r.
  - eexists [_]. split; [reflexivity|].
    constructor; [by left|]. constructor.
  - exists []. by rewrite app_nil_r.
Qed.

Lemma insertDirective_extends s L DirStr :
  extends_by (directive_or_break DirStr) s
             (DVMHWriter.insertDirective SM L DirStr s).
Proof.
  unfold DVMHWriter.insertDirective. cbv zeta.
  destruct (mInsertedDirs s !! getLocationToTransform SM s L) as [Prev|].
  - destruct (String.eqb Prev DirStr); by apply extends_by_same.
  - apply performInsertion_extends.
Qed.

Lemma insertDataDirective_extends s DeclLoc Decls Where DirStr :
  extends_by (directive_or_break DirStr) s
             (insertDataDirective SM DeclLoc Decls Where DirStr s).
Proof.
  unfold insertDataDirective.
  destruct (Loc.isMacroID Where); [by apply extends_by_same|].
  destruct (Decls !! DeclLoc) as [[|]|];
    first [apply insertDirective_extends | by apply extends_by_same].
Qed.

Lemma insertForAliases_extends Decls Array RedeclLoc Locs :
  forall I StartLocs s s',
    insertForAliases SM Decls Array RedeclLoc I Locs StartLocs s = Some s' ->
    extends_by (directive_or_break Array) s s'.
Proof.
  induction Locs as [|LocI Locs IH]; intros I StartLocs s s' H; simpl in H.
  - inversion H; subst. apply extends_by_refl.
  - destruct (LocI =? RedeclLoc); [by eapply IH|].
    destruct (StartLocs !! I) as [StartI|]; simpl in H; [|discriminate].
    eapply extends_by_trans; [|by eapply IH].
    apply insertDataDirective_extends.
Qed.

(** Without merged locations nothing in the loops is undefined. *)
Lemma insertForRedecls_total Decls Align Array Ds :
  forall st, is_Some (insertForRedecls SM ASTImportInfo.stub Decls Align
                                       Array Ds st).
Proof.
  induction Ds as [|D Ds IH]; intros [L s]; simpl; [done|].
  unfold insertForRedecl. simpl. rewrite lookup_empty.
  destruct (isThisDeclarationADefinition D); simpl; try apply IH.
  destruct (Loc.isInvalid L); [|apply IH].
  destruct (isIncludeFile SM _); apply IH.
Qed.
End AlignmentFacts.

(** ** More about the insertion ledger *)

Section LedgerMore.
Variable SM : SourceManager.

Lemma insertedAt_app (R1 R2 : list Edit) W :
  Rewriter.insertedAt (R1 ++ R2) W =
  Rewriter.insertedAt R1 W ++ Rewriter.insertedAt R2 W.
Proof. unfold Rewriter.insertedAt. by rewrite filter_app, map_app. Qed.

Lemma ledgerGrows_refl s : ledgerGrows s s.
Proof.
  repeat split; try done; exists []; by rewrite app_nil_r.
Qed.

Lemma ledgerGrows_trans s1 s2 s3 :
  ledgerGrows s1 s2 -> ledgerGrows s2 s3 -> ledgerGrows s1 s3.
Proof.
  intros (A1 & B1 & [r1 C1] & [d1 D1]) (A2 & B2 & [r2 C2] & [d2 D2]).
  repeat split.
  - intros W T H. by apply A2, A1.
  - intros F FID H. by apply B2, B1.
  - exists (r1 ++ r2). by rewrite C2, C1, app_assoc.
  - exists (d1 ++ d2). by rewrite D2, D1, app_assoc.
Qed.

Lemma toDiag_grows K L A s : ledgerGrows s (toDiag K L A s).
Proof.
  repeat split; try done; [exists []; by rewrite app_nil_r|by eexists].
Qed.

Lemma performInsertion_grows s W DirStr :
  ledgerGrows s (performInsertion SM W DirStr s).
Proof.
  repeat split.
  - intros W' T H. rewrite performInsertion_inserted.
    by eapply try_emplace_lookup_Some.
  - intros F FID H. rewrite performInsertion_files.
    by eapply try_emplace_lookup_Some.
  - destruct (performInsertion_extends SM s W DirStr) as [new [E _]]. eauto.
  - exists []. by rewrite performInsertion_diags, app_nil_r.
Qed.

Lemma insertDirective_grows s L DirStr :
  ledgerGrows s (DVMHWriter.insertDirective SM L DirStr s).
Proof.
  unfold DVMHWriter.insertDirective. cbv zeta.
  destruct (mInsertedDirs s !! getLocationToTransform SM s L) as [Prev|].
  - destruct (String.eqb Prev DirStr); [apply ledgerGrows_refl|].
    unfold diagnoseMultiple.
    eapply ledgerGrows_trans; apply toDiag_grows.
  - apply performInsertion_grows.
Qed.

Lemma insertDataDirective_grows s DeclLoc Decls Where DirStr :
  ledgerGrows s (insertDataDirective SM DeclLoc Decls Where DirStr s).
Proof.
  unfold insertDataDirective, diagnoseInsert.
  destruct (Loc.isMacroID Where).
  { eapply ledgerGrows_trans; apply toDiag_grows. }
  destruct (Decls !! DeclLoc) as [[|]|]; try apply insertDirective_grows.
  eapply ledgerGrows_trans; apply toDiag_grows.
Qed.

(** A relation that holds across every step of the writer holds across
    [insertAlignment]. *)
Section Across.
Variable R : WriterState -> WriterState -> Prop.
Hypothesis R_refl : forall s, R s s.
Hypothesis R_trans : forall s1 s2 s3, R s1 s2 -> R s2 s3 -> R s1 s3.
Hypothesis R_data : forall s DeclLoc Decls Where DirStr,
  R s (insertDataDirective SM DeclLoc Decls Where DirStr s).
Hypothesis R_diag : forall s K L A, R s (toDiag K L A s).

Lemma insertForAliases_across Decls Array RedeclLoc Locs :
  forall I StartLocs s s',
    insertForAliases SM Decls Array RedeclLoc I Locs StartLocs s = Some s' ->
    R s s'.
Proof.
  induction Locs as [|LocI Locs IH]; intros I StartLocs s s' H; simpl in H.
  - inversion H; subst. apply R_refl.
  - destruct (LocI =? RedeclLoc); [by eapply IH|].
    destruct (StartLocs !! I) as [StartI|]; simpl in H; [|discriminate].
    eapply R_trans; [apply R_data|by eapply IH].
Qed.

Lemma insertForRedecl_across Import Decls Align Array D L s L' s' :
  insertForRedecl SM Import Decls Align Array D (L, s) = Some (L', s') ->
  R s s'.
Proof.
  unfold insertForRedecl. intros H.
  assert (G : forall (p : SourceLocation * WriterState),
            R s p.2 ->
            match ASTImportInfo.RedeclLocs Import !! declID D with
            | Some Merged =>
                MergedLocations.find Merged (getLocation D) ≫= fun Locs =>
                MergedLocations.find Merged (getLocStart D) ≫= fun StartLocs =>
                insertForAliases SM Decls Array (getLocation D) 0 Locs
                                 StartLocs p.2 ≫= fun s0 => Some (p.1, s0)
            | None => Some (p.1, p.2)
            end = Some (L', s') -> R s s').
  { intros [L1 s1] H1 H2. simpl in *.
    destruct (ASTImportInfo.RedeclLocs Import !! declID D) as [Merged|].
    - destruct (MergedLocations.find Merged (getLocation D)) as [Locs|];
        simpl in H2; [|discriminate].
      destruct (MergedLocations.find Merged (getLocStart D)) as [StartLocs|];
        simpl in H2; [|discriminate].
      destruct (insertForAliases _ _ _ _ _ _ _ _) as [s2|] eqn:E;
        simpl in H2; [|discriminate].
      inversion H2; subst. eapply R_trans; [exact H1|].
      by eapply insertForAliases_across.
    - by inversion H2; subst. }
  destruct (isThisDeclarationADefinition D).
  - apply (G (_, _)) in H; [done|]. apply R_data.
  - destruct (Loc.isInvalid L).
    + destruct (isIncludeFile SM _);
        (apply (G (_, _)) in H; [done|]; apply R_data).
    + apply (G (_, _)) in H; [done|]. apply R_data.
  - apply (G (_, _)) in H; [done|]. apply R_refl.
Qed.

Lemma insertForRedecls_across Import Decls Align Array Ds :
  forall L s L' s',
    insertForRedecls SM Import Decls Align Array Ds (L, s) = Some (L', s') ->
    R s s'.
Proof.
  induction Ds as [|D Ds IH]; intros L s L' s' H; simpl in H.
  - inversion H; subst. apply R_refl.
  - destruct (insertForRedecl _ _ _ _ _ _ _) as [[L1 s1]|] eqn:E;
      simpl in H; [|discriminate].
    eapply R_trans; [by eapply insertForRedecl_across|by eapply IH].
Qed.

Lemma insertAlignment_across getPragmaText extractTplDimsAlignmentIndexes
    genStringExpr Import Decls AR V s L' s' :
  insertAlignment SM getPragmaText extractTplDimsAlignmentIndexes
                  genStringExpr Import Decls AR V s = Some (L', s') ->
  R s s'.
Proof.
  unfold insertAlignment. intros H.
  destruct (alignText _ _ _ AR) as [Align|]; simpl in H; [|discriminate].
  destruct (insertForRedecls _ _ _ _ _ _ _) as [[L1 s1]|] eqn:E;
    simpl in H; [|discriminate].
  assert (R s s1).
  { destruct (getDefinition V).
    - eapply R_trans; [apply R_data|by eapply insertForRedecls_across].
    - by eapply insertForRedecls_across. }
  destruct (Loc.isInvalid L1); inversion H; subst; [|done].
  eapply R_trans; [exact H0|]. eapply R_trans; apply R_diag.
Qed.
End Across.
End LedgerMore.

(** ** The requests for the [array] directive *)

Section RequestFacts.
Variable SM : SourceManager.

Lemma soundStep_refl s : soundStep s s.
Proof.
  split; [apply ledgerGrows_refl|]. intros W T HN HS. congruence.
Qed.

Lemma soundStep_trans s1 s2 s3 :
  soundStep s1 s2 -> soundStep s2 s3 -> soundStep s1 s3.
Proof.
  intros [G1 B1] [G2 B2]. split; [by eapply ledgerGrows_trans|].
  intros W T HN HS HW.
  destruct G1 as (_ & _ & [r1 R1] & _). destruct G2 as (D2 & _ & [r2 R2] & _).
  destruct (mInsertedDirs s2 !! W) as [T'|] eqn:E2.
  - assert (T' = T) by (apply D2 in E2; congruence). subst T'.
    destruct (B1 W T HN E2 HW) as (new & HR & HT).
    exists (new ++ r2). split; [by rewrite R2, HR, app_assoc|].
    rewrite insertedAt_app. apply elem_of_app. by left.
  - destruct (B2 W T E2 HS HW) as (new & HR & HT).
    exists (r1 ++ new). split; [by rewrite HR, R1, app_assoc|].
    rewrite insertedAt_app. apply elem_of_app. by right.
Qed.

Lemma soundStep_same s s' :
  ledgerGrows s s' -> mInsertedDirs s' = mInsertedDirs s -> soundStep s s'.
Proof.
  intros G E. split; [done|]. intros W T HN HS. rewrite E in HS. congruence.
Qed.

Lemma toDiag_sound s K L A : soundStep s (toDiag K L A s).
Proof. apply soundStep_same; [apply toDiag_grows|done]. Qed.

Lemma performInsertion_sound s W DirStr :
  soundStep s (performInsertion SM W DirStr s).
Proof.
  split; [apply performInsertion_grows|]. intros W' T HN HS HW.
  rewrite performInsertion_inserted in HS. unfold try_emplace in HS.
  destruct (mInsertedDirs s !! W) eqn:EW; [congruence|].
  destruct (decide (W' = W)) as [->|Hne].
  - rewrite lookup_insert_eq in HS. inversion HS; subst T.
    eexists. split; [by apply performInsertion_edits|].
    unfold Rewriter.insertedAt. rewrite filter_cons_True by done.
    simpl. left.
  - rewrite lookup_insert_ne in HS by done. congruence.
Qed.

Lemma insertDataDirective_sound s DeclLoc Decls Where DirStr :
  soundStep s (insertDataDirective SM DeclLoc Decls Where DirStr s).
Proof.
  assert (HD : forall K, soundStep s (diagnoseInsert K Where DeclLoc DirStr s)).
  { intros K. unfold diagnoseInsert.
    eapply soundStep_trans; apply toDiag_sound. }
  assert (HI : soundStep s (DVMHWriter.insertDirective SM Where DirStr s)).
  { unfold DVMHWriter.insertDirective. cbv zeta.
    destruct (mInsertedDirs s !! getLocationToTransform SM s Where)
      as [Prev|].
    - destruct (String.eqb Prev DirStr); [apply soundStep_refl|].
      unfold diagnoseMultiple. eapply soundStep_trans; apply toDiag_sound.
    - apply performInsertion_sound. }
  unfold insertDataDirective.
  destruct (Loc.isMacroID Where); [apply HD|].
  destruct (Decls !! DeclLoc) as [[|]|]; done.
Qed.

Lemma reportedSince_mono s0 s1 s2 s3 d :
  ledgerGrows s0 s1 -> reportedSince s1 s2 d -> ledgerGrows s2 s3 ->
  reportedSince s0 s3 d.
Proof.
  intros (_ & _ & _ & [d1 D1]) (new & HN & Hd) (_ & _ & _ & [d3 D3]).
  exists (d1 ++ new ++ d3). split.
  - by rewrite D3, HN, D1, <- !app_assoc.
  - apply elem_of_app. right. apply elem_of_app. by left.
Qed.

Lemma requestSettled_mono Decls DeclLoc Where DirStr s0 s1 s2 s3 :
  ledgerGrows s0 s1 ->
  requestSettled SM Decls DeclLoc Where DirStr s1 s2 ->
  ledgerGrows s2 s3 ->
  requestSettled SM Decls DeclLoc Where DirStr s0 s3.
Proof.
  intros G1 H G3. unfold requestSettled in *.
  assert (HR : forall d, reportedSince s1 s2 d -> reportedSince s0 s3 d).
  { intros d Hd. by eapply reportedSince_mono. }
  destruct (Loc.isMacroID Where).
  { destruct H as [H1 H2]. split; by apply HR. }
  assert (HW : (exists W, pointOf SM s2 Where W /\
                  (mInsertedDirs s2 !! W = Some DirStr \/
                   exists Prev,
                     mInsertedDirs s2 !! W = Some Prev /\ Prev <> DirStr /\
                     reportedSince s1 s2
                       (Diag err_apc_insert_dvm_directive (Some W)
                             (Some (Str.trim DirStr))) /\
                     reportedSince s1 s2
                       (Diag note_apc_insert_multiple_directives (Some W)
                             None))) ->
               exists W, pointOf SM s3 Where W /\
                  (mInsertedDirs s3 !! W = Some DirStr \/
                   exists Prev,
                     mInsertedDirs s3 !! W = Some Prev /\ Prev <> DirStr /\
                     reportedSince s0 s3
                       (Diag err_apc_insert_dvm_directive (Some W)
                             (Some (Str.trim DirStr))) /\
                     reportedSince s0 s3
                       (Diag note_apc_insert_multiple_directives (Some W)
                             None))).
  { destruct G3 as (D3 & F3 & _). intros (W & HP & HB). exists W. split.
    - destruct HP as [->|(FID & HF & ->)]; [by left|].
      right. exists FID. split; [by apply F3|done].
    - destruct HB as [HB|(Prev & HB & Hne & E1 & E2)]; [left; by apply D3|].
      right. exists Prev. split; [by apply D3|]. split; [done|].
      split; by apply HR. }
  destruct (Decls !! DeclLoc) as [[|]|]; [by apply HW| |by apply HW].
  destruct H as [H1 H2]. split; by apply HR.
Qed.

Lemma reportedSince_first s K L A K' L' A' :
  reportedSince s (toDiag K' L' A' (toDiag K L A s)) (Diag K L A).
Proof.
  eexists [_; _]. split; [simpl; by rewrite <- app_assoc|].
  apply list_elem_of_here.
Qed.

Lemma reportedSince_second s K L A K' L' A' :
  reportedSince s (toDiag K' L' A' (toDiag K L A s)) (Diag K' L' A').
Proof.
  eexists [_; _]. split; [simpl; by rewrite <- app_assoc|].
  apply list_elem_of_further, list_elem_of_here.
Qed.

(** One call of [insertDataDirective] settles its request. *)
Lemma insertDataDirective_settled s DeclLoc Decls Where DirStr :
  requestSettled SM Decls DeclLoc Where DirStr s
                 (insertDataDirective SM DeclLoc Decls Where DirStr s).
Proof.
  unfold requestSettled, insertDataDirective, diagnoseInsert.
  destruct (Loc.isMacroID Where).
  { split; [apply reportedSince_first|apply reportedSince_second]. }
  assert (HI : let s' := DVMHWriter.insertDirective SM Where DirStr s in
               exists W, pointOf SM s' Where W /\
                 (mInsertedDirs s' !! W = Some DirStr \/
                  exists Prev,
                    mInsertedDirs s' !! W = Some Prev /\ Prev <> DirStr /\
                    reportedSince s s'
                      (Diag err_apc_insert_dvm_directive (Some W)
                            (Some (Str.trim DirStr))) /\
                    reportedSince s s'
                      (Diag note_apc_insert_multiple_directives (Some W)
                            None))).
  { intros s'. exists (getLocationToTransform SM s Where). split.
    - destruct (insertDirective_grows SM s Where DirStr) as (_ & F & _).
      unfold getLocationToTransform.
      destruct (mTransformedFiles s !! getFilename SM Where) as [FID|] eqn:EF;
        [|by left].
      right. exists FID. split; [by apply F|done].
    - subst s'. unfold DVMHWriter.insertDirective. cbv zeta.
      destruct (mInsertedDirs s !! getLocationToTransform SM s Where)
        as [Prev|] eqn:EP.
      + destruct (String.eqb Prev DirStr) eqn:EQ.
        * left. apply String.eqb_eq in EQ. by subst Prev.
        * right. exists Prev. split; [done|]. split.
          { by apply String.eqb_neq. }
          unfold diagnoseMultiple.
          split; [apply reportedSince_first|apply reportedSince_second].
      + left. by apply performInsertion_dirs. }
  destruct (Decls !! DeclLoc) as [[|]|]; [exact HI| |exact HI].
  split; [apply reportedSince_first|apply reportedSince_second].
Qed.

(** The step for a redeclaration that is no proper definition, while no
    definition was seen: the location stays invalid, and the [array]
    directive is requested for the redeclaration. *)
Lemma insertForRedecl_improper Import Decls Align Array D s L' s' :
  isThisDeclarationADefinition D = DeclarationOnly \/
  (isThisDeclarationADefinition D = TentativeDefinition /\
   isIncludeFile SM (getFileID SM (getLocStart D)) = true) ->
  insertForRedecl SM Import Decls Align Array D (Loc.invalid, s)
    = Some (L', s') ->
  L' = Loc.invalid /\
  extends_by (directive_or_break Array) s s' /\
  requestSettled SM Decls (getLocation D) (getLocStart D) Array s s'.
Proof.
  intros HD H. unfold insertForRedecl in H.
  set (s1 := insertDataDirective SM (getLocation D) Decls (getLocStart D)
                                 Array s) in *.
  assert (H1 : match ASTImportInfo.RedeclLocs Import !! declID D with
               | Some Merged =>
                   MergedLocations.find Merged (getLocation D) ≫= fun Locs =>
                   MergedLocations.find Merged (getLocStart D) ≫=
                   fun StartLocs =>
                   insertForAliases SM Decls Array (getLocation D) 0 Locs
                                    StartLocs s1 ≫=
                   fun s0 => Some (Loc.invalid, s0)
               | None => Some (Loc.invalid, s1)
               end = Some (L', s')).
  { destruct HD as [HD|[HD HI]]; rewrite HD in H; [exact H|].
    change (Loc.isInvalid Loc.invalid) with true in H. cbv iota in H.
    by rewrite HI in H. }
  clear H.
  assert (H2 : L' = Loc.invalid /\ extends_by (directive_or_break Array) s1 s'
               /\ ledgerGrows s1 s').
  { destruct (ASTImportInfo.RedeclLocs Import !! declID D) as [Merged|].
    - destruct (MergedLocations.find Merged (getLocation D)) as [Locs|];
        simpl in H1; [|discriminate].
      destruct (MergedLocations.find Merged (getLocStart D)) as [StartLocs|];
        simpl in H1; [|discriminate].
      destruct (insertForAliases _ _ _ _ _ _ _ _) as [s2|] eqn:E;
        simpl in H1; [|discriminate].
      inversion H1; subst. split; [done|]. split.
      + by eapply insertForAliases_extends.
      + apply (insertForAliases_across SM ledgerGrows ledgerGrows_refl
                 ledgerGrows_trans
                 (fun s0 a b c d => insertDataDirective_grows SM s0 a b c d)
                 _ _ _ _ _ _ _ _ E).
    - inversion H1; subst. split; [done|].
      split; [apply extends_by_refl|apply ledgerGrows_refl]. }
  destruct H2 as (-> & Hext & Hg). split; [done|]. split.
  - eapply extends_by_trans; [apply insertDataDirective_extends|exact Hext].
  - eapply requestSettled_mono;
      [apply ledgerGrows_refl|apply insertDataDirective_settled|exact Hg].
Qed.

Lemma insertForRedecls_improper Import Decls Align Array Ds :
  forall s L' s',
    Forall (fun D =>
              isThisDeclarationADefinition D = DeclarationOnly \/
              (isThisDeclarationADefinition D = TentativeDefinition /\
               isIncludeFile SM (getFileID SM (getLocStart D)) = true)) Ds ->
    insertForRedecls SM Import Decls Align Array Ds (Loc.invalid, s)
      = Some (L', s') ->
    L' = Loc.invalid /\
    extends_by (directive_or_break Array) s s' /\
    forall D, D ∈ Ds ->
      requestSettled SM Decls (getLocation D) (getLocStart D) Array s s'.
Proof.
  induction Ds as [|D Ds IH]; intros s L' s' HF H; simpl in H.
  - inversion H; subst. split; [done|]. split; [apply extends_by_refl|].
    intros D HD. by apply elem_of_nil in HD.
  - inversion HF as [|? ? HD HDs]; subst.
    destruct (insertForRedecl _ _ _ _ _ _ _) as [[L1 s1]|] eqn:E;
      simpl in H; [|discriminate].
    pose proof (insertForRedecl_across SM ledgerGrows ledgerGrows_refl
                  ledgerGrows_trans
                  (fun s0 a b c d => insertDataDirective_grows SM s0 a b c d)
                  _ _ _ _ _ _ _ _ _ E) as G1.
    destruct (insertForRedecl_improper _ _ _ _ _ _ _ _ HD E)
      as (-> & Hx & Hr).
    pose proof (insertForRedecls_across SM ledgerGrows ledgerGrows_refl
                  ledgerGrows_trans
                  (fun s0 a b c d => insertDataDirective_grows SM s0 a b c d)
                  _ _ _ _ _ _ _ _ _ H) as G2.
    destruct (IH _ _ _ HDs H) as (-> & Hy & Hrs).
    split; [done|]. split; [by eapply extends_by_trans|].
    intros D' HD'. apply elem_of_cons in HD' as [->|HD'].
    + eapply requestSettled_mono;
        [apply ledgerGrows_refl|exact Hr|exact G2].
    + eapply requestSettled_mono;
        [exact G1|by apply Hrs|apply ledgerGrows_refl].
Qed.

Lemma getDefinition_improper V :
  noProperDefinition SM V -> getDefinition V = None.
Proof.
  unfold noProperDefinition, getDefinition.
  induction (redecls V) as [|D Ds IH]; intros HF; [done|].
  inversion HF as [|? ? HD HDs]; subst. simpl.
  destruct HD as [HD|[HD _]]; rewrite HD; by apply IH.
Qed.
End RequestFacts.

(** C9 as stated fails: for the variable A, declared only by
    "extern double A[100];", the diagnostic is reported and the [array]
    directive is inserted before the declaration all the same. *)
Lemma insertAlignment_inserts_array_without_definition :
  noDefinition DemoAlign.A /\
  exists s',
    DemoAlign.insertAlignment ASTImportInfo.stub ∅ DemoAlign.AR DemoAlign.A
                              releaseMemory = Some (Loc.invalid, s') /\
    mDiags s' =
      [ Diag err_apc_insert_dvm_directive (Some 56)
             (Some "#pragma dvm align([i] with T[i])"%string);
        Diag note_apc_no_proper_definition None (Some "A"%string) ] /\
    mRewriter s' =
      [ {| edit_loc := 42; edit_text := "#pragma dvm array" +:+ Str.nl;
           edit_after := false |} ].
Proof.
  split.
  - repeat constructor.
  - eexists. split; [vm_compute; reflexivity|]. split; reflexivity.
Qed.

(** C9, amended.  When the variable has no proper definition (every
    redeclaration is a declaration only, or a tentative definition in an
    include file), [insertAlignment] returns the invalid location, and its
    last two diagnostics are [err_apc_insert_dvm_directive] with the [align]
    text at the location of the variable and [note_apc_no_proper_definition]
    with the name of the variable.  No [align] directive is inserted: every
    text written is the [array] directive or the line break in front of one,
    and every binding the ledger gains at a rewritable point has its text
    among the texts written there.  The [array] directive is requested for
    every redeclaration: the request is diagnosed when the statement starts
    in a macro or holds several declarations; otherwise the ledger ends up
    binding the start of the statement to the [array] directive, or to
    another text with the request diagnosed as a multiple insertion. *)
Theorem insertAlignment_without_definition
    (SM : SourceManager) (getPragmaText : PragmaId -> string)
    (extractTplDimsAlignmentIndexes : AlignRule -> list nat)
    (genStringExpr : string -> Z * Z -> string)
    (Import : ASTImportInfo.t) (Decls : DeclarationInfoMap) (AR : AlignRule)
    (V : Variable_) (s s' : WriterState) (DefinitionLoc : SourceLocation) :
  noProperDefinition SM V ->
  insertAlignment SM getPragmaText extractTplDimsAlignmentIndexes
                  genStringExpr Import Decls AR V s
    = Some (DefinitionLoc, s') ->
  DefinitionLoc = Loc.invalid /\
  (exists Align pre,
     alignText getPragmaText extractTplDimsAlignmentIndexes genStringExpr AR
       = Some Align /\
     mDiags s' = pre ++
       [ Diag err_apc_insert_dvm_directive (Some (getLocation (VD V)))
              (Some (Str.trim Align));
         Diag note_apc_no_proper_definition None (Some (getName V)) ]) /\
  extends_by (directive_or_break (getPragmaText DvmArray)) s s' /\
  bindingsInserted s s' /\
  forall D, D ∈ redecls V ->
    requestSettled SM Decls (getLocation D) (getLocStart D)
                   (getPragmaText DvmArray) s s'.
Proof.
  intros HV H.
  pose proof (insertAlignment_across SM soundStep soundStep_refl
                soundStep_trans
                (fun s0 a b c d => insertDataDirective_sound SM s0 a b c d)
                (fun s0 K L A => toDiag_sound s0 K L A)
                _ _ _ _ _ _ _ _ _ _ H) as [_ Hsound].
  unfold insertAlignment in H.
  destruct (alignText _ _ _ AR) as [Align|] eqn:EA; simpl in H; [|discriminate].
  rewrite (getDefinition_improper SM V HV) in H.
  destruct (insertForRedecls _ _ _ _ _ _ _) as [[L1 s1]|] eqn:E;
    simpl in H; [|discriminate].
  destruct (insertForRedecls_improper _ _ _ _ _ _ _ _ _ HV E)
    as (-> & Hext & Hreq).
  change (Loc.isInvalid Loc.invalid) with true in H. cbv iota in H.
  inversion H; subst. split; [done|]. split; [|split; [|split]].
  - exists Align, (mDiags s1). split; [done|]. simpl.
    by rewrite <- app_assoc.
  - eapply extends_by_trans; [exact Hext|]. by apply extends_by_same.
  - exact Hsound.
  - intros D HD. eapply requestSettled_mono;
      [apply ledgerGrows_refl|by apply Hreq|].
    eapply ledgerGrows_trans; apply toDiag_grows.
Qed.

Lemma insertAlignment_without_definition_witness :
  let Array := DemoPragma.getPragmaText DvmArray in
  exists s',
    DemoAlign.insertAlignment ASTImportInfo.stub ∅ DemoAlign.AR DemoAlign.E
                              releaseMemory = Some (Loc.invalid, s') /\
    extends_by (directive_or_break Array) releaseMemory s' /\
    requestSettled Demo.SM ∅ 96 82 Array releaseMemory s' /\
    requestSettled Demo.SM ∅ 1047 1040 Array releaseMemory s' /\
    requestSettled Demo.SM ∅ (Loc.MacroIDBit + 16) (Loc.MacroIDBit + 2) Array
                   releaseMemory s'.
Proof.
  intros Array.
  destruct (DemoAlign.insertAlignment ASTImportInfo.stub ∅ DemoAlign.AR
              DemoAlign.E releaseMemory) as [[L s']|] eqn:E;
    [|vm_compute in E; discriminate].
  assert (HV : noProperDefinition Demo.SM DemoAlign.E).
  { constructor; [by left|]. constructor; [right; by split|].
    constructor; [by left|constructor]. }
  destruct (insertAlignment_without_definition _ _ _ _ _ _ _ _ _ _ _ HV E)
    as (-> & _ & Hext & _ & Hreq).
  exists s'. split; [reflexivity|]. split; [exact Hext|].
  split; [|split].
  - apply (Hreq DemoAlign.externE). apply list_elem_of_here.
  - apply (Hreq DemoAlign.tentativeE).
    apply list_elem_of_further, list_elem_of_here.
  - apply (Hreq DemoAlign.macroE).
    do 2 apply list_elem_of_further. apply list_elem_of_here.
Defined.

(** Without merged locations, [insertAlignment] has a result whenever the
    text of the directive has one. *)
Lemma insertAlignment_total
    (SM : SourceManager) (getPragmaText : PragmaId -> string)
    (extractTplDimsAlignmentIndexes : AlignRule -> list nat)
    (genStringExpr : string -> Z * Z -> string)
    (Decls : DeclarationInfoMap) (AR : AlignRule) (V : Variable_)
    (s : WriterState) :
  is_Some (alignText getPragmaText extractTplDimsAlignmentIndexes
                     genStringExpr AR) ->
  is_Some (insertAlignment SM getPragmaText extractTplDimsAlignmentIndexes
                           genStringExpr ASTImportInfo.stub Decls AR V s).
Proof.
  intros [Align EA]. unfold insertAlignment. rewrite EA. simpl.
  match goal with
  | |- context [insertForRedecls ?a ?b ?c ?d ?e ?f ?g] =>
      destruct (insertForRedecls_total a c d e f g) as [[L1 s1] E]; rewrite E
  end.
  simpl. destruct (Loc.isInvalid L1); done.
Qed.

(** ** The reduction clause *)

(** C3, at concrete inputs.  A variable of the xor partition is emitted under
    an empty kind token, "reduction((x))", not under "xor"; the other six
    partitions are emitted under their tokens. *)
Theorem addReductionIfNeed_xor_has_no_token :
  Pragma.addReductionIfNeed [∅; ∅; ∅; ∅; {["x"%string]}; ∅; ∅] "" =
    Some "reduction((x))"%string /\
  Pragma.RedKind 4 = Some ""%string /\
  kindOfIndex 4 = Some RK_Xor /\
  kindToken RK_Xor = "xor"%string /\
  Pragma.addReductionIfNeed
    [{["a"%string]}; {["b"%string]}; {["c"%string]}; {["d"%string]};
     {["e"%string; "f"%string]}; {["g"%string]}; {["h"%string]}] "" =
    Some ("reduction(sum(a))reduction(product(b))reduction(or(c))" +:+
          "reduction(and(d))reduction((e),(f))reduction(max(g))" +:+
          "reduction(min(h))")%string.
Proof. vm_compute. repeat split; reflexivity. Qed.

(** Every kind but xor is emitted under its token. *)
Lemma RedKind_token I K :
  kindOfIndex I = Some K -> K <> RK_Xor -> Pragma.RedKind I = Some (kindToken K).
Proof.
  unfold Pragma.RedKind. intros -> HK. simpl. by destruct K.
Qed.

(** ** The across pair *)

Section AcrossFacts.
Variable BitWidth : N.

Lemma getDistance_upper V : getDistance V = upperDistance V.
Proof. by destruct V. Qed.

Lemma processDependence_inv AI ID Step Dep P PAD P' PAD' :
  processDependence BitWidth AI ID Step Dep (P, PAD) = Some (Some (P', PAD')) ->
  (exists Ranges Dim,
     (Dim < length Ranges)%nat /\
     P_Dependence P' =
       <[Dep.1 := <[Dim := acrossPair Step Dep.2]> Ranges]> (P_Dependence P)) /\
  P_Induction P' = P_Induction P /\
  PossibleAcrossDepth P' = PossibleAcrossDepth P /\
  isFinal P' = isFinal P /\
  P_Private P' = P_Private P /\
  P_Reduction P' = P_Reduction P /\
  (exists PAD1, updatePAD BitWidth (Flow Dep.2) PAD = Some PAD1 /\
                updatePAD BitWidth (Anti Dep.2) PAD1 = Some PAD').
Proof.
  unfold processDependence. intros H.
  destruct (List.find _ _) as [AccessItr|]; [|discriminate].
  destruct (scanAccesses _ _ _ _) as [[[DependentDim|] NumberOfDims]|];
    try discriminate.
  cbn [fst snd] in H.
  destruct (updatePAD BitWidth (Flow Dep.2) PAD) as [PAD1|] eqn:E1;
    simpl in H; [|discriminate].
  destruct (updatePAD BitWidth (Anti Dep.2) PAD1) as [PAD2|] eqn:E2;
    simpl in H; [|discriminate].
  destruct (DependentDim <? NumberOfDims)%nat eqn:Hlt; [|discriminate].
  inversion H; subst. simpl. repeat split; eauto.
  eexists _, DependentDim. split; [|reflexivity].
  rewrite length_resize. by apply Nat.ltb_lt.
Qed.

(** What the three scans of the subscripts return: a dimension found
    earlier is kept, every monom over the loop fixes the dimension of its
    subscript, and a dimension that is returned was found at such a monom. *)
Lemma scanMonoms_spec ID Dimension Monoms :
  forall AnotherColumn DependentDim DependentDim',
    scanMonoms ID Dimension Monoms AnotherColumn DependentDim
      = Some DependentDim' ->
    (forall D, DependentDim = Some D -> DependentDim' = Some D) /\
    (forall Mo, Mo ∈ Monoms -> Column Mo = ID ->
                DependentDim' = Some Dimension) /\
    (DependentDim' = DependentDim \/
     (DependentDim' = Some Dimension /\
      exists Mo, Mo ∈ Monoms /\ Column Mo = ID)).
Proof.
  induction Monoms as [|M Monoms IH]; intros AC DD DD' H; simpl in H.
  - inversion H; subst. split; [done|]. split; [|by left].
    intros Mo HMo. by apply elem_of_nil in HMo.
  - destruct (Column M =? ID) eqn:EC.
    + apply N.eqb_eq in EC.
      destruct (negb (AC =? 0) || _) eqn:EG; [discriminate|].
      apply orb_false_iff in EG as [_ EG].
      destruct (IH _ _ _ H) as (I1 & I2 & I3).
      assert (HD' : DD' = Some Dimension) by by apply I1.
      split; [|split].
      * intros D ->. apply negb_false_iff, Nat.eqb_eq in EG. by subst D.
      * done.
      * right. split; [done|]. exists M.
        split; [apply list_elem_of_here|done].
    + apply N.eqb_neq in EC.
      destruct (match DD with
                | Some D => (D =? Dimension)%nat
                | None => false
                end) eqn:EG; [discriminate|].
      destruct (IH _ _ _ H) as (I1 & I2 & I3).
      split; [done|]. split.
      * intros Mo HMo HC. apply elem_of_cons in HMo as [->|HMo]; [done|].
        by eapply I2.
      * destruct I3 as [->|[-> (Mo & HMo & HC)]]; [by left|].
        right. split; [done|]. exists Mo.
        split; [by apply list_elem_of_further|done].
Qed.

Lemma scanSubscripts_spec ID Subs :
  forall DependentDim DependentDim',
    scanSubscripts ID Subs DependentDim = Some DependentDim' ->
    (forall D, DependentDim = Some D -> DependentDim' = Some D) /\
    (forall Dim Monoms Mo,
       Some (DIAffineSubscript Dim Monoms) ∈ Subs -> Mo ∈ Monoms ->
       Column Mo = ID -> DependentDim' = Some Dim) /\
    (DependentDim' = DependentDim \/
     exists Dim Monoms Mo,
       Some (DIAffineSubscript Dim Monoms) ∈ Subs /\ Mo ∈ Monoms /\
       Column Mo = ID /\ DependentDim' = Some Dim).
Proof.
  induction Subs as [|Sub Subs IH]; intros DD DD' H; simpl in H.
  - inversion H; subst. split; [done|]. split; [|by left].
    intros Dim Monoms Mo HS. by apply elem_of_nil in HS.
  - destruct Sub as [[Dimension Monoms0|?]|]; [|discriminate..].
    destruct (scanMonoms ID Dimension Monoms0 0 DD) as [DD1|] eqn:E1;
      simpl in H; [|discriminate].
    destruct (scanMonoms_spec _ _ _ _ _ _ E1) as (M1 & M2 & M3).
    destruct (IH _ _ H) as (I1 & I2 & I3).
    split; [|split].
    + intros D HD. by apply I1, M1.
    + intros Dim Monoms Mo HS HMo HC.
      apply elem_of_cons in HS as [HS|HS]; [|by eapply I2].
      inversion HS; subst Dim Monoms. apply I1. by eapply M2.
    + destruct I3 as [->|(Dim & Monoms & Mo & HS & HMo & HC & ->)].
      * destruct M3 as [->|[-> (Mo & HMo & HC)]]; [by left|].
        right. exists Dimension, Monoms0, Mo.
        split; [apply list_elem_of_here|done].
      * right. exists Dim, Monoms, Mo.
        split; [by apply list_elem_of_further|done].
Qed.

Lemma scanAccesses_spec ID Accesses :
  forall DependentDim NumberOfDims DependentDim' NumberOfDims',
    scanAccesses ID Accesses DependentDim NumberOfDims
      = Some (DependentDim', NumberOfDims') ->
    (forall D, DependentDim = Some D -> DependentDim' = Some D) /\
    (forall Access Dim Monoms Mo,
       Access ∈ Accesses ->
       Some (DIAffineSubscript Dim Monoms) ∈ Subscripts Access ->
       Mo ∈ Monoms -> Column Mo = ID -> DependentDim' = Some Dim) /\
    (DependentDim' = DependentDim \/
     exists Access Dim Monoms Mo,
       Access ∈ Accesses /\
       Some (DIAffineSubscript Dim Monoms) ∈ Subscripts Access /\
       Mo ∈ Monoms /\ Column Mo = ID /\ DependentDim' = Some Dim).
Proof.
  induction Accesses as [|A Accesses IH]; intros DD N DD' N' H; simpl in H.
  - inversion H; subst. split; [done|]. split; [|by left].
    intros Access Dim Monoms Mo HA. by apply elem_of_nil in HA.
  - destruct (scanSubscripts ID (Subscripts A) DD) as [DD1|] eqn:E1;
      simpl in H; [|discriminate].
    destruct (scanSubscripts_spec _ _ _ _ E1) as (S1 & S2 & S3).
    destruct (IH _ _ _ _ H) as (I1 & I2 & I3).
    split; [|split].
    + intros D HD. by apply I1, S1.
    + intros Access Dim Monoms Mo HA HS HMo HC.
      apply elem_of_cons in HA as [->|HA]; [|by eapply I2].
      apply I1. by eapply S2.
    + destruct I3
        as [->|(Access & Dim & Monoms & Mo & HA & HS & HMo & HC & ->)].
      * destruct S3 as [->|(Dim & Monoms & Mo & HS & HMo & HC & ->)];
          [by left|].
        right. exists A, Dim, Monoms, Mo.
        split; [apply list_elem_of_here|done].
      * right. exists Access, Dim, Monoms, Mo.
        split; [by apply list_elem_of_further|done].
Qed.

(** The dimension that [processDependence] writes is the dependent dimension
    of the array; the vectors of the other arrays are left alone. *)
Lemma processDependence_records AI ID Step Dep P PAD P' PAD' :
  processDependence BitWidth AI ID Step Dep (P, PAD) = Some (Some (P', PAD')) ->
  (exists Dim,
     dependentDimension AI ID Dep.1 Dim /\
     recordsAcross P' Dep.1 Dim (acrossPair Step Dep.2)) /\
  (forall Name, Name <> Dep.1 ->
     P_Dependence P' !! Name = P_Dependence P !! Name).
Proof.
  unfold processDependence. intros H.
  destruct (List.find _ _) as [AccessItr|] eqn:EF; [|discriminate].
  destruct (scanAccesses _ _ _ _) as [[[DependentDim|] NumberOfDims]|] eqn:ES;
    try discriminate.
  cbn [fst snd] in H.
  destruct (updatePAD BitWidth (Flow Dep.2) PAD) as [PAD1|] eqn:E1;
    simpl in H; [|discriminate].
  destruct (updatePAD BitWidth (Anti Dep.2) PAD1) as [PAD2|] eqn:E2;
    simpl in H; [|discriminate].
  destruct (DependentDim <? NumberOfDims)%nat eqn:Hlt; [|discriminate].
  inversion H; subst. clear H.
  destruct (scanAccesses_spec _ _ _ _ _ _ ES) as (_ & A2 & A3).
  assert (HA : accessedArray AI ID Dep.1 = Some (getArray AccessItr)).
  { unfold accessedArray. by rewrite EF. }
  split; [exists DependentDim; split; [split|]|].
  - destruct A3 as [?|(Access & Dim & Monoms & Mo & H1 & H2 & H3 & H4 & H5)];
      [discriminate|].
    inversion H5; subst Dim.
    by exists (getArray AccessItr), Access, Monoms, Mo.
  - intros Dim' (M & Access & Monoms & Mo & H0 & H1 & H2 & H3 & H4).
    rewrite HA in H0. inversion H0; subst M.
    specialize (A2 _ _ _ _ H1 H2 H3 H4). by inversion A2.
  - eexists. simpl. split; [by rewrite lookup_insert_eq|].
    apply list_lookup_insert_eq. rewrite length_resize. by apply Nat.ltb_lt.
  - intros Name Hne. simpl. by apply lookup_insert_ne.
Qed.

Lemma processDependences_records AI ID Step Deps :
  forall P PAD P' PAD',
    NoDup (map fst Deps) ->
    processDependences BitWidth AI ID Step Deps (P, PAD)
      = Some (true, (P', PAD')) ->
    (forall Dep, Dep ∈ Deps ->
       exists Dim,
         dependentDimension AI ID Dep.1 Dim /\
         recordsAcross P' Dep.1 Dim (acrossPair Step Dep.2)) /\
    (forall Name, Name ∉ map fst Deps ->
       P_Dependence P' !! Name = P_Dependence P !! Name).
Proof.
  induction Deps as [|Dep Deps IH]; intros P PAD P' PAD' Hnd H; simpl in H.
  - inversion H; subst. split; [|done]. intros Dep HIn.
    by apply elem_of_nil in HIn.
  - destruct (processDependence _ _ _ _ _ _) as [[[P1 PAD1]|]|] eqn:E;
      simpl in H; try discriminate.
    apply NoDup_cons in Hnd as [Hnotin Hnd].
    destruct (processDependence_records _ _ _ _ _ _ _ _ E) as [Hrec Hoth].
    destruct (IH _ _ _ _ Hnd H) as [Hall Hkeep]. split.
    + intros Dep' HIn. apply elem_of_cons in HIn as [-> | HIn]; [|by apply Hall].
      destruct Hrec as (Dim & HDim & Ranges & HR & HD). exists Dim.
      split; [done|]. exists Ranges.
      split; [|done]. rewrite Hkeep; [done|]. exact Hnotin.
    + intros Name HN. simpl in HN. apply not_elem_of_cons in HN as [Hne HN].
      rewrite Hkeep by done. by apply Hoth.
Qed.
End AcrossFacts.

(** C6 as stated fails: with the flow distances 1..3 and the anti distances
    2..5 on an ascending loop, the pair stored for A is (3, 5), the upper
    bounds, and not the pair of the minimal distances (1, 2). *)
Lemma across_pair_is_not_minimal_distances :
  let L := DemoLoops.loop 10 1 (DemoLoops.depInfo "i" ∅ DemoLoops.ranges) in
  exists P' Diags,
    DemoLoops.processRegularDependenceis L DemoLoops.newItem []
      = Some (true, P', Diags) /\
    P_Dependence P' !! "A"%string
      = Some [(Some 3%Z, Some 5%Z); (None, None)] /\
    forall Info, ("A"%string, Info) ∈ DemoLoops.ranges ->
      (lowerDistance (Flow Info), lowerDistance (Anti Info))
        = (Some 1%Z, Some 2%Z) /\
      forall Dim,
        ~ recordsAcross P' "A" Dim
            (lowerDistance (Flow Info), lowerDistance (Anti Info)).
Proof.
  eexists _, _. split; [vm_compute; reflexivity|]. split; [reflexivity|].
  intros Info HIn. apply list_elem_of_singleton in HIn. inversion HIn; subst.
  split; [reflexivity|]. intros Dim [Ranges [HR HD]].
  vm_compute in HR. inversion HR; subst.
  destruct Dim as [|[|Dim]]; simpl in HD; discriminate.
Qed.

Arguments processDependences : simpl never.
Arguments initialDepth : simpl never.

(** The two ways in which [processRegularDependenceis] returns [true]. *)
Lemma processRegularDependenceis_true
    (BitWidth : N) (AccessInfo : option DIArrayAccessInfo) (L : LoopFacts)
    (P P' : PragmaParallel) (Diags Diags' : list Diagnostic) :
  processRegularDependenceis BitWidth AccessInfo L P Diags
    = Some (true, P', Diags') ->
  Diags' = Diags /\
  ((D_Dependence (ASTDepInfo L) = [] /\ P' = P) \/
   (exists Step AI P1 PAD,
      D_Dependence (ASTDepInfo L) <> [] /\
      Canonical L = Some (Some Step) /\
      AccessInfo = Some AI /\
      processDependences BitWidth AI (LoopID L) Step
        (D_Dependence (ASTDepInfo L))
        (P, initialDepth (D_Dependence (ASTDepInfo L)))
        = Some (true, (P1, PAD)) /\
      P' = setPossibleAcrossDepth
             (if PossibleAcrossDepth P1 =? 0
              then u32 (PAD + size_ (P_Induction P1))
              else N.min (PossibleAcrossDepth P1)
                         (u32 (PAD + size_ (P_Induction P1)))) P1)).
Proof.
  unfold processRegularDependenceis. intros H.
  destruct (D_Dependence (ASTDepInfo L)) as [|Dep Deps] eqn:ED.
  { inversion H; subst. split; [done|]. by left. }
  destruct (Canonical L) as [[Step|]|]; simpl in H; try discriminate.
  destruct AccessInfo as [AI|]; [|discriminate].
  destruct (processDependences _ _ _ _ _ _) as [[ok [P1 PAD]]|] eqn:E;
    simpl in H; [|discriminate].
  destruct ok; [|discriminate].
  inversion H; subst. split; [done|]. right.
  exists Step, AI, P1, PAD. repeat split; try done.
  by destruct (PossibleAcrossDepth P1 =? 0).
Qed.

(** C6, amended.  When [processRegularDependenceis] succeeds on a loop with
    the constant step [Step], every dependence of the loop is on an array
    with a dependent dimension (the one dimension whose subscripts run over
    the induction variable of the loop), and the item records in that
    dimension of the array the pair of the upper bounds of the front flow and
    anti ranges: (flow, anti) when the step is not negative, (anti, flow)
    when it is.  When a range is a single distance this is the distance
    itself. *)
Theorem processRegularDependenceis_records_upper_distances
    (BitWidth : N) (AccessInfo : option DIArrayAccessInfo) (L : LoopFacts)
    (P P' : PragmaParallel) (Diags Diags' : list Diagnostic) (Step : Z) :
  NoDup (map fst (D_Dependence (ASTDepInfo L))) ->
  Canonical L = Some (Some Step) ->
  processRegularDependenceis BitWidth AccessInfo L P Diags
    = Some (true, P', Diags') ->
  forall Name Info, (Name, Info) ∈ D_Dependence (ASTDepInfo L) ->
    exists AI Dim,
      AccessInfo = Some AI /\
      dependentDimension AI (LoopID L) Name Dim /\
      ((0 <= Step)%Z ->
         recordsAcross P' Name Dim
           (upperDistance (Flow Info), upperDistance (Anti Info))) /\
      ((Step < 0)%Z ->
         recordsAcross P' Name Dim
           (upperDistance (Anti Info), upperDistance (Flow Info))).
Proof.
  intros Hnd HC H Name Info HIn.
  destruct (processRegularDependenceis_true _ _ _ _ _ _ _ H)
    as [_ [[ED _] | [Step' [AI [P1 [PAD [_ [HC' [HAI [E HP']]]]]]]]]].
  { rewrite ED in HIn. by apply elem_of_nil in HIn. }
  rewrite HC in HC'. inversion HC'; subst Step'.
  destruct (processDependences_records _ _ _ _ _ _ _ _ _ Hnd E) as [Hall _].
  destruct (Hall _ HIn) as (Dim & HDim & Hrec). simpl in HDim, Hrec.
  exists AI, Dim. split; [done|]. split; [done|].
  assert (HD : P_Dependence P' = P_Dependence P1) by by rewrite HP'.
  unfold recordsAcross in *. rewrite HD. unfold acrossPair in Hrec.
  rewrite !getDistance_upper in Hrec.
  split; intros HS.
  - by apply Z.ltb_ge in HS; rewrite HS in Hrec.
  - by apply Z.ltb_lt in HS; rewrite HS in Hrec.
Qed.

Lemma processRegularDependenceis_records_upper_distances_witness :
  let L := DemoLoops.loop 20 1 (DemoLoops.depInfo "j" ∅ DemoLoops.scenarioC) in
  exists P' Diags,
    DemoLoops.processRegularDependenceis L DemoLoops.newItem []
      = Some (true, P', Diags) /\
    dependentDimension DemoLoops.AccessInfo 20 "A" 1 /\
    recordsAcross P' "A" 1 (Some 1%Z, Some 2%Z).
Proof.
  intros L.
  destruct (DemoLoops.processRegularDependenceis L DemoLoops.newItem [])
    as [[[ok P'] Diags]|] eqn:E; [|vm_compute in E; discriminate].
  destruct ok; [|vm_compute in E; discriminate].
  exists P', Diags. split; [reflexivity|].
  destruct (processRegularDependenceis_records_upper_distances
              64 (Some DemoLoops.AccessInfo) L DemoLoops.newItem P' []
              Diags 1%Z) with (Name := "A"%string)
              (Info := {| Flow := [(Some 1%Z, Some 1%Z)];
                          Anti := [(Some 2%Z, Some 2%Z)] |})
    as (AI & Dim & HAI & HDim & Hpos & _).
  - repeat constructor. apply not_elem_of_nil.
  - reflexivity.
  - exact E.
  - apply list_elem_of_singleton. reflexivity.
  - inversion HAI; subst AI.
    assert (HD : 1%nat = Dim).
    { apply (proj2 HDim).
      exists DemoLoops.A, DemoLoops.accessA, [{| Column := 20; Value := 1 |}],
             {| Column := 20; Value := 1 |}.
      split; [reflexivity|]. split; [apply list_elem_of_here|].
      split; [apply list_elem_of_further, list_elem_of_here|].
      split; [apply list_elem_of_here|reflexivity]. }
    subst Dim. split; [exact HDim|]. apply Hpos. lia.
Defined.

(** ** The extension of a nest *)

Section ExtensionFacts.
Variable BitWidth : N.
Variable AccessInfo : option DIArrayAccessInfo.

Lemma processDependences_keeps AI ID Step Deps :
  forall P PAD ok P' PAD',
    processDependences BitWidth AI ID Step Deps (P, PAD)
      = Some (ok, (P', PAD')) ->
    P_Induction P' = P_Induction P /\
    PossibleAcrossDepth P' = PossibleAcrossDepth P /\
    isFinal P' = isFinal P /\
    P_Private P' = P_Private P /\
    P_Reduction P' = P_Reduction P.
Proof.
  induction Deps as [|Dep Deps IH]; intros P PAD ok P' PAD' H;
    unfold processDependences in H; fold processDependences in H.
  - by inversion H; subst.
  - destruct (processDependence _ _ _ _ _ _) as [[[P1 PAD1]|]|] eqn:E;
      simpl in H; try discriminate.
    + destruct (processDependence_inv _ _ _ _ _ _ _ _ _ E)
        as [_ [H1 [H2 [H3 [H4 [H5 _]]]]]].
      destruct (IH _ _ _ _ _ H) as [G1 [G2 [G3 [G4 G5]]]].
      repeat split; congruence.
    + by inversion H; subst.
Qed.

Lemma processRegularDependenceis_keeps L P Diags ok P' Diags' :
  processRegularDependenceis BitWidth AccessInfo L P Diags
    = Some (ok, P', Diags') ->
  P_Induction P' = P_Induction P /\
  isFinal P' = isFinal P /\
  P_Private P' = P_Private P /\
  P_Reduction P' = P_Reduction P.
Proof.
  unfold processRegularDependenceis. intros H.
  destruct (D_Dependence (ASTDepInfo L)) as [|Dep Deps] eqn:ED.
  { by inversion H; subst. }
  destruct (Canonical L) as [[Step|]|]; simpl in H; try discriminate;
    [|by inversion H; subst].
  destruct AccessInfo as [AI|]; [|by inversion H; subst].
  destruct (processDependences _ _ _ _ _ _) as [[ok1 [P1 PAD]]|] eqn:E;
    simpl in H; [|discriminate].
  destruct (processDependences_keeps _ _ _ _ _ _ _ _ _ E)
    as [G1 [G2 [G3 [G4 G5]]]].
  destruct ok1.
  - destruct (PossibleAcrossDepth P1 =? 0); inversion H; subst; done.
  - by inversion H; subst.
Qed.

Lemma joinNest_induction L P :
  P_Induction (joinNest L P) = P_Induction P ++ [LoopID L].
Proof. unfold joinNest. by destruct (_ && _). Qed.

End ExtensionFacts.




(** The two loops of scenario B leave one location with one parallel item,
    whose induction sequence has both loops. *)
Example two_matching_loops_one_item :
  exists P1 E1 P2 E2,
    DemoLoops.exploitParallelism DemoNest.outer None DemoLoops.start
      = Some (Some P1, E1) /\
    P1 = DemoNest.P1 /\
    DemoLoops.exploitParallelism DemoNest.inner (Some P1) E1
      = Some (Some P2, E2) /\
    P_Induction P2 = [10; 20] /\
    map_to_list (mParallelizationInfo E2) =
      [(11, [ {| Anchor := 10;
                 Entry := [ ItemActual {["A"%string]};
                            ItemRegion
                              {| R_Private := {["j"%string]};
                                 R_ReadOccurred := {["A"%string]};
                                 R_WriteOccurred := {["A"%string]};
                                 R_HostOnly := false |};
                            ItemParallel ];
                 Exit := [ ItemMarker; ItemGetActual {["A"%string]} ] |} ])].
Proof.
  eexists _, _, _, _. split; [vm_compute; reflexivity|].
  split; [vm_compute; reflexivity|].
  split; [vm_compute; reflexivity|].
  split; vm_compute; reflexivity.
Qed.

(** ** The depth ceiling *)

(** C7, at a concrete input.  The loop over i opens an item without a
    ceiling.  The loop over j has a dependence on A with an empty flow and an
    empty anti distance vector: the local depth starts at 0, the ceiling
    becomes 0 + 1 = 1, and the loop joins the nest all the same.  The item has
    two induction variables over the ceiling 1, stays open, and violates the
    condition that [processRegularDependenceis] asserts. *)
Theorem exploitParallelism_grows_past_ceiling :
  exists P1 E1 P2 E2,
    DemoLoops.exploitParallelism DemoNest.outer None DemoLoops.start
      = Some (Some P1, E1) /\
    isFinal P1 = false /\
    DemoLoops.exploitParallelism DemoNest.innerNoDistance (Some P1) E1
      = Some (Some P2, E2) /\
    P_Induction P2 = [10; 20] /\
    PossibleAcrossDepth P2 = 1 /\
    isFinal P2 = false /\
    depthNotExceeded P2 = false /\
    ~ withinCeiling P2.
Proof.
  eexists _, _, _, _. split; [vm_compute; reflexivity|].
  split; [reflexivity|]. split; [vm_compute; reflexivity|].
  repeat split; try reflexivity.
  intros [H | H]; [discriminate|]. vm_compute in H. by apply H.
Qed.

Section CeilingFacts.
Variable BitWidth : N.
Variable AccessInfo : option DIArrayAccessInfo.

Lemma u32_small n : n < 2 ^ 32 -> u32 n = n.
Proof. intros H. unfold u32. by apply N.mod_small. Qed.

Lemma countDepth_bounds MinDepth Inner :
  forall PAD r,
    countDepth BitWidth MinDepth Inner PAD = Some r ->
    PAD + N.of_nat (length Inner) < 2 ^ 32 ->
    PAD <= r /\ r <= PAD + N.of_nat (length Inner).
Proof.
  induction Inner as [|Range Inner IH]; intros PAD r H Hb; simpl in H.
  - inversion H; subst. simpl. lia.
  - simpl length in Hb. destruct Range.1 as [X|]; simpl in H; [|discriminate].
    destruct ((X <? 0)%Z && revertCovers BitWidth X MinDepth).
    + inversion H; subst. lia.
    + rewrite u32_small in H by lia.
      destruct (IH _ _ H) as [G1 G2]; [lia|]. simpl length. lia.
Qed.

Lemma updatePAD_bounds V p r :
  updatePAD BitWidth V p = Some r ->
  N.of_nat (length V) < 2 ^ 32 ->
  1 <= p -> 1 <= r /\ r <= p.
Proof.
  unfold updatePAD. intros H Hb Hp. destruct V as [|Front Inner].
  - inversion H; subst. lia.
  - destruct Front.1 as [MinDepth|]; simpl in H; [|discriminate].
    destruct (countDepth _ _ _ _) as [k|] eqn:E; simpl in H; [|discriminate].
    inversion H; subst. simpl length in Hb.
    destruct (countDepth_bounds _ _ _ _ E) as [G1 G2]; lia.
Qed.

Lemma processDependences_depth AI ID Step Deps :
  forall P PAD ok P' PAD',
    processDependences BitWidth AI ID Step Deps (P, PAD)
      = Some (ok, (P', PAD')) ->
    Forall (fun Dep : string * DistanceInfo => vectorsFit Dep.2) Deps ->
    1 <= PAD -> 1 <= PAD' /\ PAD' <= PAD.
Proof.
  induction Deps as [|Dep Deps IH]; intros P PAD ok P' PAD' H HF Hp;
    unfold processDependences in H; fold processDependences in H.
  - inversion H; subst. lia.
  - inversion HF as [|? ? [HFl HAn] HF']; subst.
    destruct (processDependence _ _ _ _ _ _) as [[[P1 PAD1]|]|] eqn:E;
      simpl in H; try discriminate.
    + destruct (processDependence_inv _ _ _ _ _ _ _ _ _ E)
        as [_ [_ [_ [_ [_ [_ [PADf [U1 U2]]]]]]]].
      destruct (updatePAD_bounds _ _ _ U1 HFl Hp) as [B1 B2].
      destruct (updatePAD_bounds _ _ _ U2 HAn B1) as [B3 B4].
      destruct (IH _ _ _ _ _ H HF' B3). lia.
    + inversion H; subst. lia.
Qed.

Lemma initialDepth_bounds Deps :
  Deps <> [] ->
  Forall (fun Dep : string * DistanceInfo => vectorsFit Dep.2) Deps ->
  match Deps with [] => True | Dep :: _ => hasDistance Dep.2 end ->
  1 <= initialDepth Deps /\ initialDepth Deps < 2 ^ 32.
Proof.
  intros Hne HF HD. destruct Deps as [|Dep Deps]; [done|].
  inversion HF as [|? ? [HFl HAn] _]; subst.
  unfold initialDepth, usize, size_.
  destruct (Flow Dep.2) as [|F Fs] eqn:EF.
  - destruct HD as [HD|HD]; [by rewrite EF in HD|].
    rewrite u32_small by done.
    destruct (Anti Dep.2); [done|]. simpl length in *. lia.
  - rewrite u32_small by done. simpl length in *. lia.
Qed.

(** The ceiling that a successful [processRegularDependenceis] leaves has
    room for the loop. *)
Lemma processRegularDependenceis_room L P Diags P' Diags' :
  processRegularDependenceis BitWidth AccessInfo L P Diags
    = Some (true, P', Diags') ->
  distancesKnown L ->
  N.of_nat (length (P_Induction P)) +
    initialDepth (D_Dependence (ASTDepInfo L)) < 2 ^ 32 ->
  belowCeiling P ->
  P_Induction P' = P_Induction P /\ isFinal P' = isFinal P /\
  belowCeiling P'.
Proof.
  intros H [HF HD] Hb HP.
  destruct (processRegularDependenceis_keeps _ _ _ _ _ _ _ _ H)
    as [K1 [K2 _]].
  split; [done|]. split; [done|].
  destruct (processRegularDependenceis_true _ _ _ _ _ _ _ H)
    as [_ [[_ ->] | [Step [AI [P1 [PAD [Hne [_ [_ [E ->]]]]]]]]]]; [done|].
  destruct (processDependences_keeps _ _ _ _ _ _ _ _ _ _ E)
    as [G1 [G2 _]].
  destruct (initialDepth_bounds _ Hne HF HD) as [I1 I2].
  destruct (processDependences_depth _ _ _ _ _ _ _ _ _ E HF I1) as [D1 D2].
  unfold belowCeiling in *. cbn [PossibleAcrossDepth P_Induction
                                 setPossibleAcrossDepth].
  rewrite G1, G2. unfold size_. rewrite u32_small by lia.
  right. destruct (N.eqb_spec (PossibleAcrossDepth P) 0) as [H0|H0]; lia.
Qed.

Lemma processRegularDependenceis_false_depth L P Diags P' Diags' :
  processRegularDependenceis BitWidth AccessInfo L P Diags
    = Some (false, P', Diags') ->
  PossibleAcrossDepth P' = PossibleAcrossDepth P.
Proof.
  unfold processRegularDependenceis. intros H.
  destruct (D_Dependence (ASTDepInfo L)) as [|Dep Deps] eqn:ED;
    [discriminate|].
  destruct (Canonical L) as [[Step|]|]; simpl in H; try discriminate;
    [|by inversion H; subst].
  destruct AccessInfo as [AI|]; [|by inversion H; subst].
  destruct (processDependences _ _ _ _ _ _) as [[ok1 [P1 PAD]]|] eqn:E;
    simpl in H; [|discriminate].
  destruct (processDependences_keeps _ _ _ _ _ _ _ _ _ _ E) as [_ [G2 _]].
  destruct ok1; [discriminate|]. by inversion H; subst.
Qed.

Lemma joinNest_ceiling L P :
  N.of_nat (length (P_Induction P)) + 1 < 2 ^ 32 ->
  belowCeiling P ->
  withinCeiling (joinNest L P) /\
  (isFinal (joinNest L P) = false -> belowCeiling (joinNest L P)).
Proof.
  intros Hb HP. unfold joinNest, withinCeiling, belowCeiling in *.
  cbn [addInduction P_Induction PossibleAcrossDepth isFinal].
  assert (HL : N.of_nat (length (P_Induction P ++ [LoopID L]))
               = N.of_nat (length (P_Induction P)) + 1).
  { rewrite length_app. simpl. lia. }
  unfold size_. rewrite HL.
  destruct (negb (isFinal P) && _) eqn:EC;
    unfold finalize, addInduction;
    cbn [P_Induction PossibleAcrossDepth isFinal]; rewrite HL.
  - split; [lia|discriminate].
  - split; [lia|]. intros HFin. rewrite HFin in EC. simpl in EC.
    apply orb_false_elim in EC as [_ EC].
    apply andb_false_iff in EC as [EC|EC].
    + apply negb_false_iff, N.eqb_eq in EC. by left.
    + apply N.eqb_neq in EC. lia.
Qed.
End CeilingFacts.

(** For loops whose dependence records have a distance, one call of
    [exploitParallelism] on no item or on an open item below its ceiling
    leaves an item within its ceiling, and below it when the item stays
    open. *)
Lemma exploitParallelism_within_ceiling
    (BitWidth : N) (AccessInfo : option DIArrayAccessInfo) (L : LoopFacts)
    (PI : option PragmaParallel) (E E' : EngineState) (P' : PragmaParallel) :
  distancesKnown L ->
  match PI with
  | Some P =>
      belowCeiling P /\
      N.of_nat (length (P_Induction P)) +
        initialDepth (D_Dependence (ASTDepInfo L)) + 1 < 2 ^ 32
  | None => initialDepth (D_Dependence (ASTDepInfo L)) + 1 < 2 ^ 32
  end ->
  exploitParallelism BitWidth AccessInfo L PI E = Some (Some P', E') ->
  withinCeiling P' /\ (isFinal P' = false -> belowCeiling P').
Proof.
  intros HK HPI H. unfold exploitParallelism in H.
  assert (Hfin : forall P, belowCeiling P ->
            withinCeiling (finalize P) /\
            (isFinal (finalize P) = false -> belowCeiling (finalize P))).
  { intros P HP. split; [|discriminate].
    unfold withinCeiling, belowCeiling in *. simpl. lia. }
  match type of H with
  | (if ?c then _ else _) = _ => destruct c eqn:EQ
  end.
  { destruct PI as [P|]; simpl in H; [|discriminate].
    inversion H; subst. apply Hfin. tauto. }
  destruct PI as [P|].
  - destruct HPI as [HP Hb]. unfold extendItem in H.
    match type of H with
    | (if ?c then _ else _) = _ => destruct c eqn:EM
    end.
    { inversion H; subst. by apply Hfin. }
    destruct (processRegularDependenceis _ _ _ _ _) as [[[ok P2] Diags]|] eqn:EP;
      simpl in H; [|discriminate].
    destruct ok.
    + destruct (processRegularDependenceis_room _ _ _ _ _ _ _ EP HK)
        as [K1 [K2 K3]]; [simpl; lia|done|].
      inversion H; subst. apply joinNest_ceiling; [|done].
      rewrite K1. simpl. lia.
    + destruct (processRegularDependenceis_keeps _ _ _ _ _ _ _ _ EP)
        as [K1 _].
      pose proof (processRegularDependenceis_false_depth _ _ _ _ _ _ _ EP)
        as K2.
      inversion H; subst. split; [|discriminate].
      unfold withinCeiling, belowCeiling in *.
      cbn [finalize PossibleAcrossDepth P_Induction]. rewrite K1, K2.
      simpl. lia.
  - unfold createItem in H.
    destruct (processRegularDependenceis _ _ _ _ _) as [[[ok P2] Diags]|] eqn:EP;
      simpl in H; [|discriminate].
    destruct ok; simpl in H; [|discriminate].
    destruct (processRegularDependenceis_room _ _ _ _ _ _ _ EP HK)
      as [K1 [K2 K3]]; [simpl; lia|by left|].
    simpl in K1.
    inversion H; subst. apply joinNest_ceiling.
    + destruct (_ && _); cbn [finalize P_Induction]; rewrite K1; simpl; lia.
    + by destruct (_ && _).
Qed.

(** ** The callers of [MergedLocations::find] *)

(** [insertAlignment] looks up the location and the start of every
    redeclaration that has merged locations: when one of the two is not an
    original location of the stored lists, the call has no defined result. *)
Lemma insertForRedecl_needs_original_locations
    (SM : SourceManager) (Import : ASTImportInfo.t)
    (Decls : DeclarationInfoMap) (Align Array : string) (Redecl : VarDecl)
    (st : SourceLocation * WriterState) (Merged : MergedLocations.t) :
  ASTImportInfo.RedeclLocs Import !! declID Redecl = Some Merged ->
  MergedLocations.wf Merged ->
  getLocation Redecl ∉ MergedLocations.originals Merged \/
  getLocStart Redecl ∉ MergedLocations.originals Merged ->
  insertForRedecl SM Import Decls Align Array Redecl st = None.
Proof.
  intros HM Hwf Hnot. unfold insertForRedecl. destruct st as [L s].
  rewrite HM.
  assert (HN : MergedLocations.find Merged (getLocation Redecl) = None \/
               MergedLocations.find Merged (getLocStart Redecl) = None).
  { destruct Hnot as [H|H]; [left|right]; by apply find_None. }
  destruct (isThisDeclarationADefinition Redecl);
    repeat match goal with
           | |- context [if ?c then _ else _] => destruct c
           end;
    destruct HN as [-> | HN]; try done;
    destruct (MergedLocations.find Merged (getLocation Redecl)); simpl;
    try done; by rewrite HN.
Qed.


(** X1.  lib/APC/DVMHWriter.cpp: at a rewritable point that the ledger does
    not bind yet, two calls of [insertDirective] with one text make one
    insertion: the second call returns the state of the first, the rewriter
    has the old insertions followed by the directive (and by the line break
    when the point does not start a line), and no diagnostic is added. *)
Theorem insertDirective_twice_inserts_once
    (SM : SourceManager) (s : WriterState) (L : SourceLocation) (T : string) :
  decomposes SM L ->
  mInsertedDirs s !! getLocationToTransform SM s L = None ->
  Loc.isFileID (getLocationToTransform SM s L) = true ->
  DVMHWriter.insertDirective SM L T (DVMHWriter.insertDirective SM L T s)
    = DVMHWriter.insertDirective SM L T s /\
  mRewriter (DVMHWriter.insertDirective SM L T s) =
    mRewriter s ++
    Build_Edit (getLocationToTransform SM s L) T false ::
      (if negb (getLocationToTransform SM s L =?
                getStartOfLine SM (getLocationToTransform SM s L))
       then [Build_Edit (getLocationToTransform SM s L) Str.nl false]
       else []) /\
  mInsertedDirs (DVMHWriter.insertDirective SM L T s)
    !! getLocationToTransform SM s L = Some T /\
  mDiags (DVMHWriter.insertDirective SM L T s) = mDiags s.
Proof.
  intros Hdec Hnone HW.
  split; [by apply insertDirective_idempotent|].
  assert (E : DVMHWriter.insertDirective SM L T s =
              performInsertion SM (getLocationToTransform SM s L) T s).
  { unfold DVMHWriter.insertDirective. simpl. by rewrite Hnone. }
  rewrite E. split; [by apply performInsertion_edits|].
  split; [by apply performInsertion_dirs|apply performInsertion_diags].
Qed.

Lemma insertDirective_twice_inserts_once_witness :
  DVMHWriter.insertDirective Demo.SM 45 "#pragma dvm array"
    (DVMHWriter.insertDirective Demo.SM 45 "#pragma dvm array" releaseMemory)
    = DVMHWriter.insertDirective Demo.SM 45 "#pragma dvm array" releaseMemory /\
  mRewriter (DVMHWriter.insertDirective Demo.SM 45 "#pragma dvm array"
               releaseMemory) =
    [Build_Edit 45 "#pragma dvm array" false; Build_Edit 45 Str.nl false].
Proof.
  destruct (insertDirective_twice_inserts_once Demo.SM releaseMemory 45
              "#pragma dvm array") as (H1 & H2 & _);
    [vm_compute; reflexivity..|].
  split; [exact H1|]. rewrite H2. reflexivity.
Defined.

(** X2.  When a file is transformed for the first time through one of its
    representations, a location of another representation of the same file
    (the same file name, the same offset) resolves to the point of the first
    one: the same text there is not inserted again, and a different text is
    refused with the two diagnostics at the point of the first
    representation. *)
Theorem insertDirective_other_representation
    (SM : SourceManager) (s : WriterState) (L1 L2 : SourceLocation)
    (T T' : string) :
  decomposes SM L1 ->
  mTransformedFiles s !! getFilename SM L1 = None ->
  mInsertedDirs s !! L1 = None ->
  getFilename SM L2 = getFilename SM L1 ->
  (getDecomposedLoc SM L2).2 = (getDecomposedLoc SM L1).2 ->
  T' <> T ->
  getLocationToTransform SM (DVMHWriter.insertDirective SM L1 T s) L2 = L1 /\
  DVMHWriter.insertDirective SM L2 T (DVMHWriter.insertDirective SM L1 T s)
    = DVMHWriter.insertDirective SM L1 T s /\
  mRewriter (DVMHWriter.insertDirective SM L2 T'
               (DVMHWriter.insertDirective SM L1 T s))
    = mRewriter (DVMHWriter.insertDirective SM L1 T s) /\
  mDiags (DVMHWriter.insertDirective SM L2 T'
            (DVMHWriter.insertDirective SM L1 T s))
    = mDiags s ++
      [Diag err_apc_insert_dvm_directive (Some L1) (Some (Str.trim T'));
       Diag note_apc_insert_multiple_directives (Some L1) None].
Proof.
  intros Hdec Hfile Hnone Hname Hoff Hne.
  assert (HW : getLocationToTransform SM s L1 = L1).
  { unfold getLocationToTransform. by rewrite Hfile. }
  assert (E : DVMHWriter.insertDirective SM L1 T s = performInsertion SM L1 T s).
  { unfold DVMHWriter.insertDirective. simpl. by rewrite HW, Hnone. }
  rewrite E.
  assert (HR : getLocationToTransform SM (performInsertion SM L1 T s) L2 = L1).
  { unfold getLocationToTransform. rewrite performInsertion_files, Hname.
    rewrite try_emplace_lookup_None by done. by rewrite Hoff. }
  assert (HB : mInsertedDirs (performInsertion SM L1 T s) !! L1 = Some T)
    by by apply performInsertion_dirs.
  split; [done|]. split.
  - apply insertDirective_same_text. by rewrite HR.
  - assert (E2 : DVMHWriter.insertDirective SM L2 T' (performInsertion SM L1 T s)
                 = diagnoseMultiple L1 T' (performInsertion SM L1 T s)).
    { unfold DVMHWriter.insertDirective. cbv zeta. rewrite HR, HB.
      assert (Hneq : String.eqb T T' = false)
        by (apply String.eqb_neq; congruence).
      by rewrite Hneq. }
    rewrite E2. split; [done|]. unfold diagnoseMultiple, toDiag.
    cbn [mDiags]. rewrite performInsertion_diags. by rewrite <- app_assoc.
Qed.

Lemma insertDirective_other_representation_witness :
  getLocationToTransform DemoTwice.SM
    (DVMHWriter.insertDirective DemoTwice.SM 45 "#pragma dvm array"
       releaseMemory) 1043 = 45 /\
  DVMHWriter.insertDirective DemoTwice.SM 1043 "#pragma dvm array"
    (DVMHWriter.insertDirective DemoTwice.SM 45 "#pragma dvm array"
       releaseMemory)
  = DVMHWriter.insertDirective DemoTwice.SM 45 "#pragma dvm array"
      releaseMemory.
Proof.
  destruct (insertDirective_other_representation DemoTwice.SM releaseMemory
              45 1043 "#pragma dvm array" "#pragma dvm align")
    as (H1 & H2 & _); [vm_compute; reflexivity..|discriminate|].
  split; [exact H1|exact H2].
Defined.

(** X3.  [insertAlignment] loses nothing: every binding of the ledger and
    every transformed file of the state before the call is in the state
    after it, and the insertions and diagnostics made before are a prefix of
    those after. *)
Theorem insertAlignment_keeps_ledger
    (SM : SourceManager) (getPragmaText : PragmaId -> string)
    (extractTplDimsAlignmentIndexes : AlignRule -> list nat)
    (genStringExpr : string -> Z * Z -> string)
    (Import : ASTImportInfo.t) (Decls : DeclarationInfoMap) (AR : AlignRule)
    (V : Variable_) (s s' : WriterState) (DefinitionLoc : SourceLocation) :
  insertAlignment SM getPragmaText extractTplDimsAlignmentIndexes
                  genStringExpr Import Decls AR V s
    = Some (DefinitionLoc, s') ->
  ledgerGrows s s'.
Proof.
  apply (insertAlignment_across SM ledgerGrows).
  - apply ledgerGrows_refl.
  - apply ledgerGrows_trans.
  - intros. apply insertDataDirective_grows.
  - intros. apply toDiag_grows.
Qed.

Lemma insertAlignment_keeps_ledger_witness :
  exists DefinitionLoc s',
    DemoAlign.insertAlignment ASTImportInfo.stub ∅ DemoAlign.AR DemoAlign.B
      (DVMHWriter.insertDirective Demo.SM 45 "#pragma dvm array"
         releaseMemory) = Some (DefinitionLoc, s') /\
    mInsertedDirs s' !! 45 = Some "#pragma dvm array"%string.
Proof.
  destruct (DemoAlign.insertAlignment ASTImportInfo.stub ∅ DemoAlign.AR
              DemoAlign.B
              (DVMHWriter.insertDirective Demo.SM 45 "#pragma dvm array"
                 releaseMemory)) as [[L s']|] eqn:E;
    [|vm_compute in E; discriminate].
  exists L, s'. split; [reflexivity|].
  apply (insertAlignment_keeps_ledger _ _ _ _ _ _ _ _ _ _ _ E).
  vm_compute. reflexivity.
Defined.

Section ConsistencyFacts.
Variable SM : SourceManager.

Lemma performInsertion_consistent s W DirStr :
  mInsertedDirs s !! W = None ->
  ledgerConsistent SM s -> ledgerConsistent SM (performInsertion SM W DirStr s).
Proof.
  intros Hnone Hc W' T' HB.
  rewrite performInsertion_inserted in HB. unfold try_emplace in HB.
  rewrite Hnone in HB. rewrite performInsertion_files.
  destruct (performInsertion_extends SM s W DirStr) as [new [Enew _]].
  destruct (decide (W' = W)) as [->|Hne].
  - rewrite lookup_insert_eq in HB. inversion HB; subst T'. split.
    + destruct (mTransformedFiles s !! getFilename SM W) as [FID|] eqn:EF.
      * exists FID. by eapply try_emplace_lookup_Some.
      * eexists. by apply try_emplace_lookup_None.
    + intros HW. rewrite performInsertion_edits by done.
      rewrite insertedAt_app. apply elem_of_app. right.
      unfold Rewriter.insertedAt. rewrite filter_cons_True by done.
      simpl. left.
  - rewrite lookup_insert_ne in HB by done.
    destruct (Hc _ _ HB) as [[FID HF] HT]. split.
    + exists FID. by eapply try_emplace_lookup_Some.
    + intros HW. rewrite Enew, insertedAt_app. apply elem_of_app. left. auto.
Qed.

Lemma insertDirective_consistent s L DirStr :
  ledgerConsistent SM s ->
  ledgerConsistent SM (DVMHWriter.insertDirective SM L DirStr s).
Proof.
  intros Hc. unfold DVMHWriter.insertDirective. cbv zeta.
  destruct (mInsertedDirs s !! getLocationToTransform SM s L) as [Prev|] eqn:E.
  - destruct (String.eqb Prev DirStr); [done|]. exact Hc.
  - by apply performInsertion_consistent.
Qed.

Lemma insertDataDirective_consistent s DeclLoc Decls Where DirStr :
  ledgerConsistent SM s ->
  ledgerConsistent SM (insertDataDirective SM DeclLoc Decls Where DirStr s).
Proof.
  intros Hc. unfold insertDataDirective.
  destruct (Loc.isMacroID Where); [exact Hc|].
  destruct (Decls !! DeclLoc) as [[|]|];
    first [by apply insertDirective_consistent | exact Hc].
Qed.
End ConsistencyFacts.

(** X4.  [insertAlignment] keeps the ledger consistent with the rewriter:
    when every binding of the ledger has its file recorded as transformed and
    its text among the texts inserted at its point, the same holds after the
    call. *)
Theorem insertAlignment_keeps_consistency
    (SM : SourceManager) (getPragmaText : PragmaId -> string)
    (extractTplDimsAlignmentIndexes : AlignRule -> list nat)
    (genStringExpr : string -> Z * Z -> string)
    (Import : ASTImportInfo.t) (Decls : DeclarationInfoMap) (AR : AlignRule)
    (V : Variable_) (s s' : WriterState) (DefinitionLoc : SourceLocation) :
  ledgerConsistent SM s ->
  insertAlignment SM getPragmaText extractTplDimsAlignmentIndexes
                  genStringExpr Import Decls AR V s
    = Some (DefinitionLoc, s') ->
  ledgerConsistent SM s'.
Proof.
  intros Hc H.
  exact (insertAlignment_across SM
           (fun a b => ledgerConsistent SM a -> ledgerConsistent SM b)
           (fun s0 H0 => H0)
           (fun s1 s2 s3 H12 H23 H0 => H23 (H12 H0))
           (fun s0 a b c d H0 => insertDataDirective_consistent SM s0 a b c d H0)
           (fun s0 K L A H0 => H0)
           _ _ _ _ _ _ _ _ _ _ H Hc).
Qed.

Lemma insertAlignment_keeps_consistency_witness :
  exists DefinitionLoc s',
    DemoAlign.insertAlignment ASTImportInfo.stub ∅ DemoAlign.AR DemoAlign.B
      releaseMemory = Some (DefinitionLoc, s') /\
    ledgerConsistent Demo.SM s'.
Proof.
  destruct (DemoAlign.insertAlignment ASTImportInfo.stub ∅ DemoAlign.AR
              DemoAlign.B releaseMemory) as [[L s']|] eqn:E;
    [|vm_compute in E; discriminate].
  exists L, s'. split; [reflexivity|].
  assert (Hc : ledgerConsistent Demo.SM releaseMemory).
  { intros W T HB. simpl in HB. by rewrite lookup_empty in HB. }
  exact (insertAlignment_keeps_consistency _ _ _ _ _ _ _ _ _ _ _ Hc E).
Defined.

(** ** The shape of declarations *)

Section DeclShapeFacts.

Lemma eventLoc_inj_on (evs : list DeclEvent) e1 e2 :
  NoDup (eventLoc <$> evs) -> e1 ∈ evs -> e2 ∈ evs ->
  eventLoc e1 = eventLoc e2 -> e1 = e2.
Proof.
  induction evs as [|e evs IH]; intros Hnd H1 H2 Heq.
  - by apply elem_of_nil in H1.
  - rewrite fmap_cons in Hnd. apply NoDup_cons in Hnd as [Hnotin Hnd].
    apply elem_of_cons in H1 as [->|H1]; apply elem_of_cons in H2 as [->|H2].
    + done.
    + exfalso. apply Hnotin. rewrite Heq. by apply list_elem_of_fmap_2.
    + exfalso. apply Hnotin. rewrite <- Heq. by apply list_elem_of_fmap_2.
    + by apply IH.
Qed.

Lemma applyEvents_flags (evs : list DeclEvent) (Decls : DeclarationInfoMap) :
  NoDup (eventLoc <$> evs) ->
  flagsOf evs (fold_left applyEvent evs (∅, Decls)).
Proof.
  induction evs as [|ev evs IH] using rev_ind; intros Hnd.
  - unfold flagsOf. simpl. repeat split.
    + intros S Lf H. by rewrite lookup_empty in H.
    + intros S _ L H. by apply elem_of_nil in H.
    + intros S L H. by apply elem_of_nil in H.
    + intros L H. by apply elem_of_nil in H.
  - rewrite fmap_app in Hnd. apply NoDup_app in Hnd as (Hnd & Hfresh & _).
    assert (Hnew : forall e, e ∈ evs -> eventLoc e <> eventLoc ev).
    { intros e He Heq. apply (Hfresh (eventLoc e)).
      - by apply list_elem_of_fmap_2.
      - rewrite Heq. simpl. apply list_elem_of_singleton. done. }
    specialize (IH Hnd). rewrite fold_left_app. simpl.
    destruct (fold_left applyEvent evs (∅, Decls)) as [F D].
    destruct IH as (I1 & I2 & I3 & I4). simpl in I1, I2, I3, I4.
    unfold flagsOf.
    destruct ev as [S L|L]; simpl.
    + unfold checkSingleDecl. simpl.
      destruct (F !! S) as [Lf|] eqn:EF.
      * (* the start of the statement has been seen *)
        assert (HLf : EvGlobal S Lf ∈ evs) by by apply I1.
        assert (HLfL : Lf <> L) by exact (Hnew _ HLf).
        repeat split; simpl.
        -- intros S' L' H. apply elem_of_app. left. by apply I1.
        -- intros S' H L' Hin. apply elem_of_app in Hin as [Hin|Hin].
           ++ by apply (I2 S' H L').
           ++ apply list_elem_of_singleton in Hin. congruence.
        -- intros S' L' Hin. apply elem_of_app in Hin as [Hin|Hin].
           ++ assert (L' <> L) by exact (Hnew _ Hin).
              destruct (decide (L' = Lf)) as [->|HneLf].
              ** assert (S' = S).
                 { assert (EvGlobal S' Lf = EvGlobal S Lf) as Heq
                     by by apply (eventLoc_inj_on evs).
                   congruence. }
                 subst S'. exists false. split.
                 --- rewrite lookup_insert_ne by done.
                     by rewrite lookup_insert_eq.
                 --- split; [done|]. intros Hall. exfalso.
                     apply HLfL. symmetry. apply Hall.
                     apply elem_of_app. right.
                     by apply list_elem_of_singleton.
              ** destruct (I3 S' L' Hin) as (b & Hb & Hiff).
                 exists b. split.
                 --- by rewrite !lookup_insert_ne by done.
                 --- destruct (decide (S' = S)) as [->|HneS].
                     +++ split.
                         *** intros Hbt. exfalso. apply HneLf. symmetry.
                             by apply (proj1 Hiff Hbt).
                         *** intros Hall. exfalso. apply HneLf. symmetry.
                             apply Hall. apply elem_of_app. by left.
                     +++ rewrite Hiff. split.
                         *** intros Hall L'' Hin'.
                             apply elem_of_app in Hin' as [Hin'|Hin'].
                             ---- by apply Hall.
                             ---- apply list_elem_of_singleton in Hin'.
                                  congruence.
                         *** intros Hall L'' Hin'. apply Hall.
                             apply elem_of_app. by left.
           ++ apply list_elem_of_singleton in Hin. inversion Hin; subst S' L'.
              exists false. split; [by rewrite lookup_insert_eq|].
              split; [done|]. intros Hall. exfalso. apply HLfL.
              apply Hall. apply elem_of_app. by left.
        -- intros L' Hin. apply elem_of_app in Hin as [Hin|Hin].
           ++ assert (L' <> L) by exact (Hnew _ Hin).
              assert (L' <> Lf).
              { intros ->.
                assert (EvLocal Lf = EvGlobal S Lf) as Heq
                  by by apply (eventLoc_inj_on evs).
                discriminate. }
              rewrite !lookup_insert_ne by done. by apply I4.
           ++ apply list_elem_of_singleton in Hin. discriminate.
      * (* the first declaration of its statement *)
        assert (HS : forall L', EvGlobal S L' ∉ evs) by by apply I2.
        repeat split; simpl.
        -- intros S' L' H. apply elem_of_app.
           destruct (decide (S' = S)) as [->|Hne].
           ++ rewrite lookup_insert_eq in H. inversion H; subst.
              right. by apply list_elem_of_singleton.
           ++ rewrite lookup_insert_ne in H by done. left. by apply I1.
        -- intros S' H L' Hin.
           destruct (decide (S' = S)) as [->|Hne].
           ++ by rewrite lookup_insert_eq in H.
           ++ rewrite lookup_insert_ne in H by done.
              apply elem_of_app in Hin as [Hin|Hin].
              ** by apply (I2 S' H L').
              ** apply list_elem_of_singleton in Hin. congruence.
        -- intros S' L' Hin. apply elem_of_app in Hin as [Hin|Hin].
           ++ assert (L' <> L) by exact (Hnew _ Hin).
              assert (S' <> S) by (intros ->; by apply (HS L')).
              destruct (I3 S' L' Hin) as (b & Hb & Hiff).
              exists b. split; [by rewrite lookup_insert_ne by done|].
              rewrite Hiff. split.
              ** intros Hall L'' Hin'.
                 apply elem_of_app in Hin' as [Hin'|Hin'].
                 --- by apply Hall.
                 --- apply list_elem_of_singleton in Hin'. congruence.
              ** intros Hall L'' Hin'. apply Hall.
                 apply elem_of_app. by left.
           ++ apply list_elem_of_singleton in Hin. inversion Hin; subst S' L'.
              exists true. split; [by rewrite lookup_insert_eq|].
              split; [|done]. intros _ L'' Hin'.
              apply elem_of_app in Hin' as [Hin'|Hin'].
              ** exfalso. by apply (HS L'').
              ** apply list_elem_of_singleton in Hin'. congruence.
        -- intros L' Hin. apply elem_of_app in Hin as [Hin|Hin].
           ++ assert (L' <> L) by exact (Hnew _ Hin).
              rewrite lookup_insert_ne by done. by apply I4.
           ++ apply list_elem_of_singleton in Hin. discriminate.
    + (* a variable of a function *)
      repeat split; simpl.
      * intros S' L' H. apply elem_of_app. left. by apply I1.
      * intros S' H L' Hin. apply elem_of_app in Hin as [Hin|Hin].
        -- by apply (I2 S' H L').
        -- apply list_elem_of_singleton in Hin. discriminate.
      * intros S' L' Hin. apply elem_of_app in Hin as [Hin|Hin].
        -- assert (L' <> L) by exact (Hnew _ Hin).
           destruct (I3 S' L' Hin) as (b & Hb & Hiff).
           exists b. split; [by rewrite lookup_insert_ne by done|].
           rewrite Hiff. split.
           ++ intros Hall L'' Hin'.
              apply elem_of_app in Hin' as [Hin'|Hin'].
              ** by apply Hall.
              ** apply list_elem_of_singleton in Hin'. discriminate.
           ++ intros Hall L'' Hin'. apply Hall. apply elem_of_app. by left.
        -- apply list_elem_of_singleton in Hin. discriminate.
      * intros L' Hin. apply elem_of_app in Hin as [Hin|Hin].
        -- assert (L' <> L) by exact (Hnew _ Hin).
           rewrite lookup_insert_ne by done. by apply I4.
        -- apply list_elem_of_singleton in Hin. inversion Hin; subst.
           by rewrite lookup_insert_eq.
Qed.

Lemma markLocals_events decls st :
  (FirstGlobalAtLoc (markLocals decls st), Decls_ (markLocals decls st)) =
  fold_left applyEvent
    ((fun D => EvLocal (declLocation D)) <$>
       filter (fun D => isVarDecl D = true) decls)
    (FirstGlobalAtLoc st, Decls_ st).
Proof.
  unfold markLocals. revert st.
  induction decls as [|D decls IH]; intros st; [done|].
  rewrite filter_cons. cbn [fold_left].
  destruct (decide (isVarDecl D = true)) as [E|E].
  - rewrite E, IH. done.
  - apply not_true_is_false in E. rewrite E, IH. done.
Qed.

Lemma initializeDecls_events Import Unit st :
  (forall VD C, TopVar VD C ∈ Unit ->
     ASTImportInfo.RedeclLocs Import !! declID VD = None) ->
  exists st', initializeDecls Import Unit st = Some st' /\
    (FirstGlobalAtLoc st', Decls_ st') =
    fold_left applyEvent (eventsOf Unit) (FirstGlobalAtLoc st, Decls_ st).
Proof.
  revert st. induction Unit as [|D Unit IH]; intros st Hno.
  - by exists st.
  - assert (Hno' : forall VD C, TopVar VD C ∈ Unit ->
              ASTImportInfo.RedeclLocs Import !! declID VD = None).
    { intros VD C H. apply (Hno VD C). by apply elem_of_cons; right. }
    unfold eventsOf. rewrite bind_cons. fold (eventsOf Unit).
    rewrite fold_left_app. simpl initializeDecls.
    destruct D as [hasBody decls|VD C|].
    + cbn [initializeDecl mbind option_bind].
      destruct hasBody.
      * destruct (IH (markLocals decls st) Hno') as (st' & -> & Hst').
        exists st'. split; [done|]. by rewrite Hst', markLocals_events.
      * destruct (IH st Hno') as (st' & -> & Hst'). by exists st'.
    + cbn [initializeDecl]. unfold checkGlobal.
      rewrite (Hno VD C) by (by apply elem_of_cons; left).
      cbn [mbind option_bind].
      destruct (checkSingleDecl (getLocStart VD) (getLocation VD)
                  (FirstGlobalAtLoc st, Decls_ st)) as [F Dm] eqn:E.
      cbn [mbind option_bind].
      match goal with
      | |- exists st', initializeDecls Import Unit ?s = _ /\ _ =>
          destruct (IH s Hno') as (st' & -> & Hst')
      end.
      exists st'. split; [done|]. rewrite Hst'. simpl. by rewrite E.
    + cbn [initializeDecl mbind option_bind].
      destruct (IH st Hno') as (st' & -> & Hst'). by exists st'.
Qed.

Lemma eventsOf_global Unit S L :
  EvGlobal S L ∈ eventsOf Unit <->
  exists VD C, TopVar VD C ∈ Unit /\ S = getLocStart VD /\ L = getLocation VD.
Proof.
  unfold eventsOf. rewrite list_elem_of_bind. split.
  - intros (D & Hin & HD). destruct D as [[] decls|VD C|].
    + apply list_elem_of_fmap in Hin as (? & ? & _). discriminate.
    + by apply elem_of_nil in Hin.
    + apply list_elem_of_singleton in Hin. inversion Hin; subst. eauto.
    + by apply elem_of_nil in Hin.
  - intros (VD & C & Hin & -> & ->). exists (TopVar VD C).
    split; [|done]. by apply list_elem_of_singleton.
Qed.

Lemma eventsOf_local Unit L :
  EvLocal L ∈ eventsOf Unit <->
  exists decls D, TopFunction true decls ∈ Unit /\ D ∈ decls /\
                  isVarDecl D = true /\ L = declLocation D.
Proof.
  unfold eventsOf. rewrite list_elem_of_bind. split.
  - intros (D & Hin & HD). destruct D as [[] decls|VD C|].
    + apply list_elem_of_fmap in Hin as (D & Heq & Hin).
      apply list_elem_of_filter in Hin as [Hv Hin]. inversion Heq; subst.
      eauto 6.
    + by apply elem_of_nil in Hin.
    + apply list_elem_of_singleton in Hin. discriminate.
    + by apply elem_of_nil in Hin.
  - intros (decls & D & Hin & HD & Hv & ->). exists (TopFunction true decls).
    split; [|done]. apply list_elem_of_fmap. exists D. split; [done|].
    by apply list_elem_of_filter.
Qed.

(** The flags after [initializeDeclInfo], when no global variable has merged
    locations and no two declarations share a location. *)
Lemma initializeDeclInfo_flags Import Unit Decls Canonical :
  (forall VD C, TopVar VD C ∈ Unit ->
     ASTImportInfo.RedeclLocs Import !! declID VD = None) ->
  NoDup (declaredLocations Unit) ->
  exists Decls' Canonical',
    initializeDeclInfo Import Unit Decls Canonical =
      Some (Decls', Canonical') /\
    (forall VD C, TopVar VD C ∈ Unit ->
       exists b, Decls' !! getLocation VD = Some b /\
         (b = true <->
          forall VD' C', TopVar VD' C' ∈ Unit ->
            getLocStart VD' = getLocStart VD ->
            getLocation VD' = getLocation VD)) /\
    (forall decls D, TopFunction true decls ∈ Unit -> D ∈ decls ->
       isVarDecl D = true -> Decls' !! declLocation D = Some false).
Proof.
  intros Hno Hnd. unfold initializeDeclInfo.
  destruct (initializeDecls_events Import Unit
              {| FirstGlobalAtLoc := ∅; Decls_ := Decls;
                 CanonicalDecls := Canonical |} Hno) as (st' & -> & Hst').
  cbn [mbind option_bind]. exists (Decls_ st'), (CanonicalDecls st').
  split; [done|].
  pose proof (applyEvents_flags (eventsOf Unit) Decls Hnd) as Hfl.
  simpl in Hst'. rewrite <- Hst' in Hfl.
  destruct Hfl as (_ & _ & I3 & I4). simpl in I3, I4. split.
  - intros VD C Hin.
    destruct (I3 (getLocStart VD) (getLocation VD)) as (b & Hb & Hiff).
    { apply eventsOf_global. eauto. }
    exists b. split; [done|]. rewrite Hiff. split.
    + intros Hall VD' C' Hin' Hs. apply Hall. apply eventsOf_global.
      exists VD', C'. eauto.
    + intros Hall L' Hin'.
      apply eventsOf_global in Hin' as (VD' & C' & Hin' & Hs & ->).
      by apply (Hall VD' C').
  - intros decls D Hin HD Hv. apply I4. apply eventsOf_local. eauto 6.
Qed.

End DeclShapeFacts.

(** X5.  lib/APC/DVMHWriter.cpp, [initializeDeclInfo]: when no global
    variable of the unit has merged locations and no two declarations share a
    location, the pass succeeds and the flag [IsSingleDeclStmt] of a global
    variable is true exactly when every global variable whose statement starts
    where its statement starts is that variable; the flag of a variable of a
    function with a body is false. *)
Theorem initializeDeclInfo_marks_single_globals
    (Import : ASTImportInfo.t) (Unit : list TopDecl)
    (Decls : DeclarationInfoMap) (Canonical : gset N) :
  (forall VD C, TopVar VD C ∈ Unit ->
     ASTImportInfo.RedeclLocs Import !! declID VD = None) ->
  NoDup (declaredLocations Unit) ->
  exists Decls' Canonical',
    initializeDeclInfo Import Unit Decls Canonical =
      Some (Decls', Canonical') /\
    (forall VD C, TopVar VD C ∈ Unit ->
       exists b, Decls' !! getLocation VD = Some b /\
         (b = true <->
          forall VD' C', TopVar VD' C' ∈ Unit ->
            getLocStart VD' = getLocStart VD ->
            getLocation VD' = getLocation VD)) /\
    (forall decls D, TopFunction true decls ∈ Unit -> D ∈ decls ->
       isVarDecl D = true -> Decls' !! declLocation D = Some false).
Proof.
  intros Hno Hnd. by apply initializeDeclInfo_flags.
Qed.

Lemma initializeDeclInfo_marks_single_globals_witness :
  exists Decls' Canonical',
    initializeDeclInfo ASTImportInfo.stub DemoUnit.Unit ∅ ∅ =
      Some (Decls', Canonical') /\
    Decls' !! 35 = Some false.
Proof.
  destruct (initializeDeclInfo_marks_single_globals ASTImportInfo.stub
              DemoUnit.Unit ∅ ∅) as (D' & C' & H & _ & Hloc).
  - intros VD C _. apply lookup_empty.
  - apply (bool_decide_unpack _). vm_compute. reflexivity.
  - exists D', C'. split; [exact H|].
    apply (Hloc [DemoUnit.W] DemoUnit.W).
    + unfold DemoUnit.Unit. do 3 apply list_elem_of_further.
      apply list_elem_of_here.
    + apply list_elem_of_here.
    + reflexivity.
Defined.

(** X6.  lib/APC/DVMHWriter.cpp, [initializeDeclInfo] then
    [insertDataDirective]: a global variable that shares the start of its
    statement with another global variable (as in [int X, Y;]) gets no data
    directive.  The rewriter, the ledger and the transformed files stay as
    they are, and the error with the trimmed directive at the insertion point
    and the note at the declaration are reported. *)
Theorem insertDataDirective_refuses_shared_statement
    (SM : SourceManager) (Import : ASTImportInfo.t) (Unit : list TopDecl)
    (Decls Decls' : DeclarationInfoMap) (Canonical Canonical' : gset N)
    (VD VD' : VarDecl) (C C' : N)
    (Where : SourceLocation) (DirStr : string) (s : WriterState) :
  (forall VD C, TopVar VD C ∈ Unit ->
     ASTImportInfo.RedeclLocs Import !! declID VD = None) ->
  NoDup (declaredLocations Unit) ->
  initializeDeclInfo Import Unit Decls Canonical = Some (Decls', Canonical') ->
  TopVar VD C ∈ Unit -> TopVar VD' C' ∈ Unit ->
  getLocStart VD' = getLocStart VD ->
  getLocation VD' <> getLocation VD ->
  Loc.isMacroID Where = false ->
  let s' := insertDataDirective SM (getLocation VD) Decls' Where DirStr s in
  mRewriter s' = mRewriter s /\
  mInsertedDirs s' = mInsertedDirs s /\
  mTransformedFiles s' = mTransformedFiles s /\
  mDiags s' = mDiags s ++
    [Diag err_apc_insert_dvm_directive (Some Where) (Some (Str.trim DirStr));
     Diag note_apc_not_single_decl_stmt (Some (getLocation VD)) None].
Proof.
  intros Hno Hnd Hinit Hin Hin' Hs Hl Hm.
  destruct (initializeDeclInfo_flags Import Unit Decls Canonical Hno Hnd)
    as (D' & Cn' & Hinit' & Hgl & _).
  rewrite Hinit in Hinit'. inversion Hinit'; subst D' Cn'.
  destruct (Hgl VD C Hin) as (b & Hb & Hiff).
  assert (b = false) as ->.
  { destruct b; [|done]. exfalso. apply Hl.
    by apply (proj1 Hiff eq_refl VD' C'). }
  unfold insertDataDirective. rewrite Hm, Hb.
  unfold diagnoseInsert, toDiag. cbn. rewrite <- app_assoc. done.
Qed.

Lemma insertDataDirective_refuses_shared_statement_witness :
  mRewriter (insertDataDirective Demo.SM 14 DemoUnit.Decls 10
               "#pragma dvm array" releaseMemory) = [].
Proof.
  destruct (insertDataDirective_refuses_shared_statement Demo.SM
              ASTImportInfo.stub DemoUnit.Unit ∅ DemoUnit.Decls ∅
              {[1%N; 2%N; 3%N; 4%N]} DemoUnit.X DemoUnit.Y 1 2 10
              "#pragma dvm array" releaseMemory) as (H & _).
  - intros VD C _. apply lookup_empty.
  - apply (bool_decide_unpack _). vm_compute. reflexivity.
  - vm_compute. reflexivity.
  - apply list_elem_of_here.
  - apply list_elem_of_further. apply list_elem_of_here.
  - reflexivity.
  - vm_compute. discriminate.
  - reflexivity.
  - exact H.
Defined.

Lemma VisitDeclStmt_flag (DS : DeclStmt) (Decls : DeclarationInfoMap) D :
  D ∈ DS_decls DS -> isVarDecl D = true ->
  VisitDeclStmt DS Decls !! declLocation D = Some (isSingleDecl DS).
Proof.
  unfold VisitDeclStmt. generalize (isSingleDecl DS) as b.
  intros b. induction (DS_decls DS) as [|x l IH] using rev_ind; intros Hin Hv.
  - by apply elem_of_nil in Hin.
  - rewrite fold_left_app. simpl.
    apply elem_of_app in Hin as [Hin|Hin].
    + destruct (isVarDecl x); [|by apply IH].
      destruct (decide (declLocation x = declLocation D)) as [->|Hne].
      * by rewrite lookup_insert_eq.
      * rewrite lookup_insert_ne by done. by apply IH.
    + apply list_elem_of_singleton in Hin. subst x. rewrite Hv.
      by rewrite lookup_insert_eq.
Qed.

(** X7.  lib/APC/DVMHWriter.cpp, [VisitDeclStmt] then [insertDataDirective]:
    once the statement of a variable has been visited, whatever the flag of
    the variable was before, a data directive for it at a point outside a
    macro is handed to [insertDirective] when the statement declares one
    thing, and is refused with the error and the note at the declaration when
    the statement declares several. *)
Theorem insertDataDirective_after_VisitDeclStmt
    (SM : SourceManager) (DS : DeclStmt) (Decls : DeclarationInfoMap)
    (D : SomeDecl) (Where : SourceLocation) (DirStr : string)
    (s : WriterState) :
  D ∈ DS_decls DS -> isVarDecl D = true ->
  Loc.isMacroID Where = false ->
  insertDataDirective SM (declLocation D) (VisitDeclStmt DS Decls)
                      Where DirStr s =
  if isSingleDecl DS
  then DVMHWriter.insertDirective SM Where DirStr s
  else toDiag note_apc_not_single_decl_stmt (Some (declLocation D)) None
         (toDiag err_apc_insert_dvm_directive (Some Where)
                 (Some (Str.trim DirStr)) s).
Proof.
  intros Hin Hv Hm. unfold insertDataDirective.
  rewrite Hm, (VisitDeclStmt_flag DS Decls D Hin Hv).
  by destruct (isSingleDecl DS).
Qed.

Lemma insertDataDirective_after_VisitDeclStmt_witness :
  insertDataDirective Demo.SM 35
    (VisitDeclStmt {| DS_decls := [DemoUnit.W] |} DemoUnit.Decls)
    30 "#pragma dvm array" releaseMemory =
  DVMHWriter.insertDirective Demo.SM 30 "#pragma dvm array" releaseMemory.
Proof.
  apply (insertDataDirective_after_VisitDeclStmt Demo.SM
           {| DS_decls := [DemoUnit.W] |} DemoUnit.Decls DemoUnit.W 30
           "#pragma dvm array" releaseMemory).
  - apply list_elem_of_here.
  - reflexivity.
  - reflexivity.
Defined.

(** ** Declarations that must not be distributed *)

Lemma checkNotDistributedDecls_elem SM s Vars W :
  W ∈ checkNotDistributedDecls SM s Vars <->
  exists V Redecl, V ∈ Vars /\ Redecl ∈ redecls V /\
                   checkNotDistributedDecl SM s Redecl = Some W.
Proof.
  unfold checkNotDistributedDecls. rewrite list_elem_of_bind. split.
  - intros (V & Hin & HV). apply list_elem_of_omap in Hin as (R & HR & E).
    eauto.
  - intros (V & R & HV & HR & E). exists V. split; [|done].
    apply list_elem_of_omap. eauto.
Qed.

(** X8.  lib/APC/DVMHWriter.cpp, [insertDirective] then
    [checkNotDistributedDecls]: after a directive has been inserted in front
    of a statement, at a point that the ledger did not bind, every variable of
    the set that has a redeclaration starting at that statement is reported,
    at the point of the insertion. *)
Theorem checkNotDistributedDecls_reports_annotated
    (SM : SourceManager) (s : WriterState) (L : SourceLocation) (T : string)
    (Vars : list Variable_) (V : Variable_) (Redecl : VarDecl) :
  decomposes SM L ->
  Loc.isMacroID L = false ->
  mInsertedDirs s !! getLocationToTransform SM s L = None ->
  V ∈ Vars -> Redecl ∈ redecls V -> getLocStart Redecl = L ->
  getLocationToTransform SM s L ∈
    checkNotDistributedDecls SM (DVMHWriter.insertDirective SM L T s) Vars.
Proof.
  intros Hdec Hm Hnone HV HR HL.
  apply checkNotDistributedDecls_elem. exists V, Redecl.
  split; [done|]. split; [done|].
  assert (E : DVMHWriter.insertDirective SM L T s =
              performInsertion SM (getLocationToTransform SM s L) T s).
  { unfold DVMHWriter.insertDirective. simpl. by rewrite Hnone. }
  rewrite E. clear E.
  pose proof (resolve_after_insertion SM s L T Hdec) as Hres.
  pose proof (performInsertion_dirs SM s _ T Hnone) as Hdir.
  simpl in Hres. unfold getLocationToTransform at 1 in Hres.
  unfold checkNotDistributedDecl. rewrite HL, Hm.
  set (s1 := performInsertion SM (getLocationToTransform SM s L) T s) in *.
  assert (Hfile : is_Some (mTransformedFiles s1 !! getFilename SM L)).
  { subst s1. rewrite performInsertion_files.
    unfold getLocationToTransform.
    destruct (mTransformedFiles s !! getFilename SM L) as [FID|] eqn:EF.
    - exists FID. by apply try_emplace_lookup_Some.
    - eexists. by apply try_emplace_lookup_None. }
  destruct Hfile as [FID HFID]. rewrite HFID in Hres |- *.
  cbv zeta. rewrite Hres, Hdir.
  rewrite bool_decide_eq_true_2 by eauto. done.
Qed.

Lemma checkNotDistributedDecls_reports_annotated_witness :
  62%N ∈ checkNotDistributedDecls Demo.SM
           (DVMHWriter.insertDirective Demo.SM 62 "#pragma dvm array"
              releaseMemory)
           [DemoAlign.B].
Proof.
  apply (checkNotDistributedDecls_reports_annotated Demo.SM releaseMemory 62
           "#pragma dvm array" _ DemoAlign.B DemoAlign.defB).
  - vm_compute. reflexivity.
  - vm_compute. reflexivity.
  - vm_compute. reflexivity.
  - apply list_elem_of_here.
  - apply list_elem_of_here.
  - vm_compute. reflexivity.
Defined.

(** X9.  lib/APC/DVMHWriter.cpp, [checkNotDistributedDecls]: when every
    binding of the ledger stands for an insertion, every report is at a point
    where a directive has been inserted, in a transformed file: a rewritable
    point of a report has the text of its directive among the insertions, and
    the point is the place of the start of a redeclaration of a variable of
    the set. *)
Theorem checkNotDistributedDecls_reports_insertions
    (SM : SourceManager) (s : WriterState) (Vars : list Variable_)
    (W : SourceLocation) :
  ledgerConsistent SM s ->
  W ∈ checkNotDistributedDecls SM s Vars ->
  (exists V Redecl, V ∈ Vars /\ Redecl ∈ redecls V /\
     Loc.isMacroID (getLocStart Redecl) = false /\
     W = getLocationToTransform SM s (getLocStart Redecl)) /\
  exists T, mInsertedDirs s !! W = Some T /\
    is_Some (mTransformedFiles s !! getFilename SM W) /\
    (Loc.isFileID W = true -> T ∈ Rewriter.insertedAt (mRewriter s) W).
Proof.
  intros Hc Hin.
  apply checkNotDistributedDecls_elem in Hin as (V & R & HV & HR & E).
  unfold checkNotDistributedDecl in E.
  destruct (Loc.isMacroID (getLocStart R)) eqn:Hm; [done|].
  destruct (mTransformedFiles s !! getFilename SM (getLocStart R))
    as [FID|] eqn:EF; [|done].
  cbv zeta in E. case_bool_decide as Hb; [|done].
  inversion E; subst W. clear E. split.
  - exists V, R. repeat split; try done.
    unfold getLocationToTransform. by rewrite EF.
  - destruct Hb as [T HT]. exists T. split; [done|]. by apply Hc.
Qed.

Lemma checkNotDistributedDecls_reports_insertions_witness :
  exists T,
    mInsertedDirs (DVMHWriter.insertDirective Demo.SM 62 "#pragma dvm array"
                     releaseMemory) !! 62%N = Some T.
Proof.
  destruct (checkNotDistributedDecls_reports_insertions Demo.SM
              (DVMHWriter.insertDirective Demo.SM 62 "#pragma dvm array"
                 releaseMemory)
              [DemoAlign.B] 62)
    as (_ & T & HT & _).
  - apply insertDirective_consistent.
    intros W T HB. simpl in HB. by rewrite lookup_empty in HB.
  - vm_compute. apply list_elem_of_here.
  - exists T. exact HT.
Defined.

(** ** The distribution of templates *)

Section DistributionFacts.
Variable SM : SourceManager.
Variable getPragmaText : PragmaId -> string.

Lemma ledgerUntouched_refl s : ledgerUntouched s s.
Proof.
  repeat split; try done.
  - exists []. by rewrite app_nil_r.
  - exists []. split; [by rewrite app_nil_r|]. intros d H.
    by apply elem_of_nil in H.
Qed.

Lemma ledgerUntouched_trans s1 s2 s3 :
  ledgerUntouched s1 s2 -> ledgerUntouched s2 s3 -> ledgerUntouched s1 s3.
Proof.
  intros (A1 & A2 & [r1 A3] & [d1 [A4 A5]]) (B1 & B2 & [r2 B3] & [d2 [B4 B5]]).
  repeat split.
  - congruence.
  - intros F FID H. by apply B2, A2.
  - exists (r1 ++ r2). by rewrite B3, A3, app_assoc.
  - exists (d1 ++ d2). split; [by rewrite B4, A4, app_assoc|].
    intros d H. apply elem_of_app in H as [H|H]; [by apply A5|by apply B5].
Qed.

Lemma insertTemplate_inv CV FID Idx R st st' :
  insertTemplate SM getPragmaText CV FID Idx R st = Some st' ->
  ledgerUntouched st.2 st'.2 /\
  (forall k, is_Some (st'.1.1 !! k) <-> is_Some (st.1.1 !! k)) /\
  (forall k, st.1.1 !! k = Some true -> st'.1.1 !! k = Some true) /\
  (is_Some (st.1.1 !! arrayID R.1) -> st'.1.1 !! arrayID R.1 = Some true) /\
  (forall k, k ∈ st'.1.2 <->
             k ∈ st.1.2 \/ (k = arrayID R.1 /\ is_Some (st.1.1 !! k))).
Proof.
  unfold insertTemplate. destruct st as [[Usage Inserted] s]. cbn [fst snd].
  destruct (Usage !! arrayID R.1) as [HasDef|] eqn:EU.
  - destruct (sizesText R.1) as [Sizes|]; [|done]. cbn [mbind option_bind].
    destruct (CV !! Idx) as [Variant|]; [|done]. cbn [mbind option_bind].
    destruct (R.2 !! Variant) as [DR|]; [|done]. cbn [mbind option_bind].
    intros H. inversion H; subst st'. cbn [fst snd].
    split; [|split; [|split; [|split]]].
    + unfold rewrite, recordFile, Rewriter.InsertTextBefore,
        Rewriter.InsertText.
      destruct (isIncludeFile SM FID);
        unfold diagnoseInsert, toDiag, getLocationToTransform;
        cbn [mInsertedDirs mTransformedFiles mRewriter mDiags];
        (split; [done|]); (split; [intros F0 FID0 HF;
                                   by apply try_emplace_lookup_Some|]);
        (split; [match goal with
                 | |- context [if ?c then _ else _] =>
                     destruct c; [by eexists|exists []; by rewrite app_nil_r]
                 end|]).
      * eexists. split; [by rewrite <- app_assoc|].
        intros d Hd. apply elem_of_cons in Hd as [->|Hd]; [done|].
        apply list_elem_of_singleton in Hd. by subst d.
      * exists []. split; [by rewrite app_nil_r|].
        intros d Hd. by apply elem_of_nil in Hd.
    + intros k. destruct (decide (k = arrayID R.1)) as [->|Hne].
      * rewrite lookup_insert_eq, EU. split; eauto.
      * by rewrite lookup_insert_ne.
    + intros k Hk. destruct (decide (k = arrayID R.1)) as [->|Hne].
      * by rewrite lookup_insert_eq.
      * by rewrite lookup_insert_ne.
    + intros _. by rewrite lookup_insert_eq.
    + intros k. rewrite elem_of_union, elem_of_singleton. split.
      * intros [->|Hk]; [right; split; [done|]; by rewrite EU|by left].
      * intros [Hk|[-> _]]; [by right|by left].
  - intros H. inversion H; subst st'. cbn [fst snd].
    split; [apply ledgerUntouched_refl|]. split; [done|]. split; [done|].
    split; [rewrite EU; by intros [? ?]|].
    intros k. split; [by left|]. intros [Hk|[-> Hk]]; [done|].
    rewrite EU in Hk. by destruct Hk.
Qed.

Lemma insertTemplates_inv CV FID Rules : forall Idx st st',
  insertTemplates SM getPragmaText CV FID Idx Rules st = Some st' ->
  ledgerUntouched st.2 st'.2 /\
  (forall k, is_Some (st'.1.1 !! k) <-> is_Some (st.1.1 !! k)) /\
  (forall k, st.1.1 !! k = Some true -> st'.1.1 !! k = Some true) /\
  (forall R, R ∈ Rules -> is_Some (st.1.1 !! arrayID R.1) ->
             st'.1.1 !! arrayID R.1 = Some true) /\
  (forall k, k ∈ st'.1.2 <->
             k ∈ st.1.2 \/
             (exists R, R ∈ Rules /\ k = arrayID R.1 /\
                        is_Some (st.1.1 !! k))).
Proof.
  induction Rules as [|R Rules IH]; intros Idx st st' H; simpl in H.
  - inversion H; subst st'. split; [apply ledgerUntouched_refl|].
    split; [done|]. split; [done|].
    split; [intros R HR; by apply elem_of_nil in HR|].
    intros k. split; [by left|]. intros [Hk|(R & HR & _)]; [done|].
    by apply elem_of_nil in HR.
  - destruct (insertTemplate SM getPragmaText CV FID Idx R st)
      as [st1|] eqn:E1; [|done]. cbn [mbind option_bind] in H.
    apply insertTemplate_inv in E1 as (A1 & A2 & A3 & A4 & A5).
    apply IH in H as (B1 & B2 & B3 & B4 & B5).
    split; [by eapply ledgerUntouched_trans|].
    split; [intros k; by rewrite B2, A2|].
    split; [intros k Hk; by apply B3, A3|]. split.
    + intros R' HR' HU. apply elem_of_cons in HR' as [->|HR'].
      * by apply B3, A4.
      * apply B4; [done|]. by apply A2.
    + intros k. rewrite B5, A5. split.
      * intros [[Hk|[-> Hk]]|(R' & HR' & -> & Hk)].
        -- by left.
        -- right. exists R. split; [by left|done].
        -- right. exists R'. split; [by right|]. split; [done|].
           by apply A2.
      * intros [Hk|(R' & HR' & -> & Hk)]; [by left; left|].
        apply elem_of_cons in HR' as [->|HR'].
        -- left. by right.
        -- right. exists R'. split; [done|]. split; [done|]. by apply A2.
Qed.

Lemma insertInFiles_inv CV Rules Templates : forall acc T' Inserted' s',
  insertInFiles SM getPragmaText CV Rules Templates acc =
    Some (T', Inserted', s') ->
  ledgerUntouched acc.2 s' /\
  T'.*1 = Templates.*1 /\
  (forall FID Usage' R, (FID, Usage') ∈ T' -> R ∈ Rules ->
     is_Some (Usage' !! arrayID R.1) -> Usage' !! arrayID R.1 = Some true) /\
  (forall k, k ∈ Inserted' <->
             k ∈ acc.1 \/
             (exists R, R ∈ Rules /\ k = arrayID R.1 /\
                        usedInFiles Templates k)).
Proof.
  induction Templates as [|[FID Usage] Templates IH];
    intros acc T' Inserted' s' H; simpl in H.
  - inversion H; subst. split; [apply ledgerUntouched_refl|].
    split; [done|].
    split; [intros F U R HF; by apply elem_of_nil in HF|].
    intros k. split; [by left|].
    intros [Hk|(R & _ & _ & F & U & HF & _)]; [done|].
    by apply elem_of_nil in HF.
  - destruct (insertTemplates SM getPragmaText CV FID 0 Rules
                (Usage, acc.1, acc.2)) as [[[Usage1 Ins1] s1]|] eqn:E1;
      [|done]. cbn [mbind option_bind] in H.
    destruct (insertInFiles SM getPragmaText CV Rules Templates (Ins1, s1))
      as [[[T2 Ins2] s2]|] eqn:E2; [|done]. cbn [mbind option_bind] in H.
    inversion H; subst T' Inserted' s'. clear H.
    apply insertTemplates_inv in E1 as (A1 & A2 & A3 & A4 & A5).
    apply IH in E2 as (B1 & B2 & B3 & B4).
    cbn [fst snd] in *.
    split; [by eapply ledgerUntouched_trans|].
    split; [by rewrite !fmap_cons, B2|]. split.
    + intros F U R HF HR HU. apply elem_of_cons in HF as [HF|HF].
      * inversion HF; subst F U. apply A4; [done|]. by apply A2.
      * by apply (B3 F).
    + intros k. rewrite B4, A5. split.
      * intros [[Hk|(R & HR & -> & Hk)]|(R & HR & -> & F & U & HF & HU)].
        -- by left.
        -- right. exists R. split; [done|]. split; [done|].
           exists FID, Usage. split; [by left|done].
        -- right. exists R. split; [done|]. split; [done|].
           exists F, U. split; [by right|done].
      * intros [Hk|(R & HR & -> & F & U & HF & HU)]; [by left; left|].
        apply elem_of_cons in HF as [HF|HF].
        -- inversion HF; subst F U. left. right. eauto.
        -- right. exists R. split; [done|]. split; [done|].
           exists F, U. done.
Qed.

Lemma size_list_to_set_le (l : list N) :
  (size (list_to_set l : gset N) <= length l)%nat.
Proof.
  induction l as [|x l IH].
  - rewrite list_to_set_nil, size_empty. done.
  - rewrite list_to_set_cons, size_union_alt, size_singleton. simpl.
    assert (size (list_to_set l ∖ {[x]} : gset N) <=
            size (list_to_set l : gset N))%nat as Hle.
    { apply subseteq_size. apply subseteq_difference_l. done. }
    lia.
Qed.

Lemma missing_fold (Rules : list (Array * list DistrVariant))
    (Inserted : gset N) : forall s,
  let s' :=
    fold_left (fun s (TplInfo : Array * list DistrVariant) =>
                 if decide (arrayID TplInfo.1 ∈ Inserted) then s
                 else toDiag err_apc_insert_template None
                             (Some (GetShortName TplInfo.1)) s)
              Rules s in
  mInsertedDirs s' = mInsertedDirs s /\
  mTransformedFiles s' = mTransformedFiles s /\
  mRewriter s' = mRewriter s /\
  mDiags s' = mDiags s ++
    (Rules ≫= fun R =>
       if decide (arrayID R.1 ∈ Inserted) then []
       else [Diag err_apc_insert_template None (Some (GetShortName R.1))]).
Proof.
  induction Rules as [|R Rules IH]; intros s; cbn zeta.
  - simpl. by rewrite app_nil_r.
  - cbn [fold_left]. rewrite bind_cons.
    destruct (decide (arrayID R.1 ∈ Inserted)) as [Hin|Hin].
    + apply IH.
    + destruct (IH (toDiag err_apc_insert_template None
                      (Some (GetShortName R.1)) s)) as (A1 & A2 & A3 & A4).
      cbn zeta in *. rewrite A1, A2, A3, A4. cbn.
      by rewrite <- app_assoc.
Qed.

Lemma diagnoseMissing_inv (Rules : list (Array * list DistrVariant))
    (Inserted : gset N) s :
  (forall k, k ∈ Inserted -> exists R, R ∈ Rules /\ k = arrayID R.1) ->
  let s' := diagnoseMissing Rules Inserted s in
  mInsertedDirs s' = mInsertedDirs s /\
  mTransformedFiles s' = mTransformedFiles s /\
  mRewriter s' = mRewriter s /\
  exists missing, mDiags s' = mDiags s ++ missing /\
    forall d, d ∈ missing <->
      exists R, R ∈ Rules /\ ~ (arrayID R.1 ∈ Inserted) /\
        d = Diag err_apc_insert_template None (Some (GetShortName R.1)).
Proof.
  intros Hsub. cbn zeta. unfold diagnoseMissing.
  destruct (decide (length Rules = size Inserted)) as [Heq|Hne].
  - repeat split; try done. exists []. split; [by rewrite app_nil_r|].
    intros d. split; [intros H; by apply elem_of_nil in H|].
    intros (R & HR & Hno & _). exfalso. apply Hno.
    set (ids := (fun R : Array * list DistrVariant => arrayID R.1) <$> Rules).
    assert (Hss : Inserted ⊆ list_to_set ids).
    { intros k Hk. destruct (Hsub k Hk) as (R' & HR' & ->).
      apply elem_of_list_to_set. apply list_elem_of_fmap. by exists R'. }
    assert (Heqv : Inserted ≡ list_to_set ids).
    { apply set_subseteq_size_equiv; [done|].
      pose proof (size_list_to_set_le ids) as Hle.
      unfold ids in Hle at 2. rewrite length_fmap in Hle. lia. }
    apply Heqv. apply elem_of_list_to_set.
    apply list_elem_of_fmap. by exists R.
  - destruct (missing_fold Rules Inserted s) as (A1 & A2 & A3 & A4).
    cbn zeta in *. repeat split; try done.
    eexists. split; [exact A4|]. intros d. rewrite list_elem_of_bind. split.
    + intros (R & Hd & HR). destruct (decide (arrayID R.1 ∈ Inserted)).
      * by apply elem_of_nil in Hd.
      * apply list_elem_of_singleton in Hd. eauto.
    + intros (R & HR & Hno & ->). exists R. split; [|done].
      destruct (decide (arrayID R.1 ∈ Inserted)); [done|].
      by apply list_elem_of_singleton.
Qed.

Lemma insertDistibution_inv CV DataDirs Templates s T' s' :
  insertDistibution SM getPragmaText CV DataDirs Templates s =
    Some (T', s') ->
  exists s1 missing,
    ledgerUntouched s s1 /\
    mInsertedDirs s' = mInsertedDirs s1 /\
    mTransformedFiles s' = mTransformedFiles s1 /\
    mRewriter s' = mRewriter s1 /\
    mDiags s' = mDiags s1 ++ missing /\
    (forall d, d ∈ missing <->
       exists R, R ∈ distrRules DataDirs /\
         ~ usedInFiles Templates (arrayID R.1) /\
         d = Diag err_apc_insert_template None (Some (GetShortName R.1))) /\
    T'.*1 = Templates.*1 /\
    (forall FID Usage' R, (FID, Usage') ∈ T' -> R ∈ distrRules DataDirs ->
       is_Some (Usage' !! arrayID R.1) -> Usage' !! arrayID R.1 = Some true).
Proof.
  unfold insertDistibution. intros H.
  destruct (insertInFiles SM getPragmaText CV (distrRules DataDirs)
              Templates (∅, s)) as [[[T1 Ins] s1]|] eqn:E; [|done].
  cbn [mbind option_bind] in H. inversion H; subst T' s'. clear H.
  apply insertInFiles_inv in E as (A1 & A2 & A3 & A4). cbn [fst snd] in *.
  assert (Hsub : forall k, k ∈ Ins ->
            exists R, R ∈ distrRules DataDirs /\ k = arrayID R.1).
  { intros k Hk. apply A4 in Hk as [Hk|(R & HR & -> & _)]; [set_solver|].
    eauto. }
  destruct (diagnoseMissing_inv (distrRules DataDirs) Ins s1 Hsub)
    as (B1 & B2 & B3 & missing & B4 & B5).
  exists s1, missing.
  do 5 (split; [done|]). split; [|by split].
  intros d. split.
  - intros Hd. apply B5 in Hd as (R & HR & Hno & ->). exists R.
    split; [done|]. split; [|done]. intros Hu. apply Hno. apply A4.
    right. eauto.
  - intros (R & HR & Hno & ->). apply B5. exists R. split; [done|].
    split; [|done]. intros Hin. apply Hno.
    apply A4 in Hin as [Hin|(R' & _ & Heq & Hu)]; [set_solver|]. done.
Qed.

End DistributionFacts.

(** X10.  lib/APC/DVMHWriter.cpp, [insertDistibution]: the function never
    writes the ledger of inserted directives.  Whenever it returns, the
    bindings of points to directives are those of the state before (so its
    insertions are not checked against the directives at the point and are
    not seen by later conflict checks), the transformed files are kept, and
    the insertions and diagnostics made before are a prefix of those
    after. *)
Theorem insertDistibution_leaves_ledger
    (SM : SourceManager) (getPragmaText : PragmaId -> string)
    (CV : list nat) (DataDirs : DataDirective)
    (Templates T' : TemplateInFileUsage) (s s' : WriterState) :
  insertDistibution SM getPragmaText CV DataDirs Templates s =
    Some (T', s') ->
  mInsertedDirs s' = mInsertedDirs s /\ ledgerGrows s s'.
Proof.
  intros H.
  apply insertDistibution_inv in H
    as (s1 & missing & (A1 & A2 & [r A3] & [d [A4 _]]) & B1 & B2 & B3 & B4 & _).
  split; [congruence|]. repeat split.
  - intros W T HW. by rewrite B1, A1.
  - intros F FID HF. rewrite B2. by apply A2.
  - exists r. by rewrite B3.
  - exists (d ++ missing). by rewrite B4, A4, app_assoc.
Qed.

Lemma insertDistibution_leaves_ledger_witness :
  mInsertedDirs
    {| mTransformedFiles := {["b.h"%string := 2%Z]};
       mInsertedDirs := ∅;
       mRewriter :=
         [ {| edit_loc := 1020; edit_text := DemoPragma.definitionOfT;
              edit_after := false |} ];
       mDiags :=
         [ Diag err_apc_insert_dvm_directive (Some 1020)
             (Some "#pragma dvm template [100] distribute [block]"%string);
           Diag note_apc_insert_include_prevent (Some 1020) None ] |}
  = mInsertedDirs releaseMemory.
Proof.
  refine (proj1 (insertDistibution_leaves_ledger Demo.SM
                   DemoPragma.getPragmaText [0%nat] DemoPragma.DataDirs
                   [(2%Z, {[7%N := false]})] [(2%Z, {[7%N := true]})]
                   releaseMemory _ _)).
  vm_compute. reflexivity.
Defined.

(** X11.  lib/APC/DVMHWriter.cpp, [insertDistibution]: the diagnostics
    [err_apc_insert_template] after the call are those from before together
    with one for each rule of [distrRules] whose template is used in no file
    of [Templates], carrying the short name of the template; a template used
    in some file is never reported. *)
Theorem insertDistibution_reports_unused_templates
    (SM : SourceManager) (getPragmaText : PragmaId -> string)
    (CV : list nat) (DataDirs : DataDirective)
    (Templates T' : TemplateInFileUsage) (s s' : WriterState)
    (d : Diagnostic) :
  insertDistibution SM getPragmaText CV DataDirs Templates s =
    Some (T', s') ->
  diag_kind d = err_apc_insert_template ->
  (d ∈ mDiags s' <->
   d ∈ mDiags s \/
   exists R, R ∈ distrRules DataDirs /\
     ~ usedInFiles Templates (arrayID R.1) /\
     d = Diag err_apc_insert_template None (Some (GetShortName R.1))).
Proof.
  intros H Hk.
  apply insertDistibution_inv in H
    as (s1 & missing & (_ & _ & _ & [new [A4 A5]]) & _ & _ & _ & B4 & B5 & _).
  rewrite B4, A4, !elem_of_app, B5. split.
  - intros [[Hd|Hd]|Hd]; [by left| |by right].
    exfalso. by apply (A5 d Hd).
  - intros [Hd|Hd]; [by left; left|by right].
Qed.

Lemma insertDistibution_reports_unused_templates_witness :
  Diag err_apc_insert_template None (Some "T"%string) ∈
    mDiags (toDiag err_apc_insert_template None (Some "T"%string)
              releaseMemory).
Proof.
  refine (proj2 (insertDistibution_reports_unused_templates Demo.SM
                   DemoPragma.getPragmaText [0%nat] DemoPragma.DataDirs
                   [] [] releaseMemory _ _ _ _) _).
  - vm_compute. reflexivity.
  - reflexivity.
  - right. exists (DemoPragma.T, [{| distRule := [BLOCK] |}]).
    split; [apply list_elem_of_here|]. split; [|reflexivity].
    intros (FID & Usage & Hin & _). by apply elem_of_nil in Hin.
Defined.

(** X12.  lib/APC/DVMHWriter.cpp, [insertDistibution]: whenever the function
    returns, the usage map has the files it had, in the same order, and in
    every file every template of [distrRules] used there has [HasDefinition]
    set. *)
Theorem insertDistibution_sets_HasDefinition
    (SM : SourceManager) (getPragmaText : PragmaId -> string)
    (CV : list nat) (DataDirs : DataDirective)
    (Templates T' : TemplateInFileUsage) (s s' : WriterState) :
  insertDistibution SM getPragmaText CV DataDirs Templates s =
    Some (T', s') ->
  T'.*1 = Templates.*1 /\
  forall FID Usage' R, (FID, Usage') ∈ T' -> R ∈ distrRules DataDirs ->
    is_Some (Usage' !! arrayID R.1) -> Usage' !! arrayID R.1 = Some true.
Proof.
  intros H.
  apply insertDistibution_inv in H
    as (s1 & missing & _ & _ & _ & _ & _ & _ & B6 & B7).
  by split.
Qed.

Lemma insertDistibution_sets_HasDefinition_witness :
  [(1%Z, ({[7%N := true]} : gmap N bool)); (3%Z, {[7%N := true]})].*1 =
  [(1%Z, ({[7%N := false]} : gmap N bool)); (3%Z, {[7%N := false]})].*1.
Proof.
  refine (proj1 (insertDistibution_sets_HasDefinition Demo.SM
                   DemoPragma.getPragmaText [0%nat] DemoPragma.DataDirs
                   [(1%Z, {[7%N := false]}); (3%Z, {[7%N := false]})]
                   [(1%Z, {[7%N := true]}); (3%Z, {[7%N := true]})]
                   releaseMemory
                   (default releaseMemory
                      (snd <$> insertDistibution Demo.SM
                         DemoPragma.getPragmaText [0%nat] DemoPragma.DataDirs
                         [(1%Z, {[7%N := false]}); (3%Z, {[7%N := false]})]
                         releaseMemory)) _)).
  vm_compute. reflexivity.
Defined.

(** ** Merged locations, continued *)

Section MergedLocationsMore.
Import MergedLocations.

Lemma push_back_defined m Ls :
  is_Some (push_back m Ls) <-> (length Ls <= length m)%nat.
Proof.
  revert m. induction Ls as [|L Ls IH]; intros m.
  - destruct m; simpl; split; eauto; lia.
  - destruct m as [|X rest]; simpl.
    + split; [by intros [? ?]|lia].
    + rewrite <- Nat.succ_le_mono, <- IH.
      destruct (push_back rest Ls); simpl; split; eauto;
        by intros [? ?].
Qed.

Lemma push_back_lookup m Ls m' :
  push_back m Ls = Some m' ->
  length m' = length m /\
  forall i Locs, m !! i = Some Locs ->
    m' !! i = Some (match Ls !! i with
                    | Some L => Locs ++ [L]
                    | None => Locs
                    end).
Proof.
  revert m m'. induction Ls as [|L Ls IH]; intros m m' H.
  - destruct m; simpl in H; inversion H; subst; split; try done.
  - destruct m as [|X rest]; simpl in H; [done|].
    destruct (push_back rest Ls) as [rest'|] eqn:E; simpl in H; [|done].
    inversion H; subst m'. destruct (IH _ _ E) as [Hlen Hlk]. split.
    + simpl. by rewrite Hlen.
    + intros [|i] Locs Hi; simpl in *.
      * by inversion Hi.
      * by apply Hlk.
Qed.

Lemma originals_lookup m i Locs Loc :
  m !! i = Some Locs -> head Locs = Some Loc -> Loc ∈ originals m.
Proof.
  intros Hi Hh. unfold originals. apply list_elem_of_omap.
  exists Locs. split; [|done]. by eapply list_elem_of_lookup_2.
Qed.

Lemma find_lookup m i Locs Loc :
  wf m -> NoDup (originals m) ->
  m !! i = Some Locs -> head Locs = Some Loc -> find m Loc = Some Locs.
Proof.
  unfold wf. revert i. induction m as [|X rest IH]; intros i Hwf Hnd Hi Hh.
  - done.
  - inversion Hwf as [|? ? HX Hrest]; subst.
    destruct X as [|L0 X']; [done|]. rewrite originals_cons in Hnd.
    apply NoDup_cons in Hnd as [Hnotin Hnd]. simpl.
    destruct i as [|i]; simpl in Hi.
    + inversion Hi; subst Locs. simpl in Hh. inversion Hh; subst.
      by rewrite N.eqb_refl.
    + destruct (N.eqb_spec L0 Loc) as [->|Hne].
      * exfalso. apply Hnotin. by eapply originals_lookup.
      * by eapply IH.
Qed.

End MergedLocationsMore.

(** X13.  include ASTImportInfo.h, [MergedLocations]: a freshly constructed
    object finds each of the locations it was constructed from, and the list
    found holds that location alone. *)
Theorem MergedLocations_find_after_construction
    (ToLocs : list SourceLocation) (Loc : SourceLocation) :
  Loc ∈ ToLocs ->
  MergedLocations.find (MergedLocations.make ToLocs) Loc = Some [Loc].
Proof.
  induction ToLocs as [|L Ls IH]; intros Hin.
  - by apply elem_of_nil in Hin.
  - change (MergedLocations.make (L :: Ls))
      with ([L] :: MergedLocations.make Ls).
    simpl. destruct (N.eqb_spec L Loc) as [->|Hne]; [done|].
    apply elem_of_cons in Hin as [->|Hin]; [done|]. by apply IH.
Qed.

Lemma MergedLocations_find_after_construction_witness :
  MergedLocations.find (MergedLocations.make [5; 7; 9]) 7 = Some [7].
Proof.
  apply (MergedLocations_find_after_construction [5; 7; 9] 7).
  apply list_elem_of_further. apply list_elem_of_here.
Defined.

(** X14.  include ASTImportInfo.h, [MergedLocations::push_back]: the call is
    defined exactly when [MergedLocs] is not longer than the stored lists
    are many; then the number of stored lists is kept, the list of index [I]
    gets [MergedLocs[I]] at its end, and the lists past the end of
    [MergedLocs] stay as they are. *)
Theorem MergedLocations_push_back_appends
    (m : MergedLocations.t) (MergedLocs : list SourceLocation) :
  (is_Some (MergedLocations.push_back m MergedLocs) <->
   (length MergedLocs <= length m)%nat) /\
  forall m', MergedLocations.push_back m MergedLocs = Some m' ->
    length m' = length m /\
    forall I Locs, m !! I = Some Locs ->
      m' !! I = Some (match MergedLocs !! I with
                      | Some L => Locs ++ [L]
                      | None => Locs
                      end).
Proof.
  split; [apply push_back_defined|]. intros m'. apply push_back_lookup.
Qed.

(** X15.  include ASTImportInfo.h, [push_back] then [find]: when the stored
    lists are not empty, their original locations are pairwise different and
    [MergedLocs] has one location for each stored list, [push_back] succeeds
    and afterwards [find] at the original location of the list of index [I]
    gives that list followed by [MergedLocs[I]]. *)
Theorem MergedLocations_find_after_push_back
    (m : MergedLocations.t) (MergedLocs : list SourceLocation)
    (I : nat) (Locs : list SourceLocation) (Loc L : SourceLocation) :
  MergedLocations.wf m ->
  NoDup (MergedLocations.originals m) ->
  length MergedLocs = length m ->
  m !! I = Some Locs -> head Locs = Some Loc -> MergedLocs !! I = Some L ->
  exists m', MergedLocations.push_back m MergedLocs = Some m' /\
             MergedLocations.find m' Loc = Some (Locs ++ [L]).
Proof.
  intros Hwf Hnd Hlen Hi Hh HL.
  destruct (proj2 (push_back_defined m MergedLocs)) as [m' Hm']; [lia|].
  exists m'. split; [done|].
  destruct (push_back_lookup m MergedLocs m' Hm') as [_ Hlk].
  specialize (Hlk I Locs Hi). rewrite HL in Hlk.
  apply (find_lookup m' I).
  - by eapply push_back_wf.
  - by rewrite (push_back_originals m MergedLocs m').
  - done.
  - destruct Locs; [done|]. simpl in *. done.
Qed.

Lemma MergedLocations_find_after_push_back_witness :
  exists m',
    MergedLocations.push_back (MergedLocations.make [5; 7]) [15; 17] =
      Some m' /\
    MergedLocations.find m' 7 = Some [7; 17].
Proof.
  apply (MergedLocations_find_after_push_back
           (MergedLocations.make [5; 7]) [15; 17] 1 [7] 7 17).
  - apply make_wf.
  - apply (bool_decide_unpack _). vm_compute. reflexivity.
  - reflexivity.
  - reflexivity.
  - reflexivity.
  - reflexivity.
Defined.

(** ** The engine: what one call does to an item *)

Section EngineMore.
Variable BitWidth : N.
Variable AccessInfo : option DIArrayAccessInfo.

Lemma processDependences_dom AI ID Step Deps :
  forall P PAD ok P' PAD',
    processDependences BitWidth AI ID Step Deps (P, PAD)
      = Some (ok, (P', PAD')) ->
    forall Name, is_Some (P_Dependence P !! Name) ->
                 is_Some (P_Dependence P' !! Name).
Proof.
  induction Deps as [|Dep Deps IH]; intros P PAD ok P' PAD' H Name HN;
    unfold processDependences in H; fold processDependences in H.
  - by inversion H; subst.
  - destruct (processDependence _ _ _ _ _ _) as [[[P1 PAD1]|]|] eqn:E;
      simpl in H; try discriminate.
    + apply (IH _ _ _ _ _ H).
      destruct (processDependence_inv _ _ _ _ _ _ _ _ _ E)
        as [(Ranges & Dim & _ & HP) _].
      rewrite HP. destruct (decide (Name = Dep.1)) as [->|Hne].
      * rewrite lookup_insert_eq. eauto.
      * by rewrite lookup_insert_ne.
    + by inversion H; subst.
Qed.

(** How [processRegularDependenceis] returns: the arrays of the dependence
    clause stay, a ceiling that is set does not grow, and the diagnostics are
    untouched unless the loop has dependences and a step that is not a
    constant. *)
Lemma processRegularDependenceis_outcome L P Diags ok P' Diags' :
  processRegularDependenceis BitWidth AccessInfo L P Diags
    = Some (ok, P', Diags') ->
  (forall Name, is_Some (P_Dependence P !! Name) ->
                is_Some (P_Dependence P' !! Name)) /\
  (PossibleAcrossDepth P <> 0 ->
   PossibleAcrossDepth P' <= PossibleAcrossDepth P) /\
  ((Diags' = Diags /\
    ~ (D_Dependence (ASTDepInfo L) <> [] /\ Canonical L = Some None)) \/
   (ok = false /\ P' = P /\
    D_Dependence (ASTDepInfo L) <> [] /\ Canonical L = Some None /\
    Diags' = Diags ++
      [Diag warn_parallel_loop (Some (RegionBeginLoc L)) None;
       Diag note_parallel_across_direction_unknown
            (Some (RegionBeginLoc L)) None])).
Proof.
  unfold processRegularDependenceis. intros H.
  destruct (D_Dependence (ASTDepInfo L)) as [|Dep Deps] eqn:ED.
  { inversion H; subst. split; [done|]. split; [lia|]. left.
    split; [done|]. by intros [? _]. }
  destruct (Canonical L) as [[Step|]|]; simpl in H; try discriminate.
  2: { inversion H; subst. split; [done|]. split; [lia|]. by right. }
  destruct AccessInfo as [AI|].
  2: { inversion H; subst. split; [done|]. split; [lia|]. left.
       split; [done|]. by intros [_ ?]. }
  destruct (processDependences _ _ _ _ _ _) as [[ok1 [P1 PAD]]|] eqn:E;
    simpl in H; [|discriminate].
  pose proof (processDependences_dom _ _ _ _ _ _ _ _ _ E) as Hdom.
  destruct (processDependences_keeps _ _ _ _ _ _ _ _ _ _ E) as [_ [G2 _]].
  destruct ok1; inversion H; subst.
  - split.
    { intros Name HN. apply Hdom in HN.
      by destruct (PossibleAcrossDepth P1 =? 0). }
    split.
    + intros Hnz. rewrite <- G2 in Hnz.
      destruct (N.eqb_spec (PossibleAcrossDepth P1) 0) as [H0|H0]; [done|].
      cbn [PossibleAcrossDepth setPossibleAcrossDepth]. rewrite <- G2. lia.
    + left. split; [done|]. by intros [_ ?].
  - split; [done|]. split; [rewrite G2; lia|]. left.
    split; [done|]. by intros [_ ?].
Qed.

(** The ways through [exploitParallelism]. *)
Lemma exploitParallelism_cases L PI E PI' E' :
  exploitParallelism BitWidth AccessInfo L PI E = Some (PI', E') ->
  (~ qualifies L /\ PI' = finalize <$> PI /\ E' = E) \/
  (qualifies L /\ exists P, PI = Some P /\ ~ matchesItem L P /\
     PI' = Some (finalize
                   (setPrivate
                      ({[D_Induction (ASTDepInfo L)]} ∪
                       (P_Private P ∖ {[D_Induction (ASTDepInfo L)]})) P)) /\
     E' = E) \/
  (qualifies L /\ exists P ok P2 Diags, PI = Some P /\ matchesItem L P /\
     processRegularDependenceis BitWidth AccessInfo L
       (setPrivate (P_Private P ∖ {[D_Induction (ASTDepInfo L)]}) P)
       (eDiags E) = Some (ok, P2, Diags) /\
     PI' = Some (if ok : bool then joinNest L P2 else finalize P2) /\
     E' = {| mParallelizationInfo := mParallelizationInfo E;
             eDiags := Diags |}) \/
  (qualifies L /\ PI = None /\
   createItem BitWidth AccessInfo L E = Some (PI', E')).
Proof.
  unfold exploitParallelism, qualifies, matchesItem. intros H.
  set (D := ASTDepInfo L) in *.
  destruct (decide (D_FirstPrivate D = ∅)) as [HF|HF];
    [rewrite (bool_decide_eq_true_2 _ HF) in H
    |rewrite (bool_decide_eq_false_2 _ HF) in H];
  [destruct (decide (D_LastPrivate D = ∅)) as [HL|HL];
    [rewrite (bool_decide_eq_true_2 _ HL) in H
    |rewrite (bool_decide_eq_false_2 _ HL) in H];
   [destruct (decide (D_Induction D = EmptyString)) as [HI|HI];
    [rewrite (bool_decide_eq_true_2 _ HI) in H
    |rewrite (bool_decide_eq_false_2 _ HI) in H]|]|];
  simpl in H.
  4: { inversion H; subst. left. split; [tauto|done]. }
  3: { inversion H; subst. left. split; [tauto|done]. }
  1: { inversion H; subst. left. split; [tauto|done]. }
  right. destruct PI as [P|]; [|right; right; done].
  unfold extendItem in H. fold D in H.
  cbn [P_Private P_Reduction setPrivate] in H.
  destruct (HostOnly L) eqn:HH; simpl in H.
  { inversion H; subst. left. split; [done|]. exists P.
    split; [done|]. split; [|done]. by intros [? _]. }
  destruct (decide (D_Private D = P_Private P ∖ {[D_Induction D]})) as [HP|HP].
  2: { rewrite (bool_decide_eq_true_2 _ HP) in H. simpl in H.
       inversion H; subst. left. split; [done|]. exists P.
       split; [done|]. split; [|done]. by intros [_ [? _]]. }
  rewrite bool_decide_eq_false_2 in H by (intros Hx; by apply Hx).
  destruct (decide (D_Reduction D = P_Reduction P)) as [HR|HR].
  2: { rewrite (bool_decide_eq_true_2 _ HR) in H. simpl in H.
       inversion H; subst. left. split; [done|]. exists P.
       split; [done|]. split; [|done]. by intros [_ [_ ?]]. }
  rewrite bool_decide_eq_false_2 in H by (intros Hx; by apply Hx).
  simpl in H. right. left. split; [done|].
  destruct (processRegularDependenceis _ _ _ _ _) as [[[ok P2] Diags]|] eqn:EP;
    simpl in H; [|discriminate].
  exists P, ok, P2, Diags. split; [done|]. split; [done|]. split; [done|].
  by destruct ok; inversion H; subst.
Qed.

Lemma difference_twice (S : gset string) a : (S ∖ {[a]}) ∖ {[a]} = S ∖ {[a]}.
Proof.
  apply set_eq. intros x. rewrite !elem_of_difference. tauto.
Qed.

Lemma difference_reinserted (S : gset string) a :
  ({[a]} ∪ S ∖ {[a]}) ∖ {[a]} = S ∖ {[a]}.
Proof.
  apply set_eq. intros x.
  rewrite !elem_of_difference, elem_of_union, elem_of_difference. tauto.
Qed.

Lemma joinNest_keeps L P :
  P_Private (joinNest L P) = P_Private P /\
  P_Reduction (joinNest L P) = P_Reduction P /\
  P_Dependence (joinNest L P) = P_Dependence P /\
  PossibleAcrossDepth (joinNest L P) = PossibleAcrossDepth P /\
  (isFinal P = true -> isFinal (joinNest L P) = true).
Proof.
  unfold joinNest. destruct (_ && _); simpl; repeat split; done.
Qed.

End EngineMore.

(** X16.  lib/Transform/Clang/DVMHSMAutoPar.cpp, [exploitParallelism] on an
    existing item: the call always gives the item back and never attaches a
    parallel block.  A finalized item stays finalized, a ceiling that is set
    does not grow, the reduction clause is kept, the private clause changes
    at most in the induction variable of the loop, and every array of the
    dependence clause stays in it. *)
Theorem exploitParallelism_keeps_item
    (BitWidth : N) (AccessInfo : option DIArrayAccessInfo) (L : LoopFacts)
    (P : PragmaParallel) (E E' : EngineState) (PI' : option PragmaParallel) :
  exploitParallelism BitWidth AccessInfo L (Some P) E = Some (PI', E') ->
  mParallelizationInfo E' = mParallelizationInfo E /\
  exists P',
    PI' = Some P' /\
    (isFinal P = true -> isFinal P' = true) /\
    (PossibleAcrossDepth P <> 0 ->
     PossibleAcrossDepth P' <= PossibleAcrossDepth P) /\
    P_Reduction P' = P_Reduction P /\
    P_Private P' ∖ {[D_Induction (ASTDepInfo L)]} =
      P_Private P ∖ {[D_Induction (ASTDepInfo L)]} /\
    (forall Name, is_Some (P_Dependence P !! Name) ->
                  is_Some (P_Dependence P' !! Name)).
Proof.
  intros H. apply exploitParallelism_cases in H
    as [(_ & -> & ->)|[(_ & P0 & HP & _ & -> & ->)|
        [(_ & P0 & ok & P2 & Diags & HP & _ & EP & -> & ->)|(_ & HP & _)]]];
    try discriminate.
  - split; [done|]. exists (finalize P). simpl.
    repeat split; try done; try lia.
  - inversion HP; subst P0. split; [done|]. eexists. split; [done|].
    simpl. repeat split; try done; try lia. apply difference_reinserted.
  - inversion HP; subst P0. split; [done|].
    destruct (processRegularDependenceis_keeps _ _ _ _ _ _ _ _ EP)
      as (_ & K2 & K3 & K4).
    destruct (processRegularDependenceis_outcome _ _ _ _ _ _ _ _ EP)
      as (O1 & O2 & _).
    simpl in K2, K3, K4, O1, O2.
    destruct (joinNest_keeps L P2) as (J1 & J2 & J3 & J4 & J5).
    exists (if ok then joinNest L P2 else finalize P2). split; [done|].
    destruct ok; simpl.
    + rewrite J1, J2, J3, J4, K3, K4.
      split; [intros HFin; apply J5; by rewrite K2|].
      split; [done|]. split; [done|].
      split; [apply difference_twice|done].
    + rewrite K3, K4.
      split; [done|]. split; [done|]. split; [done|].
      split; [apply difference_twice|done].
Qed.

Lemma exploitParallelism_keeps_item_witness :
  exists P',
    Some (joinNest DemoNest.inner
            (setPrivate (P_Private DemoNest.P1 ∖ {["j"%string]})
                        DemoNest.P1)) = Some P' /\
    P_Reduction P' = P_Reduction DemoNest.P1.
Proof.
  destruct (exploitParallelism_keeps_item 64 (Some DemoLoops.AccessInfo)
              DemoNest.inner DemoNest.P1 DemoLoops.start DemoLoops.start
              (Some (joinNest DemoNest.inner
                       (setPrivate (P_Private DemoNest.P1 ∖ {["j"%string]})
                                   DemoNest.P1))))
    as (_ & P' & HP' & _ & _ & HR & _).
  - vm_compute. reflexivity.
  - exists P'. split; [exact HP'|exact HR].
Defined.

Section NewItemFacts.
Variable BitWidth : N.
Variable AccessInfo : option DIArrayAccessInfo.


Lemma union_empty_fmap (l : list (gset string)) :
  (fun Vars : gset string => ∅ ∪ Vars) <$> l = l.
Proof.
  induction l as [|X l IH]; [done|].
  rewrite fmap_cons, IH. by rewrite (left_id_L ∅ (∪)).
Qed.

(** The way through [createItem]. *)
Lemma createItem_cases L E PI' E' :
  createItem BitWidth AccessInfo L E = Some (PI', E') ->
  exists ok P Diags,
    processRegularDependenceis BitWidth AccessInfo L
      {| P_Private := D_Private (ASTDepInfo L);
         P_Reduction := D_Reduction (ASTDepInfo L);
         P_Dependence := ∅; P_Induction := [];
         PossibleAcrossDepth := 0; isFinal := false |} (eDiags E)
      = Some (ok, P, Diags) /\
    eDiags E' = Diags /\
    ((ok = false /\ PI' = None /\
      mParallelizationInfo E' = mParallelizationInfo E) \/
     (ok = true /\
      exists Region Actual GetActual P1,
        PI' = Some (joinNest L P1) /\
        P_Induction P1 = P_Induction P /\ P_Private P1 = P_Private P /\
        P_Reduction P1 = P_Reduction P /\
        PossibleAcrossDepth P1 = PossibleAcrossDepth P /\
        mParallelizationInfo E' =
          attachNewItem L Region Actual GetActual (mParallelizationInfo E) /\
        (is_Some Region <-> Localized L = true) /\
        (forall R, Region = Some R -> R_HostOnly R = HostOnly L) /\
        Actual =
          (if negb (HostOnly L) && Localized L &&
              negb (bool_decide (D_ReadOccurred (ASTDepInfo L) = ∅))
           then Some (ItemActual (D_ReadOccurred (ASTDepInfo L)))
           else None) /\
        GetActual =
          (if negb (HostOnly L) && Localized L &&
              negb (bool_decide (D_WriteOccurred (ASTDepInfo L) = ∅))
           then Some (ItemGetActual (D_WriteOccurred (ASTDepInfo L)))
           else None))).
Proof.
  unfold createItem. rewrite union_empty_fmap, !(left_id_L ∅ (∪)).
  intros H.
  destruct (processRegularDependenceis _ _ _ _ _) as [[[ok P] Diags]|] eqn:EP;
    simpl in H; [|discriminate].
  exists ok, P, Diags. split; [done|].
  destruct ok; simpl in H; inversion H; subst PI' E'; clear H;
    (split; [done|]); [right|left; done].
  split; [done|]. eexists _, _, _, _. split; [reflexivity|].
  split; [by destruct (_ && _)|]. split; [by destruct (_ && _)|].
  split; [by destruct (_ && _)|]. split; [by destruct (_ && _)|].
  split; [reflexivity|].
  split; [|split; [|split; reflexivity]].
  - destruct (Localized L); split; eauto; try done; by intros [? ?].
  - intros R HR. destruct (Localized L); [|done].
    destruct (HostOnly L); simpl in HR; inversion HR; done.
Qed.


End NewItemFacts.

(** X17.  lib/Transform/Clang/DVMHSMAutoPar.cpp, [exploitParallelism] and
    [processRegularDependenceis]: the only diagnostics of a call are the
    warning [warn_parallel_loop] and the note
    [note_parallel_across_direction_unknown] at the start of the loop, and
    they are reported exactly when the loop qualifies, matches the item if
    there is one, has dependences and a step that is not a constant.  Then no
    parallel block is attached, no item is created, and an existing item is
    finalized with the induction variable of the loop taken out of its
    private clause. *)
Theorem exploitParallelism_diagnostics
    (BitWidth : N) (AccessInfo : option DIArrayAccessInfo) (L : LoopFacts)
    (PI PI' : option PragmaParallel) (E E' : EngineState) :
  exploitParallelism BitWidth AccessInfo L PI E = Some (PI', E') ->
  (directionUnknown L PI ->
   eDiags E' = eDiags E ++
     [Diag warn_parallel_loop (Some (RegionBeginLoc L)) None;
      Diag note_parallel_across_direction_unknown
           (Some (RegionBeginLoc L)) None] /\
   mParallelizationInfo E' = mParallelizationInfo E /\
   PI' = (fun P =>
            finalize
              (setPrivate (P_Private P ∖ {[D_Induction (ASTDepInfo L)]}) P))
         <$> PI) /\
  (~ directionUnknown L PI -> eDiags E' = eDiags E).
Proof.
  unfold directionUnknown. intros H. apply exploitParallelism_cases in H
    as [(Hq & -> & ->)|[(Hq & P0 & -> & Hm & -> & ->)|
        [(Hq & P0 & ok & P2 & Diags & -> & Hm & EP & -> & ->)|
         (Hq & -> & H)]]].
  - split; [|done]. by intros [? _].
  - split; [|done]. intros (_ & HM & _). exfalso. by apply Hm, HM.
  - destruct (processRegularDependenceis_outcome _ _ _ _ _ _ _ _ EP)
      as (_ & _ & [[-> Hno]|(-> & -> & Hd & Hc & ->)]).
    + split; [|done]. intros (_ & _ & Hd & Hc). exfalso. by apply Hno.
    + split; [done|]. intros Hno. exfalso. apply Hno.
      split; [done|]. split; [|done]. intros P1 HP1. by inversion HP1; subst.
  - apply createItem_cases in H as (ok & P & Diags & EP & HD & Hcase).
    destruct (processRegularDependenceis_outcome _ _ _ _ _ _ _ _ EP)
      as (_ & _ & [[-> Hno]|(-> & -> & Hd & Hc & ->)]).
    + split; [|done]. intros (_ & _ & Hd & Hc). exfalso. by apply Hno.
    + destruct Hcase as [(_ & -> & Hinfo)|(? & _)]; [|discriminate].
      split; [done|]. intros Hno. exfalso. apply Hno.
      split; [done|]. split; [|done]. intros P1 HP1. discriminate.
Qed.

Lemma exploitParallelism_diagnostics_witness :
  eDiags {| mParallelizationInfo := ∅;
            eDiags :=
              [Diag warn_parallel_loop (Some 120) None;
               Diag note_parallel_across_direction_unknown (Some 120) None] |}
  = [] ++
    [Diag warn_parallel_loop (Some 120) None;
     Diag note_parallel_across_direction_unknown (Some 120) None].
Proof.
  refine (proj1 (proj1 (exploitParallelism_diagnostics 64
                          (Some DemoLoops.AccessInfo)
                          DemoSteps.innerUnknownStep None None
                          DemoLoops.start _ _) _)).
  - vm_compute. reflexivity.
  - split; [repeat split; try reflexivity; discriminate|].
    split; [intros P HP; discriminate|]. split; [discriminate|reflexivity].
Defined.



(** ** The inherit directive *)

Section InheritFacts.
Variable SM : SourceManager.
Variable getPragmaText : PragmaId -> string.

Lemma string_app_cons x (a b : string) :
  String x a +:+ b = String x (a +:+ b).
Proof. reflexivity. Qed.

Lemma string_app_assoc (a b c : string) : (a +:+ b) +:+ c = a +:+ b +:+ c.
Proof.
  induction a as [|x a IH]; [done|]. by rewrite !string_app_cons, IH.
Qed.

Lemma string_app_nil_r (a : string) : a +:+ EmptyString = a.
Proof.
  induction a as [|x a IH]; [done|]. by rewrite string_app_cons, IH.
Qed.










Lemma insertArg_named Redecl A st :
  namedIn Redecl A ->
  exists Param,
    getParamDecl Redecl A = Some Param /\
    insertArg Redecl A st =
      Some {| Inherit := Inherit st +:+ parmName Param;
              UnnamedArgsInMacro := UnnamedArgsInMacro st;
              inheritWriter := inheritWriter st |}.
Proof.
  intros (Param & HP & Hn). exists Param. split; [done|].
  unfold insertArg. rewrite HP. cbn [mbind option_bind].
  destruct (String.eqb_spec (parmName Param) EmptyString); done.
Qed.

Arguments getParamDecl : simpl never.

Lemma parameterNames_cons Redecl A Args Param :
  getParamDecl Redecl A = Some Param ->
  parameterNames Redecl (A :: Args) =
    parmName Param :: parameterNames Redecl Args.
Proof. intros HP. unfold parameterNames. simpl. by rewrite HP. Qed.

Lemma insertMoreArgs_named Redecl Args : forall st,
  Forall (namedIn Redecl) Args ->
  insertMoreArgs Redecl Args st =
    Some {| Inherit :=
              Inherit st +:+
              concat_strings (map (fun N => "," +:+ N)
                                  (parameterNames Redecl Args));
            UnnamedArgsInMacro := UnnamedArgsInMacro st;
            inheritWriter := inheritWriter st |}.
Proof.
  induction Args as [|A Args IH]; intros st HF.
  - simpl. rewrite string_app_nil_r. by destruct st.
  - inversion HF as [|? ? HA HF']; subst.
    cbn [insertMoreArgs].
    destruct (insertArg_named Redecl A
                {| Inherit := Inherit st +:+ ",";
                   UnnamedArgsInMacro := UnnamedArgsInMacro st;
                   inheritWriter := inheritWriter st |} HA)
      as (Param & HP & ->).
    cbn [mbind option_bind]. rewrite IH by done.
    cbn [Inherit UnnamedArgsInMacro inheritWriter].
    rewrite (parameterNames_cons _ _ _ _ HP).
    cbn [map concat_strings fold_right].
    by rewrite !string_app_assoc.
Qed.

End InheritFacts.



(** X20.  lib/APC/DVMHWriter.cpp, [insertInherit], one redeclaration: when
    every inherited argument refers to a parameter that the redeclaration
    names, nothing is written for the parameters and no note is added; the
    directive handed to [insertDataDirective] at the start of the
    redeclaration is the inherit pragma without its last character, then the
    names that this redeclaration gives to the parameters, in parentheses and
    separated by commas, then a line break. *)
Theorem insertInherit_named_parameters
    (SM : SourceManager) (getPragmaText : PragmaId -> string)
    (Decls : DeclarationInfoMap) (Front : DIArg) (Rest : list DIArg)
    (Redecl : FunctionDecl) (s : WriterState) :
  Forall (namedIn Redecl) (Front :: Rest) ->
  insertInherit SM getPragmaText [Redecl] Decls (Front :: Rest) s =
    Some (insertDataDirective SM (F_getLocation Redecl) Decls
            (F_getLocStart Redecl)
            (Str.pop_back (getPragmaText DvmInherit) +:+ "(" +:+
             separatedBy "," (parameterNames Redecl (Front :: Rest)) +:+
             ")" +:+ Str.nl) s,
          []).
Proof.
  intros HF. inversion HF as [|? ? HA HF']; subst.
  unfold insertInherit, inheritRedecls, inheritRedecl. cbn [fst snd].
  destruct (insertArg_named Redecl Front
              {| Inherit := Str.pop_back (getPragmaText DvmInherit) +:+ "(";
                 UnnamedArgsInMacro := [];
                 inheritWriter := s |} HA) as (Param & HP & ->).
  cbn [mbind option_bind]. rewrite insertMoreArgs_named by done.
  cbn [mbind option_bind Inherit UnnamedArgsInMacro inheritWriter fst snd].
  rewrite (parameterNames_cons _ _ _ _ HP).
  cbn [separatedBy]. by rewrite !string_app_assoc.
Qed.

Lemma insertInherit_named_parameters_witness :
  insertInherit Demo.SM DemoPragma.getPragmaText [DemoInherit.foo] ∅
    [{| getArg := 1; argName := "X" |}] releaseMemory =
  Some (insertDataDirective Demo.SM 67 ∅ 62
          ("#pragma dvm inherit(A)" +:+ Str.nl) releaseMemory, []).
Proof.
  apply (insertInherit_named_parameters Demo.SM DemoPragma.getPragmaText ∅
           {| getArg := 1; argName := "X" |} [] DemoInherit.foo
           releaseMemory).
  constructor; [|constructor].
  exists {| parmName := "A"; parmLocation := 70 |}.
  split; [reflexivity|discriminate].
Defined.

(** ** The debugging output *)

Lemma printLoop_sameFirst L L' :
  sameFirst L L' -> forall Offset, printLoop Offset L = printLoop Offset L'.
Proof.
  induction 1 as [StartLoc|StartLoc First First' Rest Rest' _ IH Hlen];
    intros Offset; [done|].
  cbn [printLoop length]. by rewrite IH, Hlen.
Qed.

(** X21.  src/tsar_dbg_output.cpp, [printLoops]: on every level the function
    writes the first loop of the reverse iteration only, once for each loop
    of the level (the end iterator is the one that moves).  Two loop lists
    whose first loops agree, level by level, and that have the same number of
    loops on these levels give the same text, whatever their other loops
    are. *)
Theorem printLoops_prints_first_loops
    (First First' : Loop) (Rest Rest' : list Loop) :
  sameFirst First First' -> length Rest = length Rest' ->
  printLoops (First :: Rest) = printLoops (First' :: Rest').
Proof.
  intros HF Hlen. unfold printLoops, printLoopsFrom. cbn [length].
  by rewrite (printLoop_sameFirst _ _ HF), Hlen.
Qed.

Lemma printLoops_prints_first_loops_witness :
  printLoops [mkLoop "a.c:1" []; mkLoop "a.c:5" []] =
  printLoops [mkLoop "a.c:1" []; mkLoop "a.c:1" []].
Proof.
  apply (printLoops_prints_first_loops (mkLoop "a.c:1" []) (mkLoop "a.c:1" [])
           [mkLoop "a.c:5" []] [mkLoop "a.c:1" []]).
  - constructor.
  - reflexivity.
Defined.

(** ** The ties of arrays to loops *)

Section DirectAccessFacts.
Variable Induction : list ObjectID.

Lemma try_emplace_lookup_ne `{Countable K} {V} (m : gmap K V) k v k' :
  k' <> k -> try_emplace k v m !! k' = m !! k'.
Proof.
  intros Hne. unfold try_emplace. destruct (m !! k); [done|].
  by rewrite lookup_insert_ne.
Qed.

Lemma mapMonoms_inv Dim Monoms : forall Mapping,
  length (mapMonoms Induction Dim Monoms Mapping) = length Mapping /\
  (forall d, d <> Dim ->
     mapMonoms Induction Dim Monoms Mapping !! d = Mapping !! d) /\
  (mapMonoms Induction Dim Monoms Mapping !! Dim = Mapping !! Dim \/
   exists Tie, mapMonoms Induction Dim Monoms Mapping !! Dim = Some Tie /\
               Tie.1 ∈ Induction).
Proof.
  induction Monoms as [|M Monoms IH]; intros Mapping; cbn [mapMonoms].
  - split; [done|]. split; [done|]. by left.
  - destruct (Value M =? 0)%Z; [apply IH|].
    case_bool_decide as Hin; [|apply IH].
    destruct (IH (<[Dim := (Column M, negb (Value M <? 0)%Z)]> Mapping))
      as (I1 & I2 & I3).
    split; [by rewrite I1, length_insert|].
    split; [intros d Hd; rewrite I2 by done; by rewrite list_lookup_insert_ne|].
    destruct I3 as [I3|I3]; [|by right].
    destruct (decide (Dim < length Mapping)%nat) as [Hlt|Hge].
    + right. exists (Column M, negb (Value M <? 0)%Z). split; [|exact Hin].
      rewrite I3. by rewrite list_lookup_insert_eq.
    + left. rewrite I3. rewrite list_insert_ge by lia. done.
Qed.

Lemma mapSubscript_inv Sub Mapping Mapping' :
  mapSubscript Induction Sub Mapping = Some Mapping' ->
  length Mapping' = length Mapping /\
  (forall d Tie, Mapping !! d = Some Tie -> Tie.1 <> 0 ->
                 Mapping' !! d = Some Tie) /\
  (forall d Tie, Mapping' !! d = Some Tie -> Tie.1 <> 0 ->
                 Mapping !! d = Some Tie \/ Tie.1 ∈ Induction).
Proof.
  unfold mapSubscript. destruct Sub as [Sub|].
  2: { intros H. inversion H; subst. repeat split; auto. }
  destruct (Mapping !! subscriptDimension Sub) as [Tie0|] eqn:E0; [|done].
  cbn [mbind option_bind].
  destruct (N.eqb_spec Tie0.1 0) as [H0|H0]; cbn [negb].
  2: { intros H. inversion H; subst. repeat split; auto. }
  destruct Sub as [Dim Monoms|Dim]; cbn [subscriptDimension] in E0.
  2: { intros H. inversion H; subst. repeat split; auto. }
  intros H. inversion H; subst Mapping'. clear H.
  destruct (mapMonoms_inv Dim Monoms Mapping) as (I1 & I2 & I3).
  split; [done|]. split.
  - intros d Tie Hd Hnz. destruct (decide (d = Dim)) as [->|Hne].
    + rewrite E0 in Hd. inversion Hd; subst. done.
    + by rewrite I2.
  - intros d Tie Hd Hnz. destruct (decide (d = Dim)) as [->|Hne].
    + destruct I3 as [I3|(Tie1 & I3 & Hin)].
      * left. by rewrite <- I3.
      * right. rewrite I3 in Hd. by inversion Hd; subst.
    + left. by rewrite <- I2.
Qed.

Lemma mapSubscripts_inv Subs : forall Mapping Mapping',
  mapSubscripts Induction Subs Mapping = Some Mapping' ->
  length Mapping' = length Mapping /\
  (forall d Tie, Mapping !! d = Some Tie -> Tie.1 <> 0 ->
                 Mapping' !! d = Some Tie) /\
  (forall d Tie, Mapping' !! d = Some Tie -> Tie.1 <> 0 ->
                 Mapping !! d = Some Tie \/ Tie.1 ∈ Induction).
Proof.
  induction Subs as [|Sub Subs IH]; intros Mapping Mapping' H; simpl in H.
  - inversion H; subst. repeat split; auto.
  - destruct (mapSubscript Induction Sub Mapping) as [M1|] eqn:E; [|done].
    cbn [mbind option_bind] in H.
    apply mapSubscript_inv in E as (A1 & A2 & A3).
    apply IH in H as (B1 & B2 & B3).
    split; [congruence|]. split.
    + intros d Tie Hd Hnz. apply B2; [|done]. by apply A2.
    + intros d Tie Hd Hnz. destruct (B3 d Tie Hd Hnz) as [Hm|Hin]; [|by right].
      by apply A3.
Qed.

Lemma tiesKept_refl DA : tiesKept DA DA.
Proof. intros Array Mapping H. exists Mapping. repeat split; auto. Qed.

Lemma tiesKept_trans DA1 DA2 DA3 :
  tiesKept DA1 DA2 -> tiesKept DA2 DA3 -> tiesKept DA1 DA3.
Proof.
  intros H12 H23 Array Mapping H.
  destruct (H12 Array Mapping H) as (M2 & A1 & A2 & A3).
  destruct (H23 Array M2 A1) as (M3 & B1 & B2 & B3).
  exists M3. split; [done|]. split; [congruence|].
  intros Dim Tie Hd Hnz. apply B3; [|done]. by apply A3.
Qed.

Lemma mapAccess_inv Access DA DA' :
  mapAccess Induction Access DA = Some DA' ->
  tiesKept DA DA' /\
  (tiesWithin Induction DA -> tiesWithin Induction DA').
Proof.
  unfold mapAccess. destruct (estimateVar (getArray Access)) as [Name|].
  2: { intros H. inversion H; subst. split; [apply tiesKept_refl|done]. }
  set (Key := memID (getArray Access)).
  set (Fresh := replicate (length (Subscripts Access)) (0, true)).
  cbv zeta.
  destruct (try_emplace Key Fresh DA !! Key) as [Mapping|] eqn:EK; [|done].
  cbn [mbind option_bind].
  destruct (mapSubscripts Induction (Subscripts Access) Mapping)
    as [Mapping'|] eqn:ES; [|done].
  cbn [mbind option_bind]. intros H. inversion H; subst DA'. clear H.
  apply mapSubscripts_inv in ES as (S1 & S2 & S3).
  assert (HM : DA !! Key = Some Mapping \/
               (DA !! Key = None /\ Mapping = Fresh)).
  { unfold try_emplace in EK. destruct (DA !! Key) as [V|] eqn:ED.
    - left. congruence.
    - right. rewrite lookup_insert_eq in EK. by inversion EK. }
  split.
  - intros Array V HV. destruct (decide (Array = Key)) as [->|Hne].
    + rewrite lookup_insert_eq. destruct HM as [HM|[HM _]]; [|congruence].
      rewrite HM in HV. inversion HV; subst V. exists Mapping'. auto.
    + rewrite lookup_insert_ne by done.
      rewrite try_emplace_lookup_ne by done. exists V. repeat split; auto.
  - intros Hin Array V Dim Tie HV Hd Hnz.
    destruct (decide (Array = Key)) as [->|Hne].
    + rewrite lookup_insert_eq in HV. inversion HV; subst V.
      destruct (S3 Dim Tie Hd Hnz) as [Hm|Hi]; [|done].
      destruct HM as [HM|[_ ->]].
      * by apply (Hin Key Mapping Dim Tie).
      * unfold Fresh in Hm. apply lookup_replicate in Hm as [-> _]. done.
    + rewrite lookup_insert_ne in HV by done.
      rewrite try_emplace_lookup_ne in HV by done.
      by apply (Hin Array V Dim Tie).
Qed.

Lemma mapAccesses_inv Accesses : forall DA DA',
  mapAccesses Induction Accesses DA = Some DA' ->
  tiesKept DA DA' /\
  (tiesWithin Induction DA -> tiesWithin Induction DA').
Proof.
  induction Accesses as [|Access Accesses IH]; intros DA DA' H; simpl in H.
  - inversion H; subst. split; [apply tiesKept_refl|done].
  - destruct (mapAccess Induction Access DA) as [DA1|] eqn:E; [|done].
    cbn [mbind option_bind] in H.
    apply mapAccess_inv in E as [A1 A2]. apply IH in H as [B1 B2].
    split; [by eapply tiesKept_trans|auto].
Qed.

End DirectAccessFacts.

(** X22.  lib/Transform/Clang/DVMHSMAutoPar.cpp, [optimizeLevelImpl], one
    loop: whenever the body is defined, a tie that the clause
    [DirectAccess] holds is never changed and no vector changes its length,
    and when the ties named loops of the induction sequence of the item only,
    they still do. *)
Theorem optimizeLoop_ties_induction_loops
    (AI : DIArrayAccessInfo) (Info : Parallelization) (ID : ObjectID)
    (Header : N) (Induction : list ObjectID) (DA DA' : DirectAccessMap) :
  optimizeLoop AI Info ID Header Induction DA = Some DA' ->
  tiesKept DA DA' /\
  (tiesWithin Induction DA -> tiesWithin Induction DA').
Proof.
  unfold optimizeLoop. intros H.
  assert (Hsame : Some DA = Some DA' ->
            tiesKept DA DA' /\
            (tiesWithin Induction DA -> tiesWithin Induction DA')).
  { intros E. inversion E; subst. split; [apply tiesKept_refl|done]. }
  destruct (ID =? 0); [by apply Hsame|].
  destruct (Info !! Header) as [PLocs|]; [|by apply Hsame].
  destruct (List.find _ PLocs) as [PL|]; [|by apply Hsame].
  destruct (existsb _ (Entry PL)); [|by apply Hsame].
  by apply (mapAccesses_inv Induction (scope_accesses AI ID)).
Qed.

Lemma optimizeLoop_ties_induction_loops_witness :
  tiesWithin [10] {[1%N := [(10%N, true); (0%N, true)]]}.
Proof.
  refine (proj2 (optimizeLoop_ties_induction_loops DemoLoops.AccessInfo
                   {[11%N := [{| Anchor := 10; Entry := [ItemParallel];
                                 Exit := [] |}]]}
                   10 11 [10] ∅ _ _) _).
  - vm_compute. reflexivity.
  - intros Array Mapping Dim Tie H. by rewrite lookup_empty in H.
Defined.

(** ** The two revisions of the pass over the declarations *)

Section RevisionFacts.
Variable Import : ASTImportInfo.t.
Variable S : list SourceLocation.

Lemma checkSingleDecl_agree StartLoc Loc First D D' :
  agreeOff S D D' ->
  (checkSingleDecl StartLoc Loc (First, D)).1 =
    (checkSingleDecl StartLoc Loc (First, D')).1 /\
  agreeOff S (checkSingleDecl StartLoc Loc (First, D)).2
             (checkSingleDecl StartLoc Loc (First, D')).2.
Proof.
  intros Ha. unfold checkSingleDecl. cbn [fst snd].
  destruct (First !! StartLoc) as [FirstLoc|]; cbn [fst snd];
    (split; [done|]); intros L HL.
  - destruct (decide (L = Loc)) as [->|H1]; [by rewrite !lookup_insert_eq|].
    rewrite !(lookup_insert_ne _ Loc) by done.
    destruct (decide (L = FirstLoc)) as [->|H2];
      [by rewrite !lookup_insert_eq|].
    rewrite !lookup_insert_ne by done. by apply Ha.
  - destruct (decide (L = Loc)) as [->|H1]; [by rewrite !lookup_insert_eq|].
    rewrite !lookup_insert_ne by done. by apply Ha.
Qed.

Lemma checkMergedDecls_agree Locs StartLocs : forall I First D D',
  agreeOff S D D' ->
  match checkMergedDecls I Locs StartLocs (First, D),
        checkMergedDecls I Locs StartLocs (First, D') with
  | Some r, Some r' => r.1 = r'.1 /\ agreeOff S r.2 r'.2
  | None, None => True
  | _, _ => False
  end.
Proof.
  induction Locs as [|LocI Locs IH]; intros I First D D' Ha; simpl.
  - done.
  - destruct (StartLocs !! I) as [StartI|]; [|done]. cbn [mbind option_bind].
    destruct (checkSingleDecl_agree StartI LocI First D D' Ha) as [E1 E2].
    destruct (checkSingleDecl StartI LocI (First, D)) as [F1 D1].
    destruct (checkSingleDecl StartI LocI (First, D')) as [F1' D1'].
    cbn [fst snd] in E1, E2. subst F1'. by apply IH.
Qed.

Lemma checkGlobal_agree VD First D D' :
  agreeOff S D D' ->
  match checkGlobal Import VD (First, D), checkGlobal Import VD (First, D') with
  | Some r, Some r' => r.1 = r'.1 /\ agreeOff S r.2 r'.2
  | None, None => True
  | _, _ => False
  end.
Proof.
  intros Ha. unfold checkGlobal.
  destruct (ASTImportInfo.RedeclLocs Import !! declID VD) as [Merged|].
  - destruct (MergedLocations.find Merged (getLocStart VD)) as [StartLocs|];
      [|done]. cbn [mbind option_bind].
    destruct (MergedLocations.find Merged (getLocation VD)) as [Locs|];
      [|done]. cbn [mbind option_bind].
    by apply checkMergedDecls_agree.
  - by apply checkSingleDecl_agree.
Qed.

Lemma markLocals_agree decls : forall st D',
  (forall D, D ∈ decls -> isVarDecl D = true -> declLocation D ∈ S) ->
  agreeOff S (Decls_ st) D' ->
  FirstGlobalAtLoc (markLocals decls st) = FirstGlobalAtLoc st /\
  agreeOff S (Decls_ (markLocals decls st)) D'.
Proof.
  unfold markLocals.
  induction decls as [|D decls IH]; intros st D' HS Ha; [done|].
  cbn [fold_left].
  assert (HS' : forall D0, D0 ∈ decls -> isVarDecl D0 = true ->
                           declLocation D0 ∈ S).
  { intros D0 H0. apply HS. by right. }
  destruct (isVarDecl D) eqn:Hv.
  - match goal with
    | |- context [fold_left _ decls ?s] => destruct (IH s D' HS') as [I1 I2]
    end.
    + intros L HL. cbn [Decls_].
      rewrite lookup_insert_ne; [by apply Ha|].
      intros <-. apply HL. apply HS; [by left|done].
    + split; [by rewrite I1|done].
  - by apply IH.
Qed.

Lemma initializeDecls_agree Unit : forall st0 st1,
  (forall L, L ∈ localLocations Unit -> L ∈ S) ->
  FirstGlobalAtLoc st1 = st0.1 ->
  agreeOff S (Decls_ st1) st0.2 ->
  match checkGlobals Import Unit st0, initializeDecls Import Unit st1 with
  | Some r0, Some r1 =>
      FirstGlobalAtLoc r1 = r0.1 /\ agreeOff S (Decls_ r1) r0.2
  | None, None => True
  | _, _ => False
  end.
Proof.
  induction Unit as [|D Unit IH]; intros st0 st1 HS HF Ha.
  - done.
  - assert (HS' : forall L, L ∈ localLocations Unit -> L ∈ S).
    { intros L HL. apply HS. unfold localLocations. rewrite bind_cons.
      apply elem_of_app. by right. }
    destruct D as [hasBody decls|VD C|].
    + cbn [checkGlobals initializeDecls initializeDecl mbind option_bind].
      destruct hasBody; [|by apply IH].
      destruct (markLocals_agree decls st1 st0.2) as [M1 M2]; [|done|].
      { intros D0 H0 Hv. apply HS. unfold localLocations. rewrite bind_cons.
        apply elem_of_app. left. apply list_elem_of_fmap. exists D0.
        split; [done|]. by apply list_elem_of_filter. }
      apply IH; [done|by rewrite M1|done].
    + cbn [checkGlobals initializeDecls initializeDecl].
      destruct st0 as [F0 D0]. cbn [fst snd] in HF, Ha. rewrite HF.
      pose proof (checkGlobal_agree VD F0 (Decls_ st1) D0 Ha) as Hg.
      destruct (checkGlobal Import VD (F0, Decls_ st1)) as [[F1 D1]|];
        destruct (checkGlobal Import VD (F0, D0)) as [[F0' D0']|];
        cbn [mbind option_bind]; try done.
      destruct Hg as [Hg1 Hg2]. cbn [fst snd] in Hg1, Hg2. subst F0'.
      by apply IH.
    + cbn [checkGlobals initializeDecls initializeDecl mbind option_bind].
      by apply IH.
Qed.

End RevisionFacts.

(** X23.  The two revisions of DVMHWriter.cpp, [isGlobalSingleDeclStmt] and
    [initializeDeclInfo]: on the same unit, import information and flags, one
    is defined exactly when the other is, and then they give the same flag
    at every location that is not the location of a variable of a function
    with a body. *)
Theorem initializeDeclInfo_agrees_with_isGlobalSingleDeclStmt
    (Import : ASTImportInfo.t) (Unit : list TopDecl)
    (Decls : DeclarationInfoMap) (Canonical : gset N) :
  match isGlobalSingleDeclStmt Import Unit Decls,
        initializeDeclInfo Import Unit Decls Canonical with
  | Some Decls0, Some (Decls1, _) =>
      agreeOff (localLocations Unit) Decls1 Decls0
  | None, None => True
  | _, _ => False
  end.
Proof.
  unfold isGlobalSingleDeclStmt, initializeDeclInfo.
  pose proof (initializeDecls_agree Import (localLocations Unit) Unit
                (∅, Decls)
                {| FirstGlobalAtLoc := ∅; Decls_ := Decls;
                   CanonicalDecls := Canonical |}) as H.
  destruct (checkGlobals Import Unit (∅, Decls)) as [r0|];
    destruct (initializeDecls Import Unit _) as [r1|];
    cbn [mbind option_bind]; by apply H.
Qed.

(** ** The alignment of a defined variable *)

Section DefinedFacts.
Variable SM : SourceManager.

Lemma insertForRedecl_location Import Decls Align Array D L s L' s' :
  insertForRedecl SM Import Decls Align Array D (L, s) = Some (L', s') ->
  L' = L \/
  (isThisDeclarationADefinition D = TentativeDefinition /\
   L' = getLocation D).
Proof.
  unfold insertForRedecl. intros H.
  assert (G : forall (p : SourceLocation * WriterState),
            match ASTImportInfo.RedeclLocs Import !! declID D with
            | Some Merged =>
                MergedLocations.find Merged (getLocation D) ≫= fun Locs =>
                MergedLocations.find Merged (getLocStart D) ≫= fun StartLocs =>
                insertForAliases SM Decls Array (getLocation D) 0 Locs
                                 StartLocs p.2 ≫= fun s0 => Some (p.1, s0)
            | None => Some (p.1, p.2)
            end = Some (L', s') -> L' = p.1).
  { intros [L1 s1] H2. simpl in *.
    destruct (ASTImportInfo.RedeclLocs Import !! declID D) as [Merged|].
    - destruct (MergedLocations.find Merged (getLocation D)) as [Locs|];
        simpl in H2; [|discriminate].
      destruct (MergedLocations.find Merged (getLocStart D)) as [StartLocs|];
        simpl in H2; [|discriminate].
      destruct (insertForAliases _ _ _ _ _ _ _ _) as [s2|] eqn:E;
        simpl in H2; [|discriminate].
      by inversion H2; subst.
    - by inversion H2; subst. }
  destruct (isThisDeclarationADefinition D).
  - apply (G (_, _)) in H. by left.
  - destruct (Loc.isInvalid L).
    + destruct (isIncludeFile SM _); apply (G (_, _)) in H; simpl in H;
        [by left|by right].
    + apply (G (_, _)) in H. by right.
  - apply (G (_, _)) in H. by left.
Qed.

Lemma insertForRedecls_location Import Decls Align Array Ds :
  forall L s L' s',
    insertForRedecls SM Import Decls Align Array Ds (L, s) = Some (L', s') ->
    L' = L \/
    exists D, D ∈ Ds /\
      isThisDeclarationADefinition D = TentativeDefinition /\
      L' = getLocation D.
Proof.
  induction Ds as [|D Ds IH]; intros L s L' s' H; simpl in H.
  - inversion H; subst. by left.
  - destruct (insertForRedecl _ _ _ _ _ _ _) as [[L1 s1]|] eqn:E;
      simpl in H; [|discriminate].
    apply insertForRedecl_location in E.
    apply IH in H as [->|(D' & HD' & HT & ->)].
    + destruct E as [->|[HT ->]]; [by left|]. right. exists D.
      split; [by left|done].
    + right. exists D'. split; [by right|done].
Qed.

End DefinedFacts.

(** X24.  lib/APC/DVMHWriter.cpp, [insertAlignment] for a variable with a
    definition: when the statement of the definition starts outside a macro,
    is not marked as a statement of several declarations, and the ledger does
    not bind its rewritable point yet, then after the call the ledger binds
    that point to the [align] directive and the directive is among the texts
    inserted there, whatever is done for the other redeclarations.  The
    location returned is the location of the definition or of a tentative
    definition of the chain. *)
Theorem insertAlignment_aligns_definition
    (SM : SourceManager) (getPragmaText : PragmaId -> string)
    (extractTplDimsAlignmentIndexes : AlignRule -> list nat)
    (genStringExpr : string -> Z * Z -> string)
    (Import : ASTImportInfo.t) (Decls : DeclarationInfoMap) (AR : AlignRule)
    (V : Variable_) (VarDef : VarDecl) (s s' : WriterState)
    (DefinitionLoc : SourceLocation) :
  getDefinition V = Some VarDef ->
  Loc.isMacroID (getLocStart VarDef) = false ->
  Decls !! getLocation VarDef <> Some false ->
  mInsertedDirs s !! getLocationToTransform SM s (getLocStart VarDef) = None ->
  Loc.isFileID (getLocationToTransform SM s (getLocStart VarDef)) = true ->
  insertAlignment SM getPragmaText extractTplDimsAlignmentIndexes
                  genStringExpr Import Decls AR V s
    = Some (DefinitionLoc, s') ->
  (exists Align,
     alignText getPragmaText extractTplDimsAlignmentIndexes genStringExpr AR
       = Some Align /\
     mInsertedDirs s' !! getLocationToTransform SM s (getLocStart VarDef)
       = Some Align /\
     Align ∈ Rewriter.insertedAt (mRewriter s')
               (getLocationToTransform SM s (getLocStart VarDef))) /\
  (DefinitionLoc = getLocation VarDef \/
   exists D, D ∈ redecls V /\
     isThisDeclarationADefinition D = TentativeDefinition /\
     DefinitionLoc = getLocation D).
Proof.
  intros Hdef Hm Hflag Hnone HW H. unfold insertAlignment in H.
  destruct (alignText _ _ _ AR) as [Align|] eqn:EA; simpl in H; [|discriminate].
  rewrite Hdef in H.
  set (W := getLocationToTransform SM s (getLocStart VarDef)) in *.
  set (s1 := insertDataDirective SM (getLocation VarDef) Decls
               (getLocStart VarDef) Align s) in *.
  assert (E1 : s1 = performInsertion SM W Align s).
  { unfold s1, insertDataDirective. rewrite Hm.
    assert (Hins : DVMHWriter.insertDirective SM (getLocStart VarDef) Align s
                   = performInsertion SM W Align s).
    { unfold DVMHWriter.insertDirective. cbv zeta. fold W. by rewrite Hnone. }
    destruct (Decls !! getLocation VarDef) as [[|]|]; done. }
  destruct (insertForRedecls _ _ _ _ _ _ _) as [[L1 s2]|] eqn:E;
    simpl in H; [|discriminate].
  assert (Hg : ledgerGrows s1 s').
  { eapply ledgerGrows_trans.
    - apply (insertForRedecls_across SM ledgerGrows
               (ledgerGrows_refl) (ledgerGrows_trans)
               (fun s0 a b c d => insertDataDirective_grows SM s0 a b c d)
               _ _ _ _ _ _ _ _ _ E).
    - destruct (Loc.isInvalid L1); inversion H; subst;
        [|apply ledgerGrows_refl].
      eapply ledgerGrows_trans; apply toDiag_grows. }
  assert (HL : DefinitionLoc = L1)
    by (destruct (Loc.isInvalid L1); by inversion H).
  subst L1. split.
  - exists Align. split; [done|].
    destruct Hg as (G1 & _ & [new G3] & _). split.
    + apply G1. rewrite E1. by apply performInsertion_dirs.
    + rewrite G3, insertedAt_app. apply elem_of_app. left.
      rewrite E1, performInsertion_edits by done.
      rewrite insertedAt_app. apply elem_of_app. right.
      unfold Rewriter.insertedAt. rewrite filter_cons_True by done.
      simpl. left.
  - by apply insertForRedecls_location in E.
Qed.

Lemma insertAlignment_aligns_definition_witness :
  exists DefinitionLoc s' Align,
    DemoAlign.insertAlignment ASTImportInfo.stub ∅ DemoAlign.AR DemoAlign.B
                              releaseMemory = Some (DefinitionLoc, s') /\
    mInsertedDirs s' !! 62%N = Some Align.
Proof.
  destruct (DemoAlign.insertAlignment ASTImportInfo.stub ∅ DemoAlign.AR
              DemoAlign.B releaseMemory) as [[L s']|] eqn:E;
    [|vm_compute in E; discriminate].
  destruct (insertAlignment_aligns_definition Demo.SM
              DemoPragma.getPragmaText
              DemoAlign.extractTplDimsAlignmentIndexes DemoAlign.genStringExpr
              ASTImportInfo.stub ∅ DemoAlign.AR DemoAlign.B DemoAlign.defB
              releaseMemory s' L)
    as [(Align & _ & HB & _) _].
  - reflexivity.
  - reflexivity.
  - vm_compute. discriminate.
  - reflexivity.
  - reflexivity.
  - exact E.
  - exists L, s', Align. split; [reflexivity|exact HB].
Defined.

(** ** The collection of the templates *)

Section CollectFacts.

Lemma useTemplate_used FID Tpl Templates :
  usedInFiles (useTemplate FID Tpl Templates) Tpl /\
  (forall k, usedInFiles Templates k ->
             usedInFiles (useTemplate FID Tpl Templates) k) /\
  (forall F Usage k b, (F, Usage) ∈ Templates -> Usage !! k = Some b ->
     exists Usage', (F, Usage') ∈ useTemplate FID Tpl Templates /\
                    Usage' !! k = Some b).
Proof.
  induction Templates as [|[F0 U0] Templates IH]; cbn [useTemplate].
  - split; [|split].
    + exists FID, (try_emplace Tpl false ∅). split; [apply list_elem_of_here|].
      rewrite try_emplace_lookup_None by apply lookup_empty. eauto.
    + intros k (F & U & HF & _). by apply elem_of_nil in HF.
    + intros F U k b HF. by apply elem_of_nil in HF.
  - destruct IH as (I1 & I2 & I3).
    assert (Hkeep : forall k b, U0 !! k = Some b ->
                      try_emplace Tpl false U0 !! k = Some b).
    { intros k b Hk. by apply try_emplace_lookup_Some. }
    destruct (F0 =? FID)%Z; (split; [|split]).
    + exists F0, (try_emplace Tpl false U0).
      split; [apply list_elem_of_here|].
      destruct (U0 !! Tpl) as [b|] eqn:EU.
      * rewrite (Hkeep _ _ EU). eauto.
      * rewrite try_emplace_lookup_None by done. eauto.
    + intros k (F & U & HF & [b HU]).
      apply elem_of_cons in HF as [HF|HF].
      * inversion HF; subst F U. exists F0, (try_emplace Tpl false U0).
        split; [apply list_elem_of_here|]. rewrite (Hkeep _ _ HU). eauto.
      * exists F, U. split; [by apply list_elem_of_further|eauto].
    + intros F U k b HF HU. apply elem_of_cons in HF as [HF|HF].
      * inversion HF; subst F U. exists (try_emplace Tpl false U0).
        split; [apply list_elem_of_here|by apply Hkeep].
      * exists U. split; [by apply list_elem_of_further|done].
    + destruct I1 as (F & U & HF & HU). exists F, U.
      split; [by apply list_elem_of_further|done].
    + intros k (F & U & HF & HU). apply elem_of_cons in HF as [HF|HF].
      * inversion HF; subst F U. exists F0, U0.
        split; [apply list_elem_of_here|done].
      * destruct (I2 k) as (F' & U' & HF' & HU'); [by exists F, U|].
        exists F', U'. split; [by apply list_elem_of_further|done].
    + intros F U k b HF HU. apply elem_of_cons in HF as [HF|HF].
      * inversion HF; subst F U. exists U0.
        split; [apply list_elem_of_here|done].
      * destruct (I3 F U k b HF HU) as (U' & HF' & HU'). exists U'.
        split; [by apply list_elem_of_further|done].
Qed.

End CollectFacts.

(** X25.  lib/APC/DVMHWriter.cpp, the lambda [insertAlignAndCollectTpl] of
    [runOnModule]: the writer is left as [insertAlignment] leaves it; when
    [insertAlignment] returns a valid location the template of the rule is
    afterwards used in a file, and otherwise the usage map is untouched.  In
    both cases no template stops being used and no flag [HasDefinition] of
    a recorded template changes. *)
Theorem insertAlignAndCollectTpl_records_template
    (SM : SourceManager) (getPragmaText : PragmaId -> string)
    (extractTplDimsAlignmentIndexes : AlignRule -> list nat)
    (genStringExpr : string -> Z * Z -> string)
    (Import : ASTImportInfo.t) (Decls : DeclarationInfoMap)
    (V : Variable_) (AR : AlignRule)
    (Templates Templates' : TemplateInFileUsage) (s s' : WriterState) :
  insertAlignAndCollectTpl SM getPragmaText extractTplDimsAlignmentIndexes
    genStringExpr Import Decls V AR (Templates, s) = Some (Templates', s') ->
  exists DefinitionLoc,
    insertAlignment SM getPragmaText extractTplDimsAlignmentIndexes
                    genStringExpr Import Decls AR V s
      = Some (DefinitionLoc, s') /\
    (Loc.isValid DefinitionLoc = true ->
     usedInFiles Templates' (arrayID (alignWith AR))) /\
    (Loc.isValid DefinitionLoc = false -> Templates' = Templates) /\
    (forall k, usedInFiles Templates k -> usedInFiles Templates' k) /\
    (forall F Usage k b, (F, Usage) ∈ Templates -> Usage !! k = Some b ->
       exists Usage', (F, Usage') ∈ Templates' /\ Usage' !! k = Some b).
Proof.
  unfold insertAlignAndCollectTpl. cbn [fst snd].
  destruct (insertAlignment _ _ _ _ _ _ _ _ _) as [[DefLoc s1]|]; [|done].
  cbn [mbind option_bind]. intros H. exists DefLoc.
  destruct (Loc.isValid DefLoc) eqn:EV; inversion H; subst Templates' s'.
  - destruct (useTemplate_used (getFileID SM DefLoc)
                (arrayID (alignWith AR)) Templates) as (U1 & U2 & U3).
    split; [done|]. split; [done|]. split; [done|]. split; [done|done].
  - split; [done|]. split; [done|]. split; [done|]. split; [done|].
    intros F U k b HF HU. by exists U.
Qed.

Lemma insertAlignAndCollectTpl_records_template_witness :
  usedInFiles [(1%Z, ({[7%N := false]} : gmap N bool))] 7.
Proof.
  destruct (DemoAlign.insertAlignAndCollectTpl DemoAlign.B DemoAlign.AR
              ([], releaseMemory)) as [[T' s']|] eqn:E;
    [|vm_compute in E; discriminate].
  destruct (insertAlignAndCollectTpl_records_template Demo.SM
              DemoPragma.getPragmaText DemoAlign.extractTplDimsAlignmentIndexes
              DemoAlign.genStringExpr ASTImportInfo.stub ∅ DemoAlign.B
              DemoAlign.AR [] T' releaseMemory s' E)
    as (DefLoc & HA & HU & _).
  assert (HT : T' = [(1%Z, ({[7%N := false]} : gmap N bool))]).
  { vm_compute in E. by inversion E. }
  assert (HD : DefLoc = 69%N).
  { vm_compute in HA. by inversion HA. }
  subst T' DefLoc. by apply HU.
Defined.

(** ** The ceiling of a new item *)

Section NewCeilingFacts.
Variable BitWidth : N.
Variable AccessInfo : option DIArrayAccessInfo.

Lemma updatePAD_le V p r : updatePAD BitWidth V p = Some r -> r <= p.
Proof.
  unfold updatePAD. destruct V as [|Front Inner].
  - intros H. inversion H; subst. lia.
  - destruct Front.1; [|done]. cbn [mbind option_bind].
    destruct (countDepth _ _ _ _); [|done]. cbn [mbind option_bind].
    intros H. inversion H; subst. lia.
Qed.

Lemma processDependences_le AI ID Step Deps :
  forall P PAD ok P' PAD',
    processDependences BitWidth AI ID Step Deps (P, PAD)
      = Some (ok, (P', PAD')) ->
    PAD' <= PAD.
Proof.
  induction Deps as [|Dep Deps IH]; intros P PAD ok P' PAD' H;
    unfold processDependences in H; fold processDependences in H.
  - inversion H; subst. lia.
  - destruct (processDependence _ _ _ _ _ _) as [[[P1 PAD1]|]|] eqn:E;
      simpl in H; try discriminate.
    + destruct (processDependence_inv _ _ _ _ _ _ _ _ _ E)
        as (_ & _ & _ & _ & _ & _ & PADf & U1 & U2).
      apply updatePAD_le in U1. apply updatePAD_le in U2.
      apply IH in H. lia.
    + inversion H; subst. lia.
Qed.

Lemma initialDepth_lt Deps : initialDepth Deps < 2 ^ 32.
Proof.
  unfold initialDepth, usize, u32. destruct Deps as [|Dep Deps]; [done|].
  destruct (Flow Dep.2); apply N.mod_lt; done.
Qed.

End NewCeilingFacts.

(** X26.  lib/Transform/Clang/DVMHSMAutoPar.cpp, [exploitParallelism]
    without an item: the ceiling [PossibleAcrossDepth] of a new item is never
    above the start value of the depth, the number of ranges of the flow
    vector of the first dependence of the loop (of its anti vector when the
    flow vector is empty), taken as an [unsigned]; for a loop without
    dependences it is 0. *)
Theorem exploitParallelism_new_item_ceiling
    (BitWidth : N) (AccessInfo : option DIArrayAccessInfo) (L : LoopFacts)
    (P' : PragmaParallel) (E E' : EngineState) :
  exploitParallelism BitWidth AccessInfo L None E = Some (Some P', E') ->
  PossibleAcrossDepth P' <= initialDepth (D_Dependence (ASTDepInfo L)).
Proof.
  intros H. apply exploitParallelism_cases in H
    as [(_ & ? & _)|[(_ & P0 & ? & _)|
        [(_ & P0 & ok & P2 & Diags & ? & _)|(_ & _ & H)]]];
    try discriminate.
  apply createItem_cases in H as (ok & P & Diags & EP & _ & Hcase).
  destruct Hcase as [(_ & ? & _)|(-> & Region & Actual & GetActual & P1 & HP &
                                  _ & _ & _ & HC & _)]; [discriminate|].
  inversion HP; subst P'. clear HP.
  destruct (joinNest_keeps L P1) as (_ & _ & _ & J4 & _). rewrite J4, HC.
  destruct (processRegularDependenceis_true _ _ _ _ _ _ _ EP)
    as [_ [[HD ->]|(Step & AI & P3 & PAD & _ & _ & _ & EPD & ->)]].
  - simpl. lia.
  - destruct (processDependences_keeps _ _ _ _ _ _ _ _ _ _ EPD)
      as (G1 & G2 & _). simpl in G1, G2.
    apply processDependences_le in EPD.
    pose proof (initialDepth_lt (D_Dependence (ASTDepInfo L))) as Hlt.
    cbn [PossibleAcrossDepth setPossibleAcrossDepth].
    rewrite G1, G2. cbn [length N.eqb]. unfold size_. simpl N.of_nat.
    rewrite N.add_0_r. unfold u32. rewrite N.mod_small by lia. lia.
Qed.

Lemma exploitParallelism_new_item_ceiling_witness :
  exists P' E',
    DemoLoops.exploitParallelism
      (DemoLoops.loop 20 1 (DemoLoops.depInfo "j" ∅ DemoLoops.scenarioC))
      None DemoLoops.start = Some (Some P', E') /\
    PossibleAcrossDepth P' <= 1.
Proof.
  destruct (DemoLoops.exploitParallelism
              (DemoLoops.loop 20 1
                 (DemoLoops.depInfo "j" ∅ DemoLoops.scenarioC))
              None DemoLoops.start)
    as [[[P'|] E']|] eqn:Hrun; [|vm_compute in Hrun; discriminate..].
  exists P', E'. split; [reflexivity|].
  exact (exploitParallelism_new_item_ceiling 64 (Some DemoLoops.AccessInfo)
           _ P' DemoLoops.start E' Hrun).
Defined.

(** ** The clauses of a pragma *)

Section ClauseFacts.

Lemma leb_total_rel : Total (fun x y : string => String.leb x y).
Proof.
  intros x y. destruct (String.leb_total x y) as [H|H]; rewrite H; auto.
Qed.

Lemma sortedVars_Permutation (Vars : SortedVarListT) :
  sortedVars Vars ≡ₚ elements Vars.
Proof. unfold sortedVars. apply merge_sort_Permutation. Qed.

Lemma sortedVars_elem (Vars : SortedVarListT) x :
  x ∈ sortedVars Vars <-> x ∈ Vars.
Proof. by rewrite sortedVars_Permutation, elem_of_elements. Qed.

Lemma sortedVars_nil (Vars : SortedVarListT) :
  sortedVars Vars = [] <-> Vars = ∅.
Proof.
  split.
  - intros H. apply set_eq. intros x. rewrite <- sortedVars_elem, H.
    split; [intros Hx; by apply elem_of_nil in Hx|set_solver].
  - intros ->. apply Permutation_nil_r. symmetry.
    rewrite sortedVars_Permutation. by rewrite elements_empty.
Qed.

End ClauseFacts.

(** X27.  lib/Transform/Clang/DVMHSMAutoPar.cpp, [addClauseIfNeed] and
    [addVarList]: [addClauseIfNeed] is always defined (it never calls
    [addVarList], which reads the first element, on an empty set).  For an
    empty set the pragma is left as it is; otherwise the name of the clause
    and the variables in parentheses, separated by a comma and a blank, are
    added at its end.  The variables listed are those of the set, each once,
    in ascending order. *)
Theorem addClauseIfNeed_lists_variables
    (Name : string) (Vars : SortedVarListT) (PragmaStr : string) :
  Pragma.addClauseIfNeed Name Vars PragmaStr =
    Some (PragmaStr +:+
          (if decide (Vars = ∅) then EmptyString
           else Name +:+ "(" +:+ separatedBy ", " (sortedVars Vars) +:+ ")")) /\
  Sorted (fun x y : string => String.leb x y) (sortedVars Vars) /\
  NoDup (sortedVars Vars) /\
  forall x, x ∈ sortedVars Vars <-> x ∈ Vars.
Proof.
  split; [|split; [|split]].
  - unfold Pragma.addClauseIfNeed.
    destruct (decide (Vars = ∅)) as [HV|HV].
    + by rewrite string_app_nil_r.
    + unfold Pragma.addVarList.
      destruct (sortedVars Vars) as [|V Rest] eqn:ES.
      * exfalso. by apply HV, sortedVars_nil.
      * cbn [separatedBy]. by rewrite !string_app_assoc.
  - unfold sortedVars. apply Sorted_merge_sort. apply leb_total_rel.
  - rewrite sortedVars_Permutation. apply NoDup_elements.
  - apply sortedVars_elem.
Qed.

(** ** The ceiling along a nest *)

Section NestFacts.
Variable BitWidth : N.
Variable AccessInfo : option DIArrayAccessInfo.

Lemma finalize_induction P : P_Induction (finalize P) = P_Induction P.
Proof. done. Qed.

(** One call adds at most one loop to the item. *)
Lemma exploitParallelism_inductionCount L PI E PI' E' :
  exploitParallelism BitWidth AccessInfo L PI E = Some (PI', E') ->
  inductionCount PI' <= inductionCount PI + 1.
Proof.
  intros H. apply exploitParallelism_cases in H
    as [(_ & -> & _)|[(_ & P0 & -> & _ & -> & _)|
        [(_ & P0 & ok & P2 & Diags & -> & _ & EP & -> & _)|(_ & -> & H)]]].
  - destruct PI; simpl; lia.
  - simpl. lia.
  - destruct (processRegularDependenceis_keeps _ _ _ _ _ _ _ _ EP)
      as (K1 & _). simpl in K1.
    destruct ok; cbn [inductionCount].
    + rewrite joinNest_induction, K1, length_app. simpl. lia.
    + rewrite finalize_induction, K1. lia.
  - apply createItem_cases in H as (ok & P & Diags & EP & _ & Hcase).
    destruct (processRegularDependenceis_keeps _ _ _ _ _ _ _ _ EP)
      as (K1 & _). simpl in K1.
    destruct Hcase as [(_ & -> & _)|(_ & Region & Actual & GetActual & P1 &
                                     -> & I1 & _)].
    + simpl. lia.
    + cbn [inductionCount]. rewrite joinNest_induction, I1, K1. simpl. lia.
Qed.

Lemma nestSteps_ceiling Ls : forall PI E PI' E',
  nestSteps BitWidth AccessInfo PI E Ls PI' E' ->
  Forall distancesKnown Ls ->
  (forall L, L ∈ Ls ->
     inductionCount PI + N.of_nat (length Ls) +
       initialDepth (D_Dependence (ASTDepInfo L)) + 1 < 2 ^ 32) ->
  (forall P, PI = Some P ->
     withinCeiling P /\ (isFinal P = false -> belowCeiling P)) ->
  forall P', PI' = Some P' ->
    withinCeiling P' /\ (isFinal P' = false -> belowCeiling P').
Proof.
  induction Ls as [|L Ls IH]; intros PI E PI' E' Hrun HK Hb HP P' HP'.
  - inversion Hrun; subst. by apply HP.
  - inversion Hrun as [|? ? ? PI1 E1 ? ? ? Hopen Hstep Hrest]; subst.
    inversion HK as [|? ? HKL HKs]; subst.
    pose proof (exploitParallelism_inductionCount _ _ _ _ _ Hstep) as Hcount.
    assert (HbL := Hb L ltac:(by left)). cbn [length] in HbL.
    apply (IH PI1 E1 (Some P') E' Hrest HKs); [| |done].
    + intros L' HL'. assert (HbL' := Hb L' ltac:(by right)).
      cbn [length] in HbL'. lia.
    + intros P1 ->.
      apply (exploitParallelism_within_ceiling BitWidth AccessInfo L PI E E1
               P1 HKL); [|done].
      destruct PI as [P|].
      * split; [by apply HP, Hopen|]. cbn [inductionCount] in HbL. lia.
      * cbn [inductionCount] in HbL. lia.
Qed.

End NestFacts.

(** X28.  lib/Transform/Clang/DVMHSMAutoPar.cpp, [exploitParallelism] along a
    nest: when the calls for the loops of a nest are chained from the
    outermost loop in, starting without an item and handing an item on only
    while it is open, and every loop has dependence records with a distance
    (and counters that do not wrap around), the item at the end holds no more
    loops than its non-zero ceiling [PossibleAcrossDepth] allows, and fewer
    when it is still open. *)
Theorem exploitParallelism_nest_within_ceiling
    (BitWidth : N) (AccessInfo : option DIArrayAccessInfo)
    (Ls : list LoopFacts) (E E' : EngineState) (P' : PragmaParallel) :
  nestSteps BitWidth AccessInfo None E Ls (Some P') E' ->
  Forall distancesKnown Ls ->
  (forall L, L ∈ Ls ->
     N.of_nat (length Ls) +
       initialDepth (D_Dependence (ASTDepInfo L)) + 1 < 2 ^ 32) ->
  withinCeiling P' /\ (isFinal P' = false -> belowCeiling P').
Proof.
  intros Hrun HK Hb.
  apply (nestSteps_ceiling BitWidth AccessInfo Ls None E (Some P') E' Hrun HK);
    [|done|done].
  intros L HL. cbn [inductionCount]. specialize (Hb L HL). lia.
Qed.

Lemma exploitParallelism_nest_within_ceiling_witness :
  exists P' E',
    nestSteps 64 (Some DemoLoops.AccessInfo) None DemoLoops.start
              [DemoAcrossNest.outer; DemoAcrossNest.inner] (Some P') E' /\
    P_Induction P' = [10; 20] /\
    PossibleAcrossDepth P' = 2 /\
    P_Dependence P' !! "A"%string
      = Some [(Some 1%Z, None); (Some 1%Z, Some 2%Z)] /\
    withinCeiling P'.
Proof.
  assert (Hrun : exists P' E',
            nestSteps 64 (Some DemoLoops.AccessInfo) None DemoLoops.start
                      [DemoAcrossNest.outer; DemoAcrossNest.inner]
                      (Some P') E' /\
            P_Induction P' = [10; 20] /\
            PossibleAcrossDepth P' = 2 /\
            P_Dependence P' !! "A"%string
              = Some [(Some 1%Z, None); (Some 1%Z, Some 2%Z)]).
  { eexists _, _. split; [|split; [|split]].
    - eapply nestSteps_cons; [discriminate|vm_compute; reflexivity|].
      eapply nestSteps_cons;
        [intros P HP; inversion HP; reflexivity
        |vm_compute; reflexivity
        |apply nestSteps_nil].
    - reflexivity.
    - reflexivity.
    - reflexivity. }
  destruct Hrun as (P' & E' & Hrun & HI & HC & HD). exists P', E'.
  split; [exact Hrun|]. split; [exact HI|]. split; [exact HC|].
  split; [exact HD|].
  apply (exploitParallelism_nest_within_ceiling 64
           (Some DemoLoops.AccessInfo)
           [DemoAcrossNest.outer; DemoAcrossNest.inner]
           DemoLoops.start E' P' Hrun).
  - constructor; [|constructor; [|constructor]].
    + split; [|left; discriminate].
      constructor; [|constructor]. split; vm_compute; reflexivity.
    + split; [|left; discriminate].
      constructor; [|constructor]. split; vm_compute; reflexivity.
  - intros L HL. apply elem_of_cons in HL as [->|HL];
      [vm_compute; reflexivity|].
    apply list_elem_of_singleton in HL. subst L. vm_compute. reflexivity.
Defined.

(** ** The tie clause *)

Section MappingFacts.
Variable arrayName : N -> option string.
Variable Inductions : list (ObjectID * string).

Lemma tieText_is_Some Map :
  is_Some (tieText Inductions Map) <->
  (Map.1 <> 0 -> Map.1 ∈ Inductions.*1).
Proof.
  unfold tieText. destruct (N.eqb_spec Map.1 0) as [H0|H0].
  - split; [done|eauto].
  - destruct (List.find _ Inductions) as [LToI|] eqn:EF;
      cbn [mbind option_bind].
    + apply List.find_some in EF as [Hin Heq].
      apply N.eqb_eq in Heq. split; [|eauto]. intros _ _.
      rewrite <- Heq. apply list_elem_of_fmap_2. by apply list_elem_of_In.
    + split; [by intros [? ?]|]. intros Hin. exfalso.
      specialize (Hin H0). apply list_elem_of_fmap in Hin as (LToI & Heq & Hin).
      apply list_elem_of_In in Hin.
      pose proof (List.find_none _ _ EF LToI Hin) as Hf. simpl in Hf.
      apply N.eqb_neq in Hf. congruence.
Qed.

Lemma mappingText_is_Some Mapping :
  is_Some (mappingText arrayName Inductions Mapping) <->
  is_Some (arrayName Mapping.1) /\
  forall Dim Tie, Mapping.2 !! Dim = Some Tie -> Tie.1 <> 0 ->
                  Tie.1 ∈ Inductions.*1.
Proof.
  unfold mappingText. split.
  - intros [r H]. destruct (arrayName Mapping.1) as [Name|]; [|done].
    cbn [mbind option_bind] in H. split; [eauto|].
    destruct (mapM (tieText Inductions) Mapping.2) as [Dims|] eqn:EM; [|done].
    intros Dim Tie HD Hnz.
    assert (HF : Forall (is_Some ∘ tieText Inductions) Mapping.2)
      by (apply mapM_is_Some; eauto).
    rewrite Forall_lookup in HF. specialize (HF Dim Tie HD).
    by apply tieText_is_Some in HF.
  - intros [[Name ->] HT]. cbn [mbind option_bind].
    assert (HM : is_Some (mapM (tieText Inductions) Mapping.2)).
    { apply mapM_is_Some. apply Forall_lookup. intros Dim Tie HD.
      apply tieText_is_Some. by apply (HT Dim). }
    destruct HM as [Dims ->]. cbn [mbind option_bind]. eauto.
Qed.

End MappingFacts.

(** X29.  lib/Transform/Clang/DVMHSMAutoPar.cpp, [addParallelMapping]: the
    clause [tie] can be written exactly when the clause [DirectAccess] is not
    empty, every array of it has a name in the alias tree, and every tie
    names a loop that is among the inductions of the nest; a tie to another
    loop makes the function read past the end of the list of inductions. *)
Theorem addParallelMapping_defined_iff
    (arrayName : N -> option string) (Inductions : list (ObjectID * string))
    (DirectAccess : DirectAccessMap) (PragmaStr : string) :
  is_Some (addParallelMapping arrayName Inductions DirectAccess PragmaStr) <->
  DirectAccess <> ∅ /\
  (forall Array Mapping, DirectAccess !! Array = Some Mapping ->
     is_Some (arrayName Array)) /\
  tiesWithin Inductions.*1 DirectAccess.
Proof.
  unfold addParallelMapping. cbv zeta.
  assert (HM : is_Some (mapM (mappingText arrayName Inductions)
                             (map_to_list DirectAccess)) <->
               (forall Array Mapping, DirectAccess !! Array = Some Mapping ->
                  is_Some (arrayName Array)) /\
               tiesWithin Inductions.*1 DirectAccess).
  { rewrite mapM_is_Some, Forall_forall. split.
    - intros HF. split.
      + intros Array Mapping HA.
        assert (Hin : (Array, Mapping) ∈ map_to_list DirectAccess)
          by by apply elem_of_map_to_list.
        apply HF in Hin. by apply mappingText_is_Some in Hin as [? _].
      + intros Array Mapping Dim Tie HA HD Hnz.
        assert (Hin : (Array, Mapping) ∈ map_to_list DirectAccess)
          by by apply elem_of_map_to_list.
        apply HF in Hin. apply mappingText_is_Some in Hin as [_ HT].
        by apply (HT Dim).
    - intros [HN HT] [Array Mapping] Hin.
      apply elem_of_map_to_list in Hin. apply mappingText_is_Some. split.
      + by apply (HN Array Mapping).
      + intros Dim Tie HD Hnz. by apply (HT Array Mapping Dim Tie). }
  destruct (mapM (mappingText arrayName Inductions)
                 (map_to_list DirectAccess)) as [MappingStr|] eqn:EM;
    cbn [mbind option_bind].
  - assert (Hlen : length MappingStr = length (map_to_list DirectAccess)).
    { apply mapM_Some in EM. symmetry. by eapply Forall2_length. }
    unfold Pragma.addVarList.
    destruct (sortedVars (list_to_set MappingStr)) as [|V Rest] eqn:ES.
    + apply sortedVars_nil in ES.
      assert (MappingStr = []) as ->.
      { destruct MappingStr as [|x l]; [done|]. exfalso.
        assert (x ∈ (∅ : gset string)); [|set_solver].
        rewrite <- ES. apply elem_of_list_to_set. by left. }
      simpl in Hlen. symmetry in Hlen. apply length_zero_iff_nil in Hlen.
      apply map_to_list_empty_iff in Hlen.
      split; [by intros [? ?]|]. by intros [? _].
    + split; [|eauto]. intros _. split; [|by apply HM; eauto].
      intros ->. rewrite map_to_list_empty in Hlen.
      destruct MappingStr; [|done]. rewrite list_to_set_nil in ES.
      assert (Hnil : sortedVars (∅ : gset string) = []) by by apply sortedVars_nil.
      congruence.
  - split; [by intros [? ?]|]. intros (_ & HN & HT). exfalso.
    destruct (proj2 HM (conj HN HT)) as [? ?]. done.
Qed.

(** ** The search for compile units *)

#[local] Set Warnings "-clear-no-such-hyp".

Lemma addCompileUnits_spec Found : forall Visited Operands,
  exists new,
    addCompileUnits Found Visited Operands = Operands ++ new /\
    NoDup new /\
    (forall CU, CU ∈ new -> CU ∈ Found /\ ~ (CU ∈ Visited)) /\
    (forall CU, CU ∈ Found -> CU ∈ Visited \/ CU ∈ new).
Proof.
  induction Found as [|CU Found IH]; intros Visited Operands;
    cbn [addCompileUnits].
  - exists []. split; [by rewrite app_nil_r|]. split; [constructor|].
    split; intros CU H; by apply elem_of_nil in H.
  - destruct (decide (CU ∈ Visited)) as [Hin|Hnew].
    + destruct (IH Visited Operands) as (new & E & Hnd & H1 & H2).
      exists new. split; [done|]. split; [done|]. split.
      * intros CU' H. destruct (H1 CU' H). split; [by right|done].
      * intros CU' H. apply elem_of_cons in H as [->|H]; [by left|auto].
    + destruct (IH ({[CU]} ∪ Visited) (Operands ++ [CU]))
        as (new & E & Hnd & H1 & H2).
      exists (CU :: new). split; [by rewrite E, <- app_assoc|]. split.
      * constructor; [|done]. intros H. apply H1 in H as [_ H]. set_solver.
      * split.
        -- intros CU' H. apply elem_of_cons in H as [->|H].
           ++ split; [by left|done].
           ++ destruct (H1 CU' H). split; [by right|set_solver].
        -- intros CU' H. apply elem_of_cons in H as [->|H].
           ++ right. by left.
           ++ destruct (H2 CU' H) as [H'|H'].
              ** apply elem_of_union in H' as [H'|H']; [|by left].
                 apply elem_of_singleton in H'. subst. right. by left.
              ** right. by right.
Qed.

Section SearchFacts.
Variable G : MDGraph.
Variable U : gset N.
Hypothesis U_closed :
  forall MD Op, MD ∈ U -> OpNode Op ∈ md_operands G MD -> Op ∈ U.

Lemma searchStep_refl St : searchStep G U St St.
Proof.
  split; [done|]. split; [set_solver|]. split.
  - exists []. split; [by rewrite app_nil_r|]. intros CU H.
    by apply elem_of_nil in H.
  - intros MD H1 H2. done.
Qed.

Lemma searchStep_trans St1 St2 St3 :
  searchStep G U St1 St2 -> searchStep G U St2 St3 -> searchStep G U St1 St3.
Proof.
  intros (A1 & A2 & (n1 & A3 & A4) & A5) (B1 & B2 & (n2 & B3 & B4) & B5).
  split; [set_solver|]. split; [set_solver|]. split.
  - exists (n1 ++ n2). split; [by rewrite B3, A3, app_assoc|].
    intros CU H. apply elem_of_app in H as [H|H]; auto.
  - intros MD H3 H1 Op HOp.
    destruct (decide (MD ∈ MDNodes St2)) as [H2|H2].
    + destruct (A5 MD H2 H1 Op HOp) as [C1 C2]. split; [set_solver|].
      intros HCU. rewrite B3. apply elem_of_app. left. by apply C2.
    + by apply (B5 MD H3 H2 Op HOp).
Qed.

Lemma size_unvisited_le (V V' : gset N) :
  V ⊆ V' -> (size (U ∖ V') <= size (U ∖ V))%nat.
Proof. intros H. apply subseteq_size. set_solver. Qed.

Lemma visitOperands_ok f :
  (forall MD St, MD ∈ U -> (size (U ∖ MDNodes St) < f)%nat ->
     exists St', visitMDNode G f MD St = Some St' /\
                 MD ∈ MDNodes St' /\ searchStep G U St St') ->
  forall Ops St,
    (forall Op, OpNode Op ∈ Ops -> Op ∈ U) ->
    (size (U ∖ MDNodes St) < f)%nat ->
    exists St',
      visitOperands G (visitMDNode G f) Ops St = Some St' /\
      searchStep G U St St' /\
      forall Op, OpNode Op ∈ Ops ->
        Op ∈ MDNodes St' /\ (isCompileUnit G Op = true -> Op ∈ CUs St').
Proof.
  intros IHf. induction Ops as [|Op0 Ops IH]; intros St HU Hsize.
  - exists St. split; [done|]. split; [apply searchStep_refl|].
    intros Op H. by apply elem_of_nil in H.
  - assert (HU' : forall Op, OpNode Op ∈ Ops -> Op ∈ U).
    { intros Op H. apply HU. by right. }
    destruct Op0 as [|Op|].
    + destruct (IH St HU' Hsize) as (St' & E & Hstep & Hdone).
      exists St'. split; [exact E|]. split; [done|].
      intros Op H. apply elem_of_cons in H as [H|H]; [done|]. by apply Hdone.
    + set (Sta := if isCompileUnit G Op
                  then {| MDNodes := MDNodes St; CUs := CUs St ++ [Op] |}
                  else St).
      assert (Ha : MDNodes Sta = MDNodes St /\
                   searchStep G U St Sta /\
                   (isCompileUnit G Op = true -> Op ∈ CUs Sta)).
      { unfold Sta. destruct (isCompileUnit G Op) eqn:ECU.
        - split; [done|]. split.
          + split; [done|]. split; [set_solver|]. split.
            * exists [Op]. split; [done|]. intros CU H.
              apply list_elem_of_singleton in H. by subst.
            * intros MD H1 H2. done.
          + intros _. simpl. apply elem_of_app. right.
            by apply list_elem_of_singleton.
        - split; [done|]. split; [apply searchStep_refl|done]. }
      destruct Ha as (Ha1 & Ha2 & Ha3).
      destruct (IHf Op Sta) as (St1 & E1 & Hin1 & Hstep1).
      { apply HU. by left. }
      { by rewrite Ha1. }
      destruct (IH St1 HU') as (St' & E & Hstep & Hdone).
      { destruct Hstep1 as (M1 & _).
        pose proof (size_unvisited_le _ _ M1). rewrite Ha1 in *. lia. }
      exists St'. split.
      { cbn [visitOperands]. fold Sta. rewrite E1. cbn [mbind option_bind].
        exact E. }
      split.
      { eapply searchStep_trans; [exact Ha2|].
        eapply searchStep_trans; [exact Hstep1|exact Hstep]. }
      intros Op' H. apply elem_of_cons in H as [H|H]; [|by apply Hdone].
      inversion H; subst Op'. destruct Hstep as (M2 & _ & (n2 & C2 & _) & _).
      destruct Hstep1 as (_ & _ & (n1 & C1 & _) & _).
      split; [set_solver|]. intros HCU. rewrite C2, C1.
      apply elem_of_app. left. apply elem_of_app. left. by apply Ha3.
    + destruct (IH St HU' Hsize) as (St' & E & Hstep & Hdone).
      exists St'. split; [exact E|]. split; [done|].
      intros Op H. apply elem_of_cons in H as [H|H]; [done|]. by apply Hdone.
Qed.

Lemma visitMDNode_ok fuel : forall MD St,
  MD ∈ U -> (size (U ∖ MDNodes St) < fuel)%nat ->
  exists St', visitMDNode G fuel MD St = Some St' /\
              MD ∈ MDNodes St' /\ searchStep G U St St'.
Proof.
  induction fuel as [|f IHf]; intros MD St HMD Hsize; [lia|].
  cbn [visitMDNode]. destruct (decide (MD ∈ MDNodes St)) as [Hin|Hnew].
  - exists St. split; [done|]. split; [done|apply searchStep_refl].
  - set (St0 := {| MDNodes := {[MD]} ∪ MDNodes St; CUs := CUs St |}).
    destruct (visitOperands_ok f IHf (md_operands G MD) St0)
      as (St' & E & (M1 & M2 & (new & C1 & C2) & M4) & Hdone).
    { intros Op HOp. by apply (U_closed MD). }
    { assert (Hsub : U ∖ MDNodes St0 ⊂ U ∖ MDNodes St).
      { split; [set_solver|]. intros Hx.
        assert (MD ∈ U ∖ MDNodes St0) by (apply Hx; set_solver).
        set_solver. }
      apply subset_size in Hsub. lia. }
    exists St'. split; [exact E|]. split; [set_solver|].
    split; [set_solver|]. split; [set_solver|]. split.
    + exists new. by split.
    + intros MD' H1 H2 Op HOp.
      destruct (decide (MD' = MD)) as [->|Hne]; [by apply Hdone|].
      apply (M4 MD' H1); [set_solver|done].
Qed.

Lemma visitRoots_ok fuel Roots : forall St,
  (forall MD, MD ∈ Roots -> MD ∈ U) ->
  (size U < fuel)%nat ->
  exists St', visitRoots G fuel Roots St = Some St' /\
              searchStep G U St St' /\
              forall MD, MD ∈ Roots -> MD ∈ MDNodes St'.
Proof.
  induction Roots as [|MD Roots IH]; intros St HU Hsize.
  - exists St. split; [done|]. split; [apply searchStep_refl|].
    intros MD H. by apply elem_of_nil in H.
  - destruct (visitMDNode_ok fuel MD St) as (St1 & E1 & Hin1 & Hstep1).
    { apply HU. by left. }
    { assert ((size (U ∖ MDNodes St) <= size U)%nat)
        by (apply subseteq_size; set_solver). lia. }
    destruct (IH St1) as (St' & E & Hstep & Hroots); [|done|].
    { intros MD' H. apply HU. by right. }
    exists St'. split; [cbn [visitRoots]; by rewrite E1|].
    split; [by eapply searchStep_trans|].
    intros MD' H. apply elem_of_cons in H as [->|H]; [|by apply Hroots].
    destruct Hstep as (M & _). set_solver.
Qed.

End SearchFacts.

(** X30.  lib/Analysis/Memory/ServerUtils.cpp, [DICompileUnitSearch] and the
    first part of [initializeServer]: when the metadata reachable from the
    functions is finite, the search ends (a recursion depth above the number
    of nodes is enough).  Afterwards the operands of "llvm.dbg.cu" are the
    old operands followed by new ones, no new operand is listed twice or was
    listed before, and every new operand is a compile unit.  The visited
    nodes contain the metadata of the functions and all operands of visited
    nodes, and every compile unit that is an operand of a visited node is
    among the operands of "llvm.dbg.cu". *)
Theorem initializeServer_adds_compile_units
    (G : MDGraph) (U : gset N) (fuel : nat) (Roots ServerCUs : list N) :
  (forall MD Op, MD ∈ U -> OpNode Op ∈ md_operands G MD -> Op ∈ U) ->
  (forall MD, MD ∈ Roots -> MD ∈ U) ->
  (size U < fuel)%nat ->
  exists Visited Operands new,
    initializeServerCUs G fuel Roots ServerCUs = Some (Visited, Operands) /\
    Operands = ServerCUs ++ new /\
    NoDup new /\
    (forall CU, CU ∈ new ->
       ~ (CU ∈ ServerCUs) /\ isCompileUnit G CU = true) /\
    (forall MD, MD ∈ Roots -> MD ∈ Visited) /\
    (forall MD Op, MD ∈ Visited -> OpNode Op ∈ md_operands G MD ->
       Op ∈ Visited /\ (isCompileUnit G Op = true -> Op ∈ Operands)).
Proof.
  intros Hclosed HRoots Hfuel. unfold initializeServerCUs.
  destruct (visitRoots_ok G U Hclosed fuel Roots
              {| MDNodes := ∅; CUs := [] |} HRoots Hfuel)
    as (St & E & (M1 & M2 & (found & C1 & C2) & M4) & Hin).
  rewrite E. cbn [mbind option_bind]. cbn [CUs app] in C1.
  destruct (addCompileUnits_spec (CUs St) (list_to_set ServerCUs) ServerCUs)
    as (new & EA & Hnd & A1 & A2).
  exists (MDNodes St), (ServerCUs ++ new), new.
  split; [by rewrite EA|]. split; [done|]. split; [done|]. split.
  - intros CU H. destruct (A1 CU H) as [HF HV]. split.
    + intros HS. apply HV. by apply elem_of_list_to_set.
    + apply C2. by rewrite <- C1.
  - split; [done|]. intros MD Op HMD HOp.
    destruct (M4 MD HMD ltac:(set_solver) Op HOp) as [D1 D2].
    split; [done|]. intros HCU. apply elem_of_app.
    destruct (A2 Op (D2 HCU)) as [HV|HN]; [left|by right].
    by apply elem_of_list_to_set in HV.
Qed.

Lemma initializeServer_adds_compile_units_witness :
  exists Visited Operands,
    initializeServerCUs
      {| md_operands MD :=
           if MD =? 1 then [OpNode 2; OpNull; OpNode 3]
           else if MD =? 2 then [OpNode 1; OpOther]
           else [OpNode 3];
         isCompileUnit MD := MD =? 3 |}
      4 [1] [] = Some (Visited, Operands) /\
    3 ∈ Operands.
Proof.
  destruct (initializeServer_adds_compile_units
              {| md_operands MD :=
                   if MD =? 1 then [OpNode 2; OpNull; OpNode 3]
                   else if MD =? 2 then [OpNode 1; OpOther]
                   else [OpNode 3];
                 isCompileUnit MD := MD =? 3 |}
              {[1; 2; 3]} 4 [1] [])
    as (Visited & Operands & new & E & _ & _ & _ & HR & HC).
  - intros MD Op HMD HOp.
    assert (HM : MD = 1 \/ (MD = 2 \/ MD = 3)) by set_solver.
    destruct HM as [-> | [-> | ->]]; simpl in HOp;
      repeat (apply elem_of_cons in HOp as [HOp|HOp];
              [inversion HOp; subst; set_solver|]);
      by apply elem_of_nil in HOp.
  - intros MD HMD. apply list_elem_of_singleton in HMD. subst. set_solver.
  - vm_compute. lia.
  - exists Visited, Operands. split; [exact E|].
    apply (HC 1 3); [apply HR; apply list_elem_of_here| |reflexivity].
    simpl. do 2 apply list_elem_of_further. apply list_elem_of_here.
Defined.
